(** * c_hashmap: a shallow embedding of the hash tables of ngraves95/c_hashmap

    The repository holds three listings of [hashmap.c]:
    - the separate-chaining table (first listing of [src/hashmap.c]),
      modelled in [Module Chained];
    - an early draft of the chaining table (second listing of
      [src/hashmap.c]), modelled in [Module ChainedDraft];
    - the open-addressing table with linear probing
      ([src/unnamed/part_001]), modelled in [Module OpenAddr].

    Pointers ([void *]) are addresses in [Z], [NULL] is [0].  [int] is a
    32-bit two's-complement integer and [size_t] a 64-bit unsigned one (the
    LP64 model the header's [as_key] macro selects); out-of-range
    conversions to [int] wrap, as gcc defines them.  The results of
    [malloc] and [calloc] are arguments of the functions that allocate.
    The hash and equality callbacks are fields of the table, as in the
    [struct].  The string utilities [hashmap_str_hash] and [hashmap_str_eq]
    read the memory behind a key; they take that memory as an argument.

    The file has four parts: the embedding, facts about it
    ([ChainedFacts], [OpenAddrFacts]), one theorem per property of the
    specification, and further properties of the calls ([ChainedMore],
    [OpenAddrMore] and the theorems after them). *)

From Stdlib Require Import ZArith Lia Bool QArith.
From stdpp Require Import base option list.

Local Open Scope Z_scope.

(** ** Results of C computations *)

(** A C call either returns, runs into undefined behaviour (an array access
    out of bounds, a signed overflow, a division by zero), or is cut short
    because the model's loop bound was used up. *)
Inductive outcome (A : Type) : Type :=
| Ret (a : A)
| Undef
| Timeout.
Arguments Ret {A} a.
Arguments Undef {A}.
Arguments Timeout {A}.

#[global] Instance outcome_ret : MRet outcome := λ A a, Ret a.
#[global] Instance outcome_bind : MBind outcome := λ A B f m,
  match m with
  | Ret a => f a
  | Undef => Undef
  | Timeout => Timeout
  end.

(** ** Machine integers and pointers *)

Definition ptr := Z.
Definition NULL : ptr := 0.

Definition INT_MAX : Z := 2 ^ 31 - 1.
Definition INT_MIN : Z := - 2 ^ 31.

(** Conversion to [int]: wrap-around into [INT_MIN .. INT_MAX]. *)
Definition cast_int (x : Z) : Z := (x + 2 ^ 31) mod 2 ^ 32 - 2 ^ 31.

(** Conversion to [size_t] (and to [unsigned long]): reduction modulo 2^64. *)
Definition cast_size_t (x : Z) : Z := x mod 2 ^ 64.

(** A C [int] used as a condition. *)
Definition truthy (x : Z) : bool := negb (x =? 0).

(** [LOAD_FACTOR] is [1.5] and [nentries * LOAD_FACTOR >= size] is computed
    in [double].  For a size up to 2^31 the test is the comparison
    [3 n >= 2 s]: a count below 2^52 and its product with 1.5 are exact in
    [double], and a larger count passes both tests. *)
Definition load_exceeded (nentries size : Z) : bool := 2 * size <=? 3 * nentries.

Definition HASHMAP_INIT_SIZE : Z := 10.

(** [ref_eq]: [a == b]. *)
Definition ref_eq (a b : ptr) : Z := if a =? b then 1 else 0.

(** [addr_hash]: [(int)((unsigned long) key)]. *)
Definition addr_hash (key : ptr) : Z := cast_int (cast_size_t key).

(** [arr[i]] for an [int] or [size_t] index [i]: reading outside the array
    is undefined. *)
Definition read {A} (arr : list A) (i : Z) : outcome A :=
  if i <? 0 then Undef
  else match arr !! Z.to_nat i with
       | Some x => Ret x
       | None => Undef
       end.

(** [arr[i] = x]. *)
Definition write {A} (arr : list A) (i : Z) (x : A) : outcome (list A) :=
  if i <? 0 then Undef
  else if i <? Z.of_nat (length arr) then Ret (<[Z.to_nat i := x]> arr)
  else Undef.

(** [hash % size] with [hash] an [int] and [size] a [size_t]: the usual
    arithmetic conversions turn [hash] into a [size_t], the remainder is
    unsigned, and the function returns it as an [int]. *)
Definition c_compress (size hash : Z) : outcome Z :=
  if size =? 0 then Undef
  else Ret (cast_int (cast_size_t hash mod size)).

(** ** Strings and [int] arithmetic of the string utilities *)

(** An [int] operation whose mathematical result [x] does not fit the type
    is undefined. *)
Definition int_result (x : Z) : outcome Z :=
  if (INT_MIN <=? x) && (x <=? INT_MAX) then Ret x else Undef.

Definition int_add (a b : Z) : outcome Z := int_result (a + b).
Definition int_sub (a b : Z) : outcome Z := int_result (a - b).
Definition int_mul (a b : Z) : outcome Z := int_result (a * b).

(** [a << n] on [int]: undefined for a negative [a] and when [a * 2^n] does
    not fit (C99 6.5.7). *)
Definition int_shl (a n : Z) : outcome Z :=
  if a <? 0 then Undef else int_result (a * 2 ^ n).

(** A [char] is a signed byte, as gcc has it on x86-64.  The memory behind
    the [char *] keys is a map from an address to the characters of the
    null-terminated string that starts there, terminator left out; it is
    [None] where no string can be read. *)
Definition CHAR_MIN : Z := -128.
Definition CHAR_MAX : Z := 127.

Definition memory : Type := ptr → option (list Z).

Definition is_char (c : Z) : Prop := CHAR_MIN ≤ c ≤ CHAR_MAX ∧ c ≠ 0.

(** The strings of [m] are made of characters other than the terminator. *)
Definition valid_memory (m : memory) : Prop :=
  ∀ p s, m p = Some s → Forall is_char s.

(** Reading the string at [p]; dereferencing [NULL] is undefined. *)
Definition read_string (m : memory) (p : ptr) : outcome (list Z) :=
  if p =? NULL then Undef
  else match m p with
       | Some s => Ret s
       | None => Undef
       end.

(** [strcmp] of the C library: zero for equal strings, otherwise the
    difference of the first two characters that differ, taken as
    [unsigned char]. *)
Definition uchar (c : Z) : Z := c mod 256.

Fixpoint strcmp (a b : list Z) : Z :=
  match a, b with
  | [], [] => 0
  | [], y :: _ => 0 - uchar y
  | x :: _, [] => uchar x - 0
  | x :: a', y :: b' => if x =? y then strcmp a' b' else uchar x - uchar y
  end.

(** The [while] loop of [hashmap_str_hash] over the characters that are
    left, with the current values of [hash] and [exp]. *)
Fixpoint str_hash_loop (str : list Z) (hash exp : Z) : outcome Z :=
  match str with
  | [] => Ret hash
  | cur :: str' =>
    term ← int_mul cur exp;
    hash' ← int_add hash term;
    shifted ← int_shl exp 5;
    exp' ← int_sub shifted exp;
    str_hash_loop str' hash' exp'
  end.

(** The sum of [c_i * 31^i] over the characters of a string. *)
Fixpoint poly31 (s : list Z) : Z :=
  match s with
  | [] => 0
  | c :: s' => c + 31 * poly31 s'
  end.

(** ** The open-addressing table ([src/unnamed/part_001]) *)

Module OpenAddr.

Inductive entry_state_t : Type := EMPTY | DELETED | ACTIVE.

Record hm_entry_t : Type := mk_entry {
  key : ptr;
  value : ptr;
  state : entry_state_t
}.

Record hashmap : Type := mk_hashmap {
  size : Z;
  nentries : Z;
  backing : list hm_entry_t;
  hashcode : ptr → Z;
  equals : ptr → ptr → Z
}.

Definition is_active (e : hm_entry_t) : bool :=
  match state e with ACTIVE => true | _ => false end.

Definition is_empty (e : hm_entry_t) : bool :=
  match state e with EMPTY => true | _ => false end.

(** What [calloc] hands out: all bytes zero. *)
Definition zero_entry : hm_entry_t := mk_entry NULL NULL EMPTY.

Definition set_backing (self : hashmap) (b : list hm_entry_t) : hashmap :=
  mk_hashmap (size self) (nentries self) b (hashcode self) (equals self).

Definition set_nentries (self : hashmap) (n : Z) : hashmap :=
  mk_hashmap (size self) n (backing self) (hashcode self) (equals self).

(** The hash function returns an [int]. *)
Definition hash_of (self : hashmap) (k : ptr) : Z := cast_int (hashcode self k).

Definition compress (hm : hashmap) (hash : Z) : outcome Z :=
  c_compress (size hm) hash.

(** [(index + 1) % hm->size]: the addition is done in [int]. *)
Definition update_index (hm : hashmap) (index : Z) : outcome Z :=
  if INT_MAX <? index + 1 then Undef
  else c_compress (size hm) (index + 1).

(** The [while] loop of [add_entry].  [None] stands for a [return 0] from
    inside the loop, [Some index] for leaving the loop at [index]. *)
Fixpoint add_entry_loop (fuel : nat) (self : hashmap) (entry : hm_entry_t)
    (index_cycle_flag index : Z) (cur : hm_entry_t) : outcome (option Z) :=
  match fuel with
  | O => Timeout
  | S fuel' =>
    if is_active cur then
      if truthy (equals self (key cur) (key entry)) then Ret None
      else
        index' ← update_index self index;
        cur' ← read (backing self) index';
        if index' =? index_cycle_flag then Ret None
        else add_entry_loop fuel' self entry index_cycle_flag index' cur'
    else Ret (Some index)
  end.

(** A probe comes back to its start after [size] steps at the latest. *)
Definition probe_fuel (self : hashmap) : nat := S (Z.to_nat (size self)).

Definition add_entry (self : hashmap) (entry : hm_entry_t) : outcome (hashmap * Z) :=
  index ← compress self (hash_of self (key entry));
  cur ← read (backing self) index;
  r ← add_entry_loop (probe_fuel self) self entry index index cur;
  match r with
  | None => Ret (self, 0)
  | Some index' =>
    (* [cur.state = ACTIVE] then writes to the local copy only *)
    b ← write (backing self) index' entry;
    Ret (set_backing self b, 1)
  end.

(** The [for] loop of [resize] from index [i], [n] iterations left; the
    result of [add_entry] is dropped. *)
Fixpoint rehash_loop (old : list hm_entry_t) (n : nat) (i : Z) (self : hashmap)
    : outcome hashmap :=
  match n with
  | O => Ret self
  | S n' =>
    cur ← read old i;
    self' ← (if is_active cur
             then '(s, _) ← add_entry self cur; Ret s
             else Ret self);
    rehash_loop old n' (i + 1) self'
  end.

(** [calloc_ok] tells whether [calloc] returned memory. *)
Definition resize (self : hashmap) (new_size : Z) (calloc_ok : bool)
    : outcome (hashmap * Z) :=
  if calloc_ok then
    let resized := replicate (Z.to_nat new_size) zero_entry in
    let old := backing self in
    let old_size := size self in
    let self1 := mk_hashmap new_size (nentries self) resized
                            (hashcode self) (equals self) in
    self2 ← rehash_loop old (Z.to_nat old_size) 0 self1;
    Ret (self2, 1)
  else Ret (self, 0).

(** The [while] loop of [find_entry]; [None] is the [NULL] result, [Some i]
    the address of [backing[i]]. *)
Fixpoint find_entry_loop (fuel : nat) (self : hashmap) (k : ptr)
    (index_cycle_flag i : Z) (cur : hm_entry_t) : outcome (option Z) :=
  match fuel with
  | O => Timeout
  | S fuel' =>
    if negb (is_active cur) || negb (truthy (equals self (key cur) k)) then
      if is_empty cur then Ret None
      else
        i' ← update_index self i;
        cur' ← read (backing self) i';
        if i' =? index_cycle_flag then Ret None
        else find_entry_loop fuel' self k index_cycle_flag i' cur'
    else Ret (Some i)
  end.

Definition find_entry (self : hashmap) (k : ptr) : outcome (option Z) :=
  i ← compress self (hash_of self k);
  cur ← read (backing self) i;
  find_entry_loop (probe_fuel self) self k i i cur.

(** [hashmap_init]; the boolean is false for the [NULL] result. *)
Definition hashmap_init (self : hashmap)
    (hash_func : option (ptr → Z)) (equals_func : option (ptr → ptr → Z))
    (calloc_ok : bool) : hashmap * bool :=
  if calloc_ok then
    (mk_hashmap HASHMAP_INIT_SIZE 0
       (replicate (Z.to_nat HASHMAP_INIT_SIZE) zero_entry)
       (default addr_hash hash_func) (default ref_eq equals_func), true)
  else (self, false).

(** [hashmap_new]; [fresh] is the content of the block [malloc] returned. *)
Definition hashmap_new (hash_func : option (ptr → Z))
    (equals_func : option (ptr → ptr → Z))
    (fresh : hashmap) (malloc_ok calloc_ok : bool) : option hashmap :=
  if malloc_ok then Some (fst (hashmap_init fresh hash_func equals_func calloc_ok))
  else None.

(** [hashmap_add] from the declaration of [pair] on. *)
Definition add_pair (self : hashmap) (k v : ptr) : outcome (hashmap * Z) :=
  let pair := mk_entry k v ACTIVE in
  '(self', added) ← add_entry self pair;
  if added =? 0 then Ret (self', 0)
  else Ret (set_nentries self' (cast_size_t (nentries self' + 1)), 1).

Definition hashmap_add (self : hashmap) (k v : ptr) (calloc_ok : bool)
    : outcome (hashmap * Z) :=
  if load_exceeded (nentries self) (size self) then
    '(self', resized) ← resize self (cast_size_t (size self * 2)) calloc_ok;
    if resized =? 0 then Ret (self', 0)
    else add_pair self' k v
  else add_pair self k v.

Definition hashmap_remove (self : hashmap) (k : ptr) : outcome (hashmap * ptr) :=
  cur ← find_entry self k;
  match cur with
  | None => Ret (self, NULL)
  | Some i =>
    e ← read (backing self) i;
    if is_empty e then Ret (self, NULL)
    else
      let retval := value e in
      b ← write (backing self) i (mk_entry (key e) (value e) DELETED);
      Ret (set_nentries (set_backing self b) (cast_size_t (nentries self - 1)),
           retval)
  end.

Definition hashmap_get (self : hashmap) (k : ptr) : outcome ptr :=
  cur ← find_entry self k;
  match cur with
  | None => Ret NULL
  | Some i =>
    e ← read (backing self) i;
    Ret (if is_active e then value e else NULL)
  end.

Definition hashmap_contains (self : hashmap) (k : ptr) : outcome Z :=
  v ← hashmap_get self k;
  Ret (if v =? NULL then 0 else 1).

(** [hashmap_clear]: the backing array is freed, then [hashmap_init] runs;
    when its [calloc] fails the table keeps the dangling array, which no
    access may touch. *)
Definition hashmap_clear (self : hashmap) (calloc_ok : bool) : hashmap :=
  fst (hashmap_init (set_backing self [])
         (Some (hashcode self)) (Some (equals self)) calloc_ok).

Definition hashmap_size (self : hashmap) : Z := nentries self.

(** [hashmap_str_hash]: a [NULL] key hashes to 0. *)
Definition hashmap_str_hash (m : memory) (key : ptr) : outcome Z :=
  if key =? NULL then Ret 0
  else str ← read_string m key; str_hash_loop str 0 1.

(** [hashmap_str_eq]: the pointers are compared before [strcmp] runs. *)
Definition hashmap_str_eq (m : memory) (str1 str2 : ptr) : outcome Z :=
  if str1 =? str2 then Ret 1
  else if (str1 =? NULL) || (str2 =? NULL) then Ret 0
  else
    a ← read_string m str1;
    b ← read_string m str2;
    Ret (if strcmp a b =? 0 then 1 else 0).

(** *** Vocabulary of the properties *)

(** The [ACTIVE] entries and their number. *)
Definition live_entries (self : hashmap) : list hm_entry_t :=
  filter (λ e, is_active e = true) (backing self).

Definition live_count (self : hashmap) : Z :=
  Z.of_nat (length (live_entries self)).

(** The first slot of the probe of key [k], as a number. *)
Definition home (self : hashmap) (k : ptr) : Z :=
  cast_size_t (hash_of self k) mod size self.

(** The slot [d] steps after [h] on a probe. *)
Definition probe (self : hashmap) (h d : Z) : Z := (h + d) mod size self.

(** The content of slot [i]. *)
Definition slot (self : hashmap) (i : Z) : hm_entry_t :=
  default zero_entry (backing self !! Z.to_nat i).

(** The array has [size] cells and [index + 1] never overflows an [int]. *)
Definition well_sized (self : hashmap) : Prop :=
  0 < size self ≤ INT_MAX ∧ Z.of_nat (length (backing self)) = size self.

(** [equals] is an equivalence on keys and equal keys have equal hashes. *)
Definition good_keys (self : hashmap) : Prop :=
  (∀ a, truthy (equals self a a) = true) ∧
  (∀ a b, truthy (equals self a b) = true → truthy (equals self b a) = true) ∧
  (∀ a b c, truthy (equals self a b) = true → truthy (equals self b c) = true →
            truthy (equals self a c) = true) ∧
  (∀ a b, truthy (equals self a b) = true → hash_of self a = hash_of self b).

(** The insertion probe of key [k] goes on past the entry [e]. *)
Definition passes_add (self : hashmap) (k : ptr) (e : hm_entry_t) : bool :=
  is_active e && negb (truthy (equals self (key e) k)).

(** The lookup probe of key [k] goes on past the entry [e]. *)
Definition passes_find (self : hashmap) (k : ptr) (e : hm_entry_t) : bool :=
  (negb (is_active e) || negb (truthy (equals self (key e) k)))
  && negb (is_empty e).

(** The entry [e] is live and its key matches [k]. *)
Definition matches (self : hashmap) (k : ptr) (e : hm_entry_t) : bool :=
  is_active e && truthy (equals self (key e) k).

(** Executable checks of [no_duplicate_live] and [reachable_live]. *)
Definition clash (self : hashmap) (e e' : hm_entry_t) : bool :=
  is_active e && is_active e' && truthy (equals self (key e) (key e')).

Fixpoint no_duplicate_liveb (self : hashmap) (l : list hm_entry_t) : bool :=
  match l with
  | [] => true
  | e :: l' =>
    forallb (λ e', negb (clash self e e') && negb (clash self e' e)) l'
    && no_duplicate_liveb self l'
  end.

Definition reachable_liveb (self : hashmap) : bool :=
  forallb (λ h,
    forallb (λ n,
      let e := slot self (probe self h n) in
      negb (is_active e && (home self (key e) =? h))
      || forallb (λ j, negb (is_empty (slot self (probe self h j))))
                 (seqZ 0 n))
      (seqZ 0 (size self)))
    (seqZ 0 (size self)).

(** A tombstone lies on the probe of [k] before slot [i]. *)
Definition tombstone_before (self : hashmap) (k : ptr) (i : Z) : Prop :=
  ∃ j, 0 ≤ j < (i - home self k) mod size self ∧
       state (slot self (probe self (home self k) j)) = DELETED.

(** Sequences of public calls, every allocation succeeding. *)
Inductive op : Type :=
| Add (k v : ptr)
| Remove (k : ptr)
| Clear.

Definition step (t : hashmap) (o : op) : outcome hashmap :=
  match o with
  | Add k v => '(t', _) ← hashmap_add t k v true; Ret t'
  | Remove k => '(t', _) ← hashmap_remove t k; Ret t'
  | Clear => Ret (hashmap_clear t true)
  end.

Fixpoint run (ops : list op) (t : hashmap) : outcome hashmap :=
  match ops with
  | [] => Ret t
  | o :: rest => t' ← step t o; run rest t'
  end.

(** The slot [i] holds a live entry [e]. *)
Definition live_at (self : hashmap) (i : nat) (e : hm_entry_t) : Prop :=
  backing self !! i = Some e ∧ is_active e = true.

(** No two live entries have keys the table's [equals] identifies. *)
Definition no_duplicate_live (self : hashmap) : Prop :=
  ∀ i j e1 e2, i ≠ j → live_at self i e1 → live_at self j e2 →
    truthy (equals self (key e1) (key e2)) = false.

(** No slot is a tombstone. *)
Definition tombstone_free (self : hashmap) : Prop :=
  ∀ i, 0 ≤ i < size self → state (slot self i) ≠ DELETED.

(** No [EMPTY] slot lies between the first slot of a live entry's probe and
    the entry. *)
Definition reachable_live (self : hashmap) : Prop :=
  ∀ h n, 0 ≤ h < size self → 0 ≤ n < size self →
    is_active (slot self (probe self h n)) = true →
    home self (key (slot self (probe self h n))) = h →
    ∀ j, 0 ≤ j < n → is_empty (slot self (probe self h j)) = false.

Definition wf (self : hashmap) : Prop :=
  well_sized self ∧ good_keys self ∧ no_duplicate_live self ∧
  reachable_live self.

(** A live slot holds a key that [equals] identifies with [k]. *)
Definition present (self : hashmap) (k : ptr) : Prop :=
  ∃ i, 0 ≤ i < size self ∧ matches self k (slot self i) = true.

(** The table [s] holds the live entries of the slots [0 .. m - 1] of [t],
    as the loop of [resize] builds it. *)
Definition rehashed (t s : hashmap) (m : Z) : Prop :=
  well_sized s ∧ hashcode s = hashcode t ∧ equals s = equals t ∧
  nentries s = nentries t ∧
  tombstone_free s ∧ reachable_live s ∧ no_duplicate_live s ∧
  Z.of_nat (length (live_entries s)) ≤ m ∧
  ∀ e, (∃ i, 0 ≤ i < size s ∧ slot s i = e ∧ is_active e = true) ↔
       (∃ j, 0 ≤ j < m ∧ j < size t ∧ slot t j = e ∧ is_active e = true).

End OpenAddr.

(** ** The chaining table (first listing of [src/hashmap.c]) *)

Module Chained.

(** A node; its [next] pointer is the tail of the list it heads. *)
Record hm_entry_t : Type := mk_entry {
  key : ptr;
  value : ptr
}.

Record hashmap : Type := mk_hashmap {
  size : Z;
  nentries : Z;
  backing : list (list hm_entry_t);
  hashcode : ptr → Z;
  equals : ptr → ptr → Z
}.

Definition set_backing (self : hashmap) (b : list (list hm_entry_t)) : hashmap :=
  mk_hashmap (size self) (nentries self) b (hashcode self) (equals self).

Definition set_nentries (self : hashmap) (n : Z) : hashmap :=
  mk_hashmap (size self) n (backing self) (hashcode self) (equals self).

Definition hash_of (self : hashmap) (k : ptr) : Z := cast_int (hashcode self k).

Definition compress (hm : hashmap) (hash : Z) : outcome Z :=
  c_compress (size hm) hash.

(** [add_entry]: the node becomes the head of its bucket.  ([entry] is never
    [NULL] where the file calls it.) *)
Definition add_entry (self : hashmap) (entry : hm_entry_t) : outcome hashmap :=
  index ← compress self (hash_of self (key entry));
  bucket ← read (backing self) index;
  b ← write (backing self) index (entry :: bucket);
  Ret (set_backing self b).

(** The inner [while (cur)] loop of [resize]. *)
Fixpoint rehash_bucket (cur : list hm_entry_t) (self : hashmap) : outcome hashmap :=
  match cur with
  | [] => Ret self
  | e :: next => self' ← add_entry self e; rehash_bucket next self'
  end.

(** The outer [for] loop of [resize] from index [i], [n] iterations left. *)
Fixpoint rehash_loop (old : list (list hm_entry_t)) (n : nat) (i : Z)
    (self : hashmap) : outcome hashmap :=
  match n with
  | O => Ret self
  | S n' =>
    cur ← read old i;
    self' ← rehash_bucket cur self;
    rehash_loop old n' (i + 1) self'
  end.

Definition resize (self : hashmap) (new_size : Z) (calloc_ok : bool)
    : outcome (hashmap * Z) :=
  if calloc_ok then
    let resized := replicate (Z.to_nat new_size) [] in
    let old := backing self in
    let old_size := size self in
    let self1 := mk_hashmap new_size (nentries self) resized
                            (hashcode self) (equals self) in
    self2 ← rehash_loop old (Z.to_nat old_size) 0 self1;
    Ret (self2, 1)
  else Ret (self, 0).

Definition hashmap_init (self : hashmap)
    (hash_func : option (ptr → Z)) (equals_func : option (ptr → ptr → Z))
    (calloc_ok : bool) : hashmap * bool :=
  if calloc_ok then
    (mk_hashmap HASHMAP_INIT_SIZE 0
       (replicate (Z.to_nat HASHMAP_INIT_SIZE) [])
       (default addr_hash hash_func) (default ref_eq equals_func), true)
  else (self, false).

Definition hashmap_new (hash_func : option (ptr → Z))
    (equals_func : option (ptr → ptr → Z))
    (fresh : hashmap) (malloc_ok calloc_ok : bool) : option hashmap :=
  if malloc_ok then Some (fst (hashmap_init fresh hash_func equals_func calloc_ok))
  else None.

(** [while (cur && !self->equals(cur->key, key)) cur = cur->next;]
    The result is the list from the node the loop stops at, [[]] for [NULL]. *)
Fixpoint scan (self : hashmap) (cur : list hm_entry_t) (k : ptr)
    : list hm_entry_t :=
  match cur with
  | [] => []
  | e :: next =>
    if truthy (equals self (key e) k) then cur else scan self next k
  end.

(** [hashmap_add] from the computation of [index] on; [malloc_ok] tells
    whether [malloc] returned a node. *)
Definition add_pair (self : hashmap) (k v : ptr) (malloc_ok : bool)
    : outcome (hashmap * Z) :=
  index ← compress self (hash_of self k);
  bucket ← read (backing self) index;
  match scan self bucket k with
  | _ :: _ => Ret (self, 0)
  | [] =>
    if malloc_ok then
      self' ← add_entry self (mk_entry k v);
      Ret (set_nentries self' (cast_size_t (nentries self' + 1)), 1)
    else Ret (self, 0)
  end.

(** [self] is never [NULL] in the model. *)
Definition hashmap_add (self : hashmap) (k v : ptr) (calloc_ok malloc_ok : bool)
    : outcome (hashmap * Z) :=
  if load_exceeded (nentries self) (size self) then
    '(self', resized) ← resize self (cast_size_t (size self * 2)) calloc_ok;
    if resized =? 0 then Ret (self', 0)
    else add_pair self' k v malloc_ok
  else add_pair self k v malloc_ok.

(** The walk of [hashmap_remove] with [cur] a pointer to a [next] field:
    the value of the first matching node and the list without it. *)
Fixpoint unlink (self : hashmap) (cur : list hm_entry_t) (k : ptr)
    : option (ptr * list hm_entry_t) :=
  match cur with
  | [] => None
  | e :: next =>
    if truthy (equals self (key e) k) then Some (value e, next)
    else '(v, next') ← unlink self next k; Some (v, e :: next')
  end.

Definition hashmap_remove (self : hashmap) (k : ptr) : outcome (hashmap * ptr) :=
  index ← compress self (hash_of self k);
  bucket ← read (backing self) index;
  match unlink self bucket k with
  | None => Ret (self, NULL)
  | Some (retval, bucket') =>
    b ← write (backing self) index bucket';
    Ret (set_nentries (set_backing self b) (cast_size_t (nentries self - 1)),
         retval)
  end.

Definition hashmap_get (self : hashmap) (k : ptr) : outcome ptr :=
  i ← compress self (hash_of self k);
  bucket ← read (backing self) i;
  Ret (match scan self bucket k with
       | cur :: _ => value cur
       | [] => NULL
       end).

Definition hashmap_contains (self : hashmap) (k : ptr) : outcome Z :=
  v ← hashmap_get self k;
  Ret (if v =? NULL then 0 else 1).

Definition hashmap_clear (self : hashmap) (calloc_ok : bool) : hashmap :=
  fst (hashmap_init (set_backing self [])
         (Some (hashcode self)) (Some (equals self)) calloc_ok).

Definition hashmap_size (self : hashmap) : Z := nentries self.

(** [hashmap_str_hash] and [hashmap_str_eq] of this listing read the
    strings without looking at the pointers. *)
Definition hashmap_str_hash (m : memory) (key : ptr) : outcome Z :=
  str ← read_string m key; str_hash_loop str 0 1.

Definition hashmap_str_eq (m : memory) (str1 str2 : ptr) : outcome Z :=
  a ← read_string m str1;
  b ← read_string m str2;
  Ret (if strcmp a b =? 0 then 1 else 0).

(** *** Vocabulary of the properties *)

(** All nodes reachable from the buckets. *)
Definition nodes (self : hashmap) : list hm_entry_t := concat (backing self).

Definition live_count (self : hashmap) : Z := Z.of_nat (length (nodes self)).

(** The bucket index of key [k], as a number. *)
Definition home (self : hashmap) (k : ptr) : Z :=
  cast_size_t (hash_of self k) mod size self.

(** The array has [size] cells and [int] indexes reach all of them. *)
Definition well_sized (self : hashmap) : Prop :=
  0 < size self ≤ 2 ^ 31 ∧ Z.of_nat (length (backing self)) = size self.

(** [equals] is an equivalence on keys and equal keys have equal hashes. *)
Definition good_keys (self : hashmap) : Prop :=
  (∀ a, truthy (equals self a a) = true) ∧
  (∀ a b, truthy (equals self a b) = true → truthy (equals self b a) = true) ∧
  (∀ a b c, truthy (equals self a b) = true → truthy (equals self b c) = true →
            truthy (equals self a c) = true) ∧
  (∀ a b, truthy (equals self a b) = true → hash_of self a = hash_of self b).

(** Every node of the bucket array [bs] sits in the bucket of its key. *)
Definition placed_in (self : hashmap) (bs : list (list hm_entry_t)) : Prop :=
  ∀ i b e, bs !! i = Some b → e ∈ b → home self (key e) = Z.of_nat i.

Definition placed (self : hashmap) : Prop := placed_in self (backing self).

(** No two nodes of [l] have keys that [equals] identifies. *)
Fixpoint distinct_keys (self : hashmap) (l : list hm_entry_t) : Prop :=
  match l with
  | [] => True
  | e :: l' =>
    (∀ e', e' ∈ l' → truthy (equals self (key e) (key e')) = false) ∧
    distinct_keys self l'
  end.

(** The value of the first node of [l] whose key matches [k]. *)
Definition first_value (self : hashmap) (l : list hm_entry_t) (k : ptr) : ptr :=
  match scan self l k with
  | cur :: _ => value cur
  | [] => NULL
  end.

(** Some node has a key that [equals] identifies with [k]. *)
Definition present (self : hashmap) (k : ptr) : Prop :=
  ∃ e, e ∈ nodes self ∧ truthy (equals self (key e) k) = true.

Definition wf (self : hashmap) : Prop :=
  well_sized self ∧ good_keys self ∧ placed self ∧
  distinct_keys self (nodes self) ∧ nentries self = live_count self.

(** Executable checks of [placed_in] (for the buckets from index [i] on)
    and of [distinct_keys]. *)
Fixpoint placed_from (self : hashmap) (i : nat) (bs : list (list hm_entry_t))
    : bool :=
  match bs with
  | [] => true
  | b :: bs' =>
    forallb (λ e, home self (key e) =? Z.of_nat i) b
    && placed_from self (S i) bs'
  end.

Fixpoint distinct_keysb (self : hashmap) (l : list hm_entry_t) : bool :=
  match l with
  | [] => true
  | e :: l' =>
    forallb (λ e', negb (truthy (equals self (key e) (key e')))) l'
    && distinct_keysb self l'
  end.

(** Sequences of public calls, every allocation succeeding. *)
Inductive op : Type :=
| Add (k v : ptr)
| Remove (k : ptr)
| Clear.

Definition step (t : hashmap) (o : op) : outcome hashmap :=
  match o with
  | Add k v => '(t', _) ← hashmap_add t k v true true; Ret t'
  | Remove k => '(t', _) ← hashmap_remove t k; Ret t'
  | Clear => Ret (hashmap_clear t true)
  end.

Fixpoint run (ops : list op) (t : hashmap) : outcome hashmap :=
  match ops with
  | [] => Ret t
  | o :: rest => t' ← step t o; run rest t'
  end.

End Chained.

(** ** The draft of the chaining table (second listing of [src/hashmap.c])

    The draft has the structures of [Chained] (its [del] callback is stored
    and never called, and is left out); [hashmap_get] and
    [hashmap_contains] are those of [Chained] line for line. *)

Module ChainedDraft.
Import Chained.

(** [fresh] is the content of the node [malloc] returned: the draft links
    the node without assigning its [key] and [value]. *)
Definition hashmap_add (self : hashmap) (k v : ptr) (malloc_ok : bool)
    (fresh : hm_entry_t) : outcome (hashmap * Z) :=
  if (k =? NULL) || (v =? NULL) then Ret (self, 0)
  else
    index ← compress self (hash_of self k);
    if malloc_ok then
      bucket ← read (backing self) index;
      b ← write (backing self) index (fresh :: bucket);
      Ret (set_nentries (set_backing self b) (cast_size_t (nentries self + 1)), 1)
    else Ret (self, 0).

Definition hashmap_remove (self : hashmap) (k : ptr) : outcome (hashmap * ptr) :=
  if k =? NULL then Ret (self, NULL)
  else Chained.hashmap_remove self k.

End ChainedDraft.

(** ** Concrete tables and call sequences *)

(** Callbacks a caller may pass to [hashmap_new]: keys of the same parity
    are the same key. *)
Definition parity_hash (key : ptr) : Z := key mod 2.
Definition parity_eq (a b : ptr) : Z := if a mod 2 =? b mod 2 then 1 else 0.

Module OpenAddrRuns.
Import OpenAddr.

(** The table [hashmap_new(NULL, NULL)] builds. *)
Definition default_table : hashmap :=
  mk_hashmap 10 0 (replicate 10 zero_entry) addr_hash ref_eq.

(** Keys 10 and 20 share slot 0 of the default table; once 10 is removed,
    a second [hashmap_add] of 20 lands in the freed slot although 20 is
    still stored in slot 1. *)
Definition collide_ops : list op := [Add 10 1; Add 20 2; Remove 10].

Definition reinsert_ops : list op := collide_ops ++ [Add 20 3].

Definition fill_ops : list op :=
  [Add 2 2; Add 3 3; Add 4 4; Add 5 5; Add 6 6].

(** The calls of [test_add_int] in [hashmap_tests.c]. *)
Definition test_add_int_ops : list op :=
  [Clear; Add 10 0xCAFE; Add 12 0xBABE; Add 20 0xDEAD].

(** The same with keys 9 and 19, whose probe wraps around the array. *)
Definition wrap_ops : list op :=
  [Add 9 1; Add 19 2; Remove 9; Add 19 3].

(** The default table after seven insertions: the next one resizes. *)
Definition loaded_table : hashmap :=
  mk_hashmap 10 7
    (zero_entry :: map (λ k, mk_entry k k ACTIVE) [1; 2; 3; 4; 5; 6; 7]
     ++ [zero_entry; zero_entry])
    addr_hash ref_eq.

(** A table that maps key 10 to [NULL]. *)
Definition null_table : hashmap :=
  mk_hashmap 10 1 (mk_entry 10 NULL ACTIVE :: replicate 9 zero_entry)
    addr_hash ref_eq.

(** A table of two slots, both live. *)
Definition full_table : hashmap :=
  mk_hashmap 2 2 [mk_entry 2 2 ACTIVE; mk_entry 3 3 ACTIVE] addr_hash ref_eq.

(** Key 20 behind the tombstone that the removal of key 10 left. *)
Definition tombstone_table : hashmap :=
  mk_hashmap 10 1
    (mk_entry 10 1 DELETED :: mk_entry 20 2 ACTIVE :: replicate 8 zero_entry)
    addr_hash ref_eq.

(** The default table after six insertions: the next one does not resize. *)
Definition below_table : hashmap :=
  mk_hashmap 10 6
    (zero_entry :: map (λ k, mk_entry k k ACTIVE) [1; 2; 3; 4; 5; 6]
     ++ [zero_entry; zero_entry; zero_entry])
    addr_hash ref_eq.

(** Key 20, mapped to [NULL], one slot behind key 10 on the same probe. *)
Definition null_behind_table : hashmap :=
  mk_hashmap 10 2
    (mk_entry 10 5 ACTIVE :: mk_entry 20 NULL ACTIVE :: replicate 8 zero_entry)
    addr_hash ref_eq.

(** A table with the parity callbacks that maps key 3 to 7. *)
Definition parity_table : hashmap :=
  mk_hashmap 10 1
    (zero_entry :: mk_entry 3 7 ACTIVE :: replicate 8 zero_entry)
    parity_hash parity_eq.

End OpenAddrRuns.

(** ** Strings in memory *)

Module StringRuns.

(** The codes of the characters of "key", "keys" and "hashmaps". *)
Definition key_chars : list Z := [107; 101; 121].
Definition keys_chars : list Z := [107; 101; 121; 115].
Definition hashmaps_chars : list Z := [104; 97; 115; 104; 109; 97; 112; 115].

(** A memory with "key" at the addresses 16 and 32, "keys" at 48 and
    "hashmaps" at 64. *)
Definition sample_memory : memory := λ p,
  if p =? 16 then Some key_chars
  else if p =? 32 then Some key_chars
  else if p =? 48 then Some keys_chars
  else if p =? 64 then Some hashmaps_chars
  else None.

End StringRuns.

Module ChainedRuns.
Import Chained.

Definition default_table : hashmap :=
  mk_hashmap 10 0 (replicate 10 []) addr_hash ref_eq.

(** The calls of [test_add_int] in [hashmap_tests.c]. *)
Definition test_add_int_ops : list op :=
  [Clear; Add 10 0xCAFE; Add 12 0xBABE; Add 20 0xDEAD].

Definition load_ops : list op :=
  [Add 1 1; Add 2 2; Add 3 3; Add 4 4; Add 5 5; Add 6 6; Add 7 7].

(** The default table after seven insertions: the next one resizes. *)
Definition loaded_table : hashmap :=
  mk_hashmap 10 7
    ([] :: map (λ k, [mk_entry k k]) [1; 2; 3; 4; 5; 6; 7] ++ [[]; []])
    addr_hash ref_eq.

(** A table that maps key 10 to [NULL]. *)
Definition null_table : hashmap :=
  mk_hashmap 10 1 ([mk_entry 10 NULL] :: replicate 9 []) addr_hash ref_eq.

(** The default table after six insertions: the next one does not resize. *)
Definition below_table : hashmap :=
  mk_hashmap 10 6
    ([] :: map (λ k, [mk_entry k k]) [1; 2; 3; 4; 5; 6] ++ [[]; []; []])
    addr_hash ref_eq.

(** Key 20, mapped to [NULL], behind key 10 in the same bucket. *)
Definition null_behind_table : hashmap :=
  mk_hashmap 10 2
    ([mk_entry 10 5; mk_entry 20 NULL] :: replicate 9 [])
    addr_hash ref_eq.

(** A table with the parity callbacks that maps key 3 to 7. *)
Definition parity_table : hashmap :=
  mk_hashmap 10 1 ([] :: [mk_entry 3 7] :: replicate 8 [])
    parity_hash parity_eq.

End ChainedRuns.

(** [compress] returns and its result indexes an array of [size] cells. *)
Definition compress_in_range (size hash : Z) : Prop :=
  ∃ i, c_compress size hash = Ret i ∧ 0 ≤ i < size.


(** * Properties *)

(** ** Integer conversions and [compress] *)

Lemma cast_int_small (x : Z) : - 2 ^ 31 ≤ x < 2 ^ 31 → cast_int x = x.
Proof.
  intros Hx. unfold cast_int.
  rewrite Z.mod_small by lia. lia.
Qed.

Lemma cast_size_t_small (x : Z) : 0 ≤ x < 2 ^ 64 → cast_size_t x = x.
Proof. intros Hx. unfold cast_size_t. now rewrite Z.mod_small. Qed.

Lemma c_compress_range (size hash : Z) :
  0 < size ≤ 2 ^ 31 → compress_in_range size hash.
Proof.
  intros [Hpos Hle]. unfold compress_in_range, c_compress.
  destruct (Z.eqb_spec size 0) as [->|_]; [lia|].
  pose proof (Z.mod_pos_bound (cast_size_t hash) size Hpos) as Hm.
  eexists. split; [reflexivity|].
  rewrite cast_int_small; lia.
Qed.


(** ** Sequencing *)

Lemma bind_ret_inv {A B} (m : outcome A) (f : A → outcome B) (b : B) :
  m ≫= f = Ret b → ∃ a, m = Ret a ∧ f a = Ret b.
Proof. destruct m as [a| |]; [|discriminate..]. intros H. now exists a. Qed.

Lemma bind_Ret {A B} (a : A) (f : A → outcome B) : Ret a ≫= f = f a.
Proof. reflexivity. Qed.

(** ** Arrays *)

Lemma read_ret {A} (arr : list A) (i : Z) (x : A) :
  read arr i = Ret x ↔ 0 ≤ i ∧ arr !! Z.to_nat i = Some x.
Proof.
  unfold read. destruct (Z.ltb_spec i 0).
  - split; [discriminate|lia].
  - destruct (arr !! Z.to_nat i) as [y|]; split.
    + intros [= ->]. auto.
    + intros [_ [= ->]]. reflexivity.
    + discriminate.
    + intros [_ [=]].
Qed.

Lemma read_in_range {A} (arr : list A) (i : Z) :
  0 ≤ i < Z.of_nat (length arr) → ∃ x, read arr i = Ret x.
Proof.
  intros Hi. destruct (lookup_lt_is_Some_2 arr (Z.to_nat i)) as [x Hx]; [lia|].
  exists x. apply read_ret. split; [lia|assumption].
Qed.

Lemma write_in_range {A} (arr : list A) (i : Z) (x : A) :
  0 ≤ i < Z.of_nat (length arr) →
  write arr i x = Ret (<[Z.to_nat i := x]> arr).
Proof.
  intros Hi. unfold write.
  destruct (Z.ltb_spec i 0); [lia|].
  destruct (Z.ltb_spec i (Z.of_nat (length arr))); [reflexivity|lia].
Qed.

Lemma concat_insert_cons {A} (l : list (list A)) (i : nat) (b : list A) (x : A) :
  l !! i = Some b → concat (<[i := x :: b]> l) ≡ₚ x :: concat l.
Proof.
  intros Hb.
  rewrite insert_take_drop by (eapply lookup_lt_Some; eassumption).
  rewrite <- (take_drop_middle l i b Hb) at 3.
  rewrite !concat_app. simpl.
  rewrite (Permutation_middle (concat (take i l))). reflexivity.
Qed.

Lemma concat_insert_remove {A} (l : list (list A)) (i : nat)
    (l1 l2 : list A) (x : A) :
  l !! i = Some (l1 ++ x :: l2) →
  concat l ≡ₚ x :: concat (<[i := l1 ++ l2]> l).
Proof.
  intros Hb.
  rewrite insert_take_drop by (eapply lookup_lt_Some; eassumption).
  pose proof (take_drop_middle l i _ Hb) as E.
  set (a := take i l) in *. set (d := drop (S i) l) in *.
  rewrite <- E. rewrite !concat_app. simpl. rewrite <- !app_assoc. simpl.
  rewrite !(app_assoc (concat a) l1).
  symmetry. apply Permutation_middle.
Qed.

Lemma filter_short_has_gap {A} (P : A → Prop) `{!∀ x, Decision (P x)}
    (l : list A) :
  (length (filter P l) < length l)%nat → ∃ i x, l !! i = Some x ∧ ¬ P x.
Proof.
  induction l as [|a l IH]; simpl; [lia|].
  rewrite filter_cons. destruct (decide (P a)) as [Hp|Hp].
  - simpl. intros Hlt. destruct IH as (i & x & Hi & Hx); [lia|].
    exists (S i), x. auto.
  - intros _. exists 0%nat, a. auto.
Qed.

Lemma filter_insert_length {A} (P : A → Prop) `{!∀ x, Decision (P x)}
    (l : list A) (i : nat) (x : A) :
  (length (filter P (<[i := x]> l)) ≤ S (length (filter P l)))%nat.
Proof.
  revert i. induction l as [|a l IH]; intros i; simpl; [lia|].
  destruct i as [|i]; simpl; rewrite !filter_cons.
  - destruct (decide (P x)), (decide (P a)); simpl; lia.
  - specialize (IH i). destruct (decide (P a)); simpl; lia.
Qed.

(** The default callbacks [addr_hash] and [ref_eq] fit together. *)
Lemma ref_eq_truthy (a b : ptr) : truthy (ref_eq a b) = true ↔ a = b.
Proof.
  unfold truthy, ref_eq. destruct (Z.eqb_spec a b); simpl; split;
    congruence.
Qed.

(** ** The chaining table: shape and totality *)

Module ChainedFacts.
Import Chained.

Lemma ch_default_table_new (fresh : hashmap) :
  hashmap_new None None fresh true true = Some ChainedRuns.default_table.
Proof. reflexivity. Qed.

Lemma ch_compress_home (t : hashmap) (k : ptr) :
  well_sized t →
  compress t (hash_of t k) = Ret (home t k) ∧ 0 ≤ home t k < size t.
Proof.
  intros [[Hpos Hle] _]. unfold compress, c_compress, home.
  destruct (Z.eqb_spec (size t) 0) as [E|_]; [lia|].
  pose proof (Z.mod_pos_bound (cast_size_t (hash_of t k)) (size t) Hpos).
  rewrite cast_int_small by lia. auto.
Qed.

(** [add_entry] puts the node at the head of the bucket of its key. *)
Lemma ch_add_entry_spec (t : hashmap) (e : hm_entry_t) :
  well_sized t →
  ∃ b, backing t !! Z.to_nat (home t (key e)) = Some b ∧
       add_entry t e
       = Ret (set_backing t (<[Z.to_nat (home t (key e)) := e :: b]> (backing t))).
Proof.
  intros Hws. destruct (ch_compress_home t (key e) Hws) as [Hc Hr].
  destruct Hws as [_ Hlen].
  destruct (read_in_range (backing t) (home t (key e))) as [b Hb]; [lia|].
  exists b. split; [apply read_ret in Hb; tauto|].
  unfold add_entry. rewrite Hc. simpl. rewrite Hb. simpl.
  rewrite write_in_range by lia. reflexivity.
Qed.

Lemma ch_well_sized_set_backing (t : hashmap) (b : list (list hm_entry_t)) :
  well_sized t → length b = length (backing t) → well_sized (set_backing t b).
Proof. unfold well_sized. simpl. intros [? ?] ->. auto. Qed.

Lemma elem_of_concat {A} (x : A) (ls : list (list A)) :
  x ∈ concat ls ↔ ∃ i l, ls !! i = Some l ∧ x ∈ l.
Proof.
  rewrite list_elem_of_In, in_concat. split.
  - intros (l & Hl & Hx). apply list_elem_of_In, list_elem_of_lookup in Hl.
    destruct Hl as [i Hi]. exists i, l. split; [assumption|].
    now apply list_elem_of_In.
  - intros (i & l & Hi & Hx). exists l. split.
    + apply list_elem_of_In, list_elem_of_lookup. eauto.
    + now apply list_elem_of_In.
Qed.

Lemma concat_replicate_nil {A} (n : nat) : concat (replicate n (@nil A)) = [].
Proof. induction n; simpl; auto. Qed.

Lemma ch_placed_in_insert (t : hashmap) (bs : list (list hm_entry_t))
    (e : hm_entry_t) (b : list hm_entry_t) :
  placed_in t bs → bs !! Z.to_nat (home t (key e)) = Some b → 0 ≤ home t (key e) →
  placed_in t (<[Z.to_nat (home t (key e)) := e :: b]> bs).
Proof.
  intros Hpl Hb Hnn i b' e' Hi He'.
  destruct (decide (i = Z.to_nat (home t (key e)))) as [->|Hne].
  - rewrite list_lookup_insert_eq in Hi by (eapply lookup_lt_Some; eassumption).
    injection Hi as <-. apply elem_of_cons in He' as [->|He'].
    + lia.
    + eapply Hpl; eassumption.
  - rewrite list_lookup_insert_ne in Hi by congruence. eapply Hpl; eassumption.
Qed.

(** The inner loop of [resize] moves the nodes of [cur] into the table. *)
Lemma ch_rehash_bucket_spec (cur : list hm_entry_t) (t : hashmap) :
  well_sized t →
  ∃ bs, rehash_bucket cur t = Ret (set_backing t bs) ∧
        length bs = length (backing t) ∧
        concat bs ≡ₚ cur ++ concat (backing t) ∧
        (placed_in t (backing t) → placed_in t bs).
Proof.
  revert t. induction cur as [|e next IH]; intros t Hws.
  - exists (backing t). destruct t; simpl. auto.
  - destruct (ch_add_entry_spec t e Hws) as (b & Hb & Hadd).
    destruct (ch_compress_home t (key e) Hws) as [_ Hr].
    set (bs1 := <[Z.to_nat (home t (key e)) := e :: b]> (backing t)) in *.
    assert (Hlen1 : length bs1 = length (backing t)) by apply length_insert.
    destruct (IH (set_backing t bs1)) as (bs & Hre & Hlen & Hperm & Hpl).
    { now apply ch_well_sized_set_backing. }
    exists bs. simpl. rewrite Hadd. simpl. rewrite Hre. simpl in *.
    split; [reflexivity|]. split; [congruence|]. split.
    + rewrite Hperm. unfold bs1. rewrite concat_insert_cons by assumption.
      symmetry. apply Permutation_middle.
    + intros Hp. apply Hpl. change (placed_in t bs1).
      apply ch_placed_in_insert; [assumption..|lia].
Qed.

(** The outer loop of [resize] moves the buckets [i .. i + n - 1] of [old]. *)
Lemma ch_rehash_loop_spec (old : list (list hm_entry_t)) (n : nat) (i : nat)
    (t : hashmap) :
  well_sized t → (i + n ≤ length old)%nat →
  ∃ bs, rehash_loop old n (Z.of_nat i) t = Ret (set_backing t bs) ∧
        length bs = length (backing t) ∧
        concat bs ≡ₚ concat (take n (drop i old)) ++ concat (backing t) ∧
        (placed_in t (backing t) → placed_in t bs).
Proof.
  revert i t. induction n as [|n IH]; intros i t Hws Hin.
  - exists (backing t). destruct t; simpl. auto.
  - destruct (lookup_lt_is_Some_2 old i) as [cur Hcur]; [lia|].
    assert (Hread : read old (Z.of_nat i) = Ret cur).
    { apply read_ret. rewrite Nat2Z.id. split; [lia|assumption]. }
    destruct (ch_rehash_bucket_spec cur t Hws) as (bs1 & Hre & Hlen1 & Hperm1 & Hpl1).
    destruct (IH (S i) (set_backing t bs1)) as (bs & Hlo & Hlen & Hperm & Hpl).
    { now apply ch_well_sized_set_backing. }
    { lia. }
    exists bs. simpl rehash_loop. rewrite Hread. simpl. rewrite Hre. simpl.
    replace (Z.of_nat i + 1) with (Z.of_nat (S i)) by lia.
    rewrite Hlo. simpl in *.
    split; [reflexivity|]. split; [congruence|]. split; [|tauto].
    rewrite Hperm, Hperm1.
    rewrite (drop_S old cur i Hcur). simpl.
    rewrite <- !app_assoc. apply Permutation_app_swap_app.
Qed.

(** A successful [resize] keeps the nodes, each in the bucket of its key
    under the new size. *)
Lemma ch_resize_spec (t : hashmap) (new_size : Z) :
  well_sized t → 0 < new_size ≤ 2 ^ 31 →
  ∃ t', resize t new_size true = Ret (t', 1) ∧
        size t' = new_size ∧ nentries t' = nentries t ∧
        hashcode t' = hashcode t ∧ equals t' = equals t ∧
        well_sized t' ∧ placed t' ∧ nodes t' ≡ₚ nodes t.
Proof.
  intros Hws Hns. unfold resize. cbv zeta.
  set (t1 := mk_hashmap new_size (nentries t)
               (replicate (Z.to_nat new_size) []) (hashcode t) (equals t)).
  assert (Hws1 : well_sized t1).
  { unfold well_sized, t1. simpl. rewrite length_replicate. lia. }
  destruct Hws as [_ Hlen].
  destruct (ch_rehash_loop_spec (backing t) (Z.to_nat (size t)) 0 t1 Hws1)
    as (bs & Hlo & Hlenb & Hperm & Hpl); [lia|].
  change (Z.of_nat 0) with 0 in Hlo. rewrite Hlo. simpl.
  eexists. split; [reflexivity|]. simpl.
  repeat (split; [reflexivity|]).
  split; [|split].
  - apply (ch_well_sized_set_backing t1); assumption.
  - apply Hpl. intros i b e Hi He. unfold t1 in Hi. simpl in Hi.
    apply lookup_replicate in Hi as [-> _]. inversion He.
  - unfold nodes. simpl. rewrite Hperm. unfold t1. simpl.
    rewrite concat_replicate_nil, app_nil_r, drop_0.
    rewrite take_ge by lia. reflexivity.
Qed.

Lemma ch_default_good_keys (t : hashmap) :
  hashcode t = addr_hash → equals t = ref_eq → good_keys t.
Proof.
  intros Hh He. unfold good_keys, hash_of. rewrite Hh, He.
  repeat split; intros *; rewrite ?ref_eq_truthy; congruence.
Qed.

Lemma ch_placed_from_spec (t : hashmap) (bs : list (list hm_entry_t)) (i : nat) :
  placed_from t i bs = true →
  ∀ j b e, bs !! j = Some b → e ∈ b → home t (key e) = Z.of_nat (i + j).
Proof.
  revert i. induction bs as [|b0 bs IH]; intros i Hc j b e Hj He;
    [discriminate|].
  simpl in Hc. apply andb_prop in Hc as [Hb Hc].
  destruct j as [|j]; simpl in Hj.
  - injection Hj as <-. rewrite forallb_forall in Hb.
    apply list_elem_of_In in He. specialize (Hb e He).
    rewrite Nat.add_0_r. lia.
  - rewrite (IH (S i) Hc j b e Hj He). lia.
Qed.

Lemma ch_placed_check (t : hashmap) :
  placed_from t 0 (backing t) = true → placed t.
Proof. intros Hc i b e. now apply (ch_placed_from_spec t (backing t) 0). Qed.

Lemma ch_distinct_check (t : hashmap) (l : list hm_entry_t) :
  distinct_keysb t l = true → distinct_keys t l.
Proof.
  induction l as [|e l IH]; simpl; [auto|].
  intros Hc. apply andb_prop in Hc as [He Hc]. split; [|auto].
  intros e' Hin. rewrite forallb_forall in He.
  apply list_elem_of_In in Hin. specialize (He e' Hin).
  now apply negb_true_iff in He.
Qed.

(** *** Scanning a list of nodes *)

Lemma ch_scan_ext (t t' : hashmap) (l : list hm_entry_t) (k : ptr) :
  equals t' = equals t → scan t' l k = scan t l k.
Proof.
  intros He. induction l as [|e l IH]; simpl; [reflexivity|].
  rewrite He, IH. reflexivity.
Qed.

Lemma ch_scan_cons (t : hashmap) (l : list hm_entry_t) (k : ptr)
    (e : hm_entry_t) (r : list hm_entry_t) :
  scan t l k = e :: r → e ∈ l ∧ truthy (equals t (key e) k) = true.
Proof.
  induction l as [|x l IH]; simpl; [discriminate|].
  destruct (truthy (equals t (key x) k)) eqn:Hx.
  - intros [= -> _]. split; [left|assumption].
  - intros H. destruct (IH H). split; [now right|assumption].
Qed.

Lemma ch_scan_nil (t : hashmap) (l : list hm_entry_t) (k : ptr) :
  scan t l k = [] ↔ ∀ e, e ∈ l → truthy (equals t (key e) k) = false.
Proof.
  induction l as [|x l IH]; simpl.
  - split; [|reflexivity]. intros _ e He. inversion He.
  - destruct (truthy (equals t (key x) k)) eqn:Hx.
    + split; [discriminate|]. intros H. specialize (H x ltac:(left)). congruence.
    + rewrite IH. split.
      * intros H e He. apply elem_of_cons in He as [->|He]; auto.
      * intros H e He. apply H. now right.
Qed.

Lemma ch_first_value_none (t : hashmap) (l : list hm_entry_t) (k : ptr) :
  (∀ e, e ∈ l → truthy (equals t (key e) k) = false) →
  first_value t l k = NULL.
Proof. intros H. apply ch_scan_nil in H. unfold first_value. now rewrite H. Qed.

(** Among nodes with distinct keys the node matching [k] is the one a scan
    stops at. *)
Lemma ch_first_value_unique (t : hashmap) (l : list hm_entry_t) (k : ptr)
    (e : hm_entry_t) :
  good_keys t → distinct_keys t l →
  e ∈ l → truthy (equals t (key e) k) = true →
  first_value t l k = value e.
Proof.
  intros (_ & Hsym & Htrans & _). unfold first_value.
  induction l as [|x l IH]; intros Hd He Hm; [inversion He|].
  destruct Hd as [Hx Hd]. simpl.
  destruct (truthy (equals t (key x) k)) eqn:Hxk.
  - apply elem_of_cons in He as [->|He]; [reflexivity|].
    specialize (Hx e He).
    rewrite (Htrans (key x) k (key e) Hxk (Hsym _ _ Hm)) in Hx. discriminate.
  - apply elem_of_cons in He as [->|He]; [congruence|]. now apply IH.
Qed.

Lemma ch_distinct_keys_ext (t t' : hashmap) (l : list hm_entry_t) :
  equals t' = equals t → distinct_keys t l → distinct_keys t' l.
Proof.
  intros He. induction l as [|x l IH]; simpl; [auto|].
  intros [Hx Hd]. split; [|auto]. intros e' He'. rewrite He. auto.
Qed.

Lemma ch_distinct_keys_perm (t : hashmap) (l l' : list hm_entry_t) :
  good_keys t → l ≡ₚ l' → distinct_keys t l → distinct_keys t l'.
Proof.
  intros (_ & Hsym & _) Hp. induction Hp as [|x l l' Hp IH|x y l|l l' l'' _ IH1 _ IH2].
  - auto.
  - simpl. intros [Hx Hd]. split; [|auto].
    intros e' He'. apply Hx. now rewrite Hp.
  - simpl. intros (Hy & Hx & Hd). split; [|split; [|assumption]].
    + intros e' He'. apply elem_of_cons in He' as [->|He'].
      * destruct (truthy (equals t (key x) (key y))) eqn:E; [|reflexivity].
        apply Hsym in E. rewrite (Hy x) in E by left. discriminate.
      * auto.
    + intros e' He'. apply Hy. now right.
  - auto.
Qed.

Lemma ch_first_value_perm (t : hashmap) (l l' : list hm_entry_t) (k : ptr) :
  good_keys t → distinct_keys t l → l ≡ₚ l' →
  first_value t l k = first_value t l' k.
Proof.
  intros Hg Hd Hp.
  destruct (scan t l k) as [|e r] eqn:Hs.
  - rewrite ch_scan_nil in Hs.
    rewrite !ch_first_value_none; [reflexivity| |assumption].
    intros e He. apply Hs. now rewrite Hp.
  - apply ch_scan_cons in Hs as [He Hm].
    rewrite (ch_first_value_unique t l k e), (ch_first_value_unique t l' k e);
      auto.
    + eapply ch_distinct_keys_perm; eassumption.
    + now rewrite <- Hp.
Qed.

(** *** Lookup and insertion in a well-formed table *)

(** The nodes matching [k] are in [k]'s bucket. *)
Lemma ch_match_in_bucket (t : hashmap) (k : ptr) (e : hm_entry_t)
    (b : list hm_entry_t) :
  well_sized t → good_keys t → placed t →
  backing t !! Z.to_nat (home t k) = Some b →
  e ∈ nodes t → truthy (equals t (key e) k) = true → e ∈ b.
Proof.
  intros Hws (_ & _ & _ & Hh) Hpl Hb He Hm.
  apply elem_of_concat in He as (i & l & Hi & Hel).
  pose proof (Hpl i l e Hi Hel) as Hhome.
  assert (home t (key e) = home t k) as Hk.
  { unfold home. now rewrite (Hh _ _ Hm). }
  assert (i = Z.to_nat (home t k)) as -> by lia.
  congruence.
Qed.

Lemma ch_get_bucket (t : hashmap) (k : ptr) :
  well_sized t →
  ∃ b, backing t !! Z.to_nat (home t k) = Some b ∧
       hashmap_get t k = Ret (first_value t b k).
Proof.
  intros Hws. destruct (ch_compress_home t k Hws) as [Hc Hr].
  destruct (read_in_range (backing t) (home t k)) as [b Hb].
  { destruct Hws as [_ ->]. assumption. }
  exists b. split; [apply read_ret in Hb; tauto|].
  unfold hashmap_get. rewrite Hc. simpl. rewrite Hb. reflexivity.
Qed.

(** [hashmap_get] answers with the value of the one node matching [k]. *)
Lemma ch_get_spec (t : hashmap) (k : ptr) :
  wf t → hashmap_get t k = Ret (first_value t (nodes t) k).
Proof.
  intros (Hws & Hg & Hpl & Hd & _).
  destruct (ch_get_bucket t k Hws) as (b & Hb & ->). f_equal.
  assert (Hsub : ∀ e, e ∈ b → e ∈ nodes t).
  { intros e He. apply elem_of_concat. eauto. }
  destruct (scan t b k) as [|e r] eqn:Hs.
  - rewrite ch_scan_nil in Hs.
    rewrite (ch_first_value_none t b) by assumption.
    symmetry. apply ch_first_value_none.
    intros e He. destruct (truthy (equals t (key e) k)) eqn:Hm; [|reflexivity].
    rewrite <- Hm. apply Hs. eapply ch_match_in_bucket; eassumption.
  - unfold first_value at 1. rewrite Hs.
    apply ch_scan_cons in Hs as [He Hm].
    symmetry. apply ch_first_value_unique; auto.
Qed.

(** On a key that is present [hashmap_add], past its resize block, answers 0
    and leaves the table as it is. *)
Lemma ch_add_pair_present (t : hashmap) (k v : ptr) (malloc_ok : bool) :
  well_sized t → good_keys t → placed t → present t k →
  add_pair t k v malloc_ok = Ret (t, 0).
Proof.
  intros Hws Hg Hpl (e & He & Hm).
  destruct (ch_compress_home t k Hws) as [Hc Hr].
  destruct (read_in_range (backing t) (home t k)) as [b Hb].
  { destruct Hws as [_ ->]. assumption. }
  unfold add_pair. rewrite Hc. simpl. rewrite Hb. simpl.
  apply read_ret in Hb as [_ Hb].
  pose proof (ch_match_in_bucket t k e b Hws Hg Hpl Hb He Hm) as Hin.
  destruct (scan t b k) as [|x r] eqn:Hs; [|reflexivity].
  rewrite ch_scan_nil in Hs. rewrite (Hs e Hin) in Hm. discriminate.
Qed.

Lemma ch_good_keys_ext (t t' : hashmap) :
  hashcode t' = hashcode t → equals t' = equals t → good_keys t → good_keys t'.
Proof.
  intros Hh He. unfold good_keys, hash_of. rewrite Hh, He. auto.
Qed.

(** A successful [resize] of a well-formed table gives a well-formed table
    with the same nodes. *)
Lemma ch_resize_wf (t : hashmap) (new_size : Z) :
  wf t → 0 < new_size ≤ 2 ^ 31 →
  ∃ t', resize t new_size true = Ret (t', 1) ∧
        size t' = new_size ∧ nentries t' = nentries t ∧
        hashcode t' = hashcode t ∧ equals t' = equals t ∧
        wf t' ∧ nodes t' ≡ₚ nodes t.
Proof.
  intros (Hws & Hg & Hpl & Hd & Hn) Hns.
  destruct (ch_resize_spec t new_size Hws Hns)
    as (t' & Hre & Hs & Hn' & Hh & He & Hws' & Hpl' & Hperm).
  exists t'. repeat (split; [assumption|]). split; [|assumption].
  split; [assumption|]. split; [now apply (ch_good_keys_ext t)|].
  split; [assumption|]. split.
  - apply (ch_distinct_keys_ext t); [assumption|].
    apply (ch_distinct_keys_perm t (nodes t)); [assumption|now symmetry|assumption].
  - unfold live_count in *. rewrite Hn', Hn. now rewrite Hperm.
Qed.

(** [hashmap_get] gives the same answers on well-formed tables with the same
    nodes. *)
Lemma ch_get_perm (t t' : hashmap) (k : ptr) :
  wf t → wf t' → equals t' = equals t → nodes t' ≡ₚ nodes t →
  hashmap_get t' k = hashmap_get t k.
Proof.
  intros Hwf Hwf' He Hp.
  rewrite (ch_get_spec t' k Hwf'), (ch_get_spec t k Hwf). f_equal.
  unfold first_value. rewrite (ch_scan_ext t t') by assumption.
  destruct Hwf as (_ & Hg & _ & Hd & _).
  apply (ch_first_value_perm t); [assumption| |assumption].
  eapply ch_distinct_keys_perm; [eassumption| |eassumption]. now symmetry.
Qed.

Lemma ch_present_perm (t t' : hashmap) (k : ptr) :
  equals t' = equals t → nodes t' ≡ₚ nodes t → present t k → present t' k.
Proof.
  intros He Hp (e & Hin & Hm). exists e. rewrite He, Hp. auto.
Qed.

(** [hashmap_add] past its resize block always returns, with the size it
    found. *)
Lemma ch_add_pair_total (t : hashmap) (k v : ptr) (malloc_ok : bool) :
  well_sized t →
  ∃ t' r, add_pair t k v malloc_ok = Ret (t', r) ∧
          size t' = size t ∧ well_sized t'.
Proof.
  intros Hws. destruct (ch_compress_home t k Hws) as [Hc Hr].
  destruct (read_in_range (backing t) (home t k)) as [b Hb].
  { destruct Hws as [_ ->]. assumption. }
  unfold add_pair. rewrite Hc. simpl. rewrite Hb. simpl.
  destruct (scan t b k); [|eauto].
  destruct malloc_ok; [|eauto].
  destruct (ch_add_entry_spec t (mk_entry k v) Hws) as (b' & Hb' & ->). simpl.
  eexists. eexists. split; [reflexivity|]. split; [reflexivity|].
  destruct Hws as [Hs Hl]. split; simpl; [assumption|].
  now rewrite length_insert.
Qed.

(** The chaining half of C5. *)
Lemma ch_add_resizes (t : hashmap) (k v : ptr) (calloc_ok malloc_ok : bool) :
  well_sized t → size t * 2 ≤ 2 ^ 31 →
  ∃ t' r, hashmap_add t k v calloc_ok malloc_ok = Ret (t', r) ∧
    well_sized t' ∧
    if load_exceeded (nentries t) (size t) then
      if calloc_ok then
        size t' = size t * 2 ∧
        ∃ t1, resize t (size t * 2) true = Ret (t1, 1) ∧
              size t1 = size t * 2 ∧
              add_pair t1 k v malloc_ok = Ret (t', r)
      else t' = t ∧ r = 0
    else size t' = size t ∧ add_pair t k v malloc_ok = Ret (t', r).
Proof.
  intros Hws Hdbl. unfold hashmap_add.
  assert (Hcast : cast_size_t (size t * 2) = size t * 2).
  { apply cast_size_t_small. destruct Hws as [[? ?] _].
    assert (2 ^ 31 < 2 ^ 64) by (apply Z.pow_lt_mono_r; lia). lia. }
  rewrite Hcast.
  destruct (load_exceeded (nentries t) (size t)).
  - destruct calloc_ok.
    + destruct (ch_resize_spec t (size t * 2) Hws) as (t1 & Hre & Hs1 & _ & _ & _ & Hws1 & _).
      { destruct Hws as [[? ?] _]. lia. }
      rewrite Hre. simpl.
      destruct (ch_add_pair_total t1 k v malloc_ok Hws1) as (t' & r & Hadd & Hs' & Hws').
      exists t', r. rewrite Hadd. split; [reflexivity|]. split; [assumption|].
      split; [congruence|]. exists t1. auto.
    + simpl. exists t, 0. auto.
  - destruct (ch_add_pair_total t k v malloc_ok Hws) as (t' & r & Hadd & Hs' & Hws').
    exists t', r. auto.
Qed.

(** The chaining half of C2. *)
Lemma ch_add_present (t : hashmap) (k v : ptr) (calloc_ok malloc_ok : bool) :
  wf t → size t * 2 ≤ 2 ^ 31 → present t k →
  ∃ t', hashmap_add t k v calloc_ok malloc_ok = Ret (t', 0) ∧
    nentries t' = nentries t ∧
    (∀ k', hashmap_get t' k' = hashmap_get t k') ∧
    size t' = (if load_exceeded (nentries t) (size t) && calloc_ok
               then size t * 2 else size t) ∧
    (load_exceeded (nentries t) (size t) && calloc_ok = false → t' = t).
Proof.
  intros Hwf Hdbl Hpr. unfold hashmap_add.
  assert (Hcast : cast_size_t (size t * 2) = size t * 2).
  { apply cast_size_t_small. destruct Hwf as ([[? ?] _] & _).
    assert (2 ^ 31 < 2 ^ 64) by (apply Z.pow_lt_mono_r; lia). lia. }
  rewrite Hcast.
  assert (Hsame : add_pair t k v malloc_ok = Ret (t, 0)).
  { destruct Hwf as (? & ? & ? & _). now apply ch_add_pair_present. }
  destruct (load_exceeded (nentries t) (size t)).
  - destruct calloc_ok.
    + destruct (ch_resize_wf t (size t * 2) Hwf)
        as (t1 & Hre & Hs1 & Hn1 & Hh1 & He1 & Hwf1 & Hperm).
      { destruct Hwf as ([[? ?] _] & _). lia. }
      rewrite Hre. simpl.
      rewrite ch_add_pair_present.
      * exists t1. split; [reflexivity|]. split; [assumption|].
        split; [|split; [assumption|discriminate]].
        intros k'. now apply ch_get_perm.
      * apply Hwf1.
      * apply Hwf1.
      * apply Hwf1.
      * now apply (ch_present_perm t).
    + simpl. exists t. auto.
  - rewrite Hsame. exists t. auto.
Qed.

(** *** Insertion followed by lookup *)

Lemma ch_contains_of_get (t : hashmap) (k v : ptr) :
  hashmap_get t k = Ret v →
  hashmap_contains t k = Ret (if v =? NULL then 0 else 1).
Proof. intros Hg. unfold hashmap_contains. now rewrite Hg. Qed.

Lemma ch_add_pair_get (t t' : hashmap) (k v : ptr) (malloc_ok : bool) :
  well_sized t → truthy (equals t k k) = true →
  add_pair t k v malloc_ok = Ret (t', 1) →
  hashmap_get t' k = Ret v.
Proof.
  intros Hws Hrefl. destruct (ch_compress_home t k Hws) as [Hc Hr].
  destruct (read_in_range (backing t) (home t k)) as [b Hb].
  { destruct Hws as [_ ->]. assumption. }
  unfold add_pair. rewrite Hc, bind_Ret, Hb, bind_Ret.
  destruct (scan t b k); [|intros [= _ ?]].
  destruct malloc_ok; [|intros [= _ ?]].
  destruct (ch_add_entry_spec t (mk_entry k v) Hws) as (b' & Hb' & ->).
  rewrite bind_Ret. intros [= <-].
  unfold hashmap_get.
  change (compress _ (hash_of _ k)) with (compress t (hash_of t k)).
  rewrite Hc, bind_Ret. simpl backing. simpl key.
  assert (Hrd : read (<[Z.to_nat (home t k) := mk_entry k v :: b']> (backing t))
                  (home t k) = Ret (mk_entry k v :: b')).
  { apply read_ret. split; [lia|]. apply list_lookup_insert_eq.
    eapply lookup_lt_Some. eassumption. }
  rewrite Hrd, bind_Ret. simpl. rewrite Hrefl. reflexivity.
Qed.

(** After a successful [hashmap_add] of [k] and [v], [hashmap_get] of [k]
    returns [v]; [hashmap_contains] answers 1 exactly when [v] is not
    [NULL]. *)
Lemma ch_add_get (t t' : hashmap) (k v : ptr) (calloc_ok malloc_ok : bool) :
  well_sized t → size t * 2 ≤ 2 ^ 31 → truthy (equals t k k) = true →
  hashmap_add t k v calloc_ok malloc_ok = Ret (t', 1) →
  hashmap_get t' k = Ret v ∧
  hashmap_contains t' k = Ret (if v =? NULL then 0 else 1).
Proof.
  intros Hws Hdbl Hrefl Hadd.
  assert (Hg : hashmap_get t' k = Ret v).
  { revert Hadd. unfold hashmap_add.
    assert (Hcast : cast_size_t (size t * 2) = size t * 2).
    { apply cast_size_t_small. destruct Hws as [[? ?] _].
      assert (2 ^ 31 < 2 ^ 64) by (apply Z.pow_lt_mono_r; lia). lia. }
    rewrite Hcast.
    destruct (load_exceeded (nentries t) (size t)).
    - destruct calloc_ok; [|intros [= _ ?]].
      destruct (ch_resize_spec t (size t * 2) Hws)
        as (t1 & Hre & _ & _ & _ & He1 & Hws1 & _).
      { destruct Hws as [[? ?] _]. lia. }
      rewrite Hre, bind_Ret. cbv beta iota. change (1 =? 0) with false.
      cbv iota. apply ch_add_pair_get; [assumption|]. now rewrite He1.
    - now apply ch_add_pair_get. }
  split; [assumption|]. now apply ch_contains_of_get.
Qed.

(** *** [resize] and the answers of [hashmap_get] *)

Lemma ch_resize_preserves_get (t : hashmap) (new_size : Z) :
  wf t → 0 < new_size ≤ 2 ^ 31 →
  ∃ t', resize t new_size true = Ret (t', 1) ∧
        ∀ k, hashmap_get t' k = hashmap_get t k.
Proof.
  intros Hwf Hns.
  destruct (ch_resize_wf t new_size Hwf Hns)
    as (t' & Hre & _ & _ & _ & He & Hwf' & Hperm).
  exists t'. split; [assumption|]. intros k. now apply ch_get_perm.
Qed.

(** *** The operations keep the table well formed *)

Lemma ch_add_pair_wf (t t' : hashmap) (k v : ptr) (malloc_ok : bool) (r : Z) :
  wf t → nentries t + 1 < 2 ^ 64 →
  add_pair t k v malloc_ok = Ret (t', r) → wf t'.
Proof.
  intros Hwf Hcnt. pose proof Hwf as (Hws & Hg & Hpl & Hd & Hn).
  destruct (ch_compress_home t k Hws) as [Hc Hr].
  destruct (read_in_range (backing t) (home t k)) as [b Hb].
  { destruct Hws as [_ ->]. assumption. }
  unfold add_pair. rewrite Hc, bind_Ret, Hb, bind_Ret.
  destruct (scan t b k) eqn:Hs; [|now intros [= <- _]].
  destruct malloc_ok; [|now intros [= <- _]].
  destruct (ch_add_entry_spec t (mk_entry k v) Hws) as (b' & Hb' & ->).
  rewrite bind_Ret. intros [= <- _]. simpl key in *.
  apply read_ret in Hb as [_ Hb]. assert (b' = b) as -> by congruence.
  rewrite ch_scan_nil in Hs.
  assert (Hperm : concat (<[Z.to_nat (home t k) := mk_entry k v :: b]> (backing t))
                  ≡ₚ mk_entry k v :: nodes t)
    by now apply concat_insert_cons.
  split; [|split; [|split; [|split]]].
  - destruct Hws as [Hs' Hl]. split; simpl; [assumption|].
    now rewrite length_insert.
  - exact Hg.
  - change (placed_in t (<[Z.to_nat (home t k) := mk_entry k v :: b]> (backing t))).
    apply (ch_placed_in_insert t (backing t) (mk_entry k v));
      [exact Hpl|exact Hb|simpl; lia].
  - apply (ch_distinct_keys_ext t); [reflexivity|].
    unfold nodes. simpl backing.
    apply (ch_distinct_keys_perm t (mk_entry k v :: nodes t));
      [assumption|now symmetry|].
    split; [|assumption]. intros e' He'. simpl.
    destruct (truthy (equals t k (key e'))) eqn:E; [|reflexivity].
    pose proof Hg as (_ & Hsym & _). apply Hsym in E.
    rewrite (Hs e') in E; [discriminate|].
    eapply ch_match_in_bucket; eassumption.
  - unfold live_count, nodes in *. simpl. rewrite Hperm. simpl length.
    rewrite cast_size_t_small; lia.
Qed.

Lemma ch_add_wf (t t' : hashmap) (k v : ptr) (calloc_ok malloc_ok : bool)
    (r : Z) :
  wf t → size t * 2 ≤ 2 ^ 31 → nentries t + 1 < 2 ^ 64 →
  hashmap_add t k v calloc_ok malloc_ok = Ret (t', r) → wf t'.
Proof.
  intros Hwf Hdbl Hcnt. unfold hashmap_add.
  assert (Hcast : cast_size_t (size t * 2) = size t * 2).
  { apply cast_size_t_small. destruct Hwf as ([[? ?] _] & _).
    assert (2 ^ 31 < 2 ^ 64) by (apply Z.pow_lt_mono_r; lia). lia. }
  rewrite Hcast.
  destruct (load_exceeded (nentries t) (size t)).
  - destruct calloc_ok; [|now intros [= <- _]].
    destruct (ch_resize_wf t (size t * 2) Hwf)
      as (t1 & Hre & _ & Hn1 & _ & _ & Hwf1 & _).
    { destruct Hwf as ([[? ?] _] & _). lia. }
    rewrite Hre, bind_Ret. cbv beta iota. change (1 =? 0) with false. cbv iota.
    apply ch_add_pair_wf; [assumption|lia].
  - now apply ch_add_pair_wf.
Qed.

Lemma ch_unlink_some (t : hashmap) (l l' : list hm_entry_t) (k v : ptr) :
  unlink t l k = Some (v, l') →
  ∃ l1 e l2, l = l1 ++ e :: l2 ∧ l' = l1 ++ l2 ∧ v = value e.
Proof.
  revert l'. induction l as [|x l IH]; intros l'; simpl; [discriminate|].
  destruct (truthy (equals t (key x) k)).
  - intros [= <- <-]. now exists [], x, l.
  - destruct (unlink t l k) as [[v0 l0]|]; simpl; [|discriminate].
    intros [= <- <-]. destruct (IH l0 eq_refl) as (l1 & e & l2 & -> & -> & ->).
    now exists (x :: l1), e, l2.
Qed.

Lemma ch_remove_wf (t t' : hashmap) (k v : ptr) :
  wf t → nentries t < 2 ^ 64 →
  hashmap_remove t k = Ret (t', v) → wf t'.
Proof.
  intros Hwf Hcnt. pose proof Hwf as (Hws & Hg & Hpl & Hd & Hn).
  destruct (ch_compress_home t k Hws) as [Hc Hr].
  destruct (read_in_range (backing t) (home t k)) as [b Hb].
  { destruct Hws as [_ ->]. assumption. }
  unfold hashmap_remove. rewrite Hc, bind_Ret, Hb, bind_Ret.
  destruct (unlink t b k) as [[v0 b']|] eqn:Hu; [|now intros [= <- _]].
  rewrite write_in_range by (destruct Hws as [_ ->]; assumption).
  rewrite bind_Ret. intros [= <- _].
  apply ch_unlink_some in Hu as (l1 & e & l2 & -> & -> & _).
  apply read_ret in Hb as [_ Hb].
  assert (Hperm : nodes t ≡ₚ
            e :: concat (<[Z.to_nat (home t k) := l1 ++ l2]> (backing t)))
    by now apply concat_insert_remove.
  split; [|split; [|split; [|split]]].
  - destruct Hws as [Hs' Hl]. split; simpl; [assumption|].
    now rewrite length_insert.
  - exact Hg.
  - intros i b0 e0 Hi He0. simpl in Hi.
    change (home _ (key e0)) with (home t (key e0)).
    destruct (decide (i = Z.to_nat (home t k))) as [->|Hne].
    + rewrite list_lookup_insert_eq in Hi by (eapply lookup_lt_Some; eassumption).
      injection Hi as <-. apply (Hpl _ _ e0 Hb).
      rewrite elem_of_app in He0. rewrite elem_of_app, elem_of_cons. tauto.
    + rewrite list_lookup_insert_ne in Hi by congruence. eapply Hpl; eassumption.
  - apply (ch_distinct_keys_ext t); [reflexivity|].
    unfold nodes at 1. simpl backing.
    apply (ch_distinct_keys_perm t _ _ Hg Hperm) in Hd. apply Hd.
  - unfold live_count in *. unfold nodes at 1. simpl.
    rewrite Hperm in Hn. simpl length in Hn.
    rewrite cast_size_t_small; lia.
Qed.

Lemma ch_clear_wf (t : hashmap) : good_keys t → wf (hashmap_clear t true).
Proof.
  intros Hg.
  change (hashmap_clear t true)
    with (mk_hashmap HASHMAP_INIT_SIZE 0
            (replicate (Z.to_nat HASHMAP_INIT_SIZE) []) (hashcode t) (equals t)).
  split; [|split; [|split; [|split]]].
  - split; cbn [size backing]; [unfold HASHMAP_INIT_SIZE; lia|].
    rewrite length_replicate. unfold HASHMAP_INIT_SIZE. lia.
  - exact Hg.
  - intros i b e Hi He. cbn [backing] in Hi.
    apply lookup_replicate in Hi as [-> _]. inversion He.
  - unfold nodes. cbn [backing]. rewrite concat_replicate_nil. exact I.
  - unfold live_count, nodes. cbn [backing nentries].
    now rewrite concat_replicate_nil.
Qed.

Lemma ch_default_wf : wf ChainedRuns.default_table.
Proof.
  split; [split; [simpl; lia|reflexivity]|].
  split; [now apply ch_default_good_keys|].
  split; [apply ch_placed_check; vm_compute; reflexivity|].
  split; [apply ch_distinct_check; vm_compute; reflexivity|reflexivity].
Qed.

(** The assertions of [test_add_int] hold in the model. *)
Lemma ch_test_add_int :
  (t ← run ChainedRuns.test_add_int_ops ChainedRuns.default_table;
   Ret (hashmap_get t 10, hashmap_get t 12, hashmap_get t 20, hashmap_size t))
  = Ret (Ret 0xCAFE, Ret 0xBABE, Ret 0xDEAD, 3).
Proof. vm_compute. reflexivity. Qed.

(** Every public call keeps a well-formed chaining table well formed: its
    live keys stay distinct and its count stays the number of its nodes. *)
Lemma ch_step_wf (t t' : hashmap) (o : op) :
  wf t → size t * 2 ≤ 2 ^ 31 → nentries t + 1 < 2 ^ 64 →
  step t o = Ret t' →
  wf t' ∧ distinct_keys t' (nodes t') ∧ hashmap_size t' = live_count t'.
Proof.
  intros Hwf Hdbl Hcnt Hstep.
  assert (Hwf' : wf t').
  { destruct o as [k v|k|]; simpl in Hstep.
    - destruct (hashmap_add t k v true true) as [[t1 r]| |] eqn:Hadd;
        [|discriminate..].
      simpl in Hstep. injection Hstep as <-. eapply ch_add_wf; eassumption.
    - destruct (hashmap_remove t k) as [[t1 r]| |] eqn:Hrem; [|discriminate..].
      simpl in Hstep. injection Hstep as <-.
      eapply ch_remove_wf; [eassumption|lia|eassumption].
    - injection Hstep as <-. apply ch_clear_wf. apply Hwf. }
  split; [assumption|]. destruct Hwf' as (_ & _ & _ & Hd & Hn). auto.
Qed.

(** *** The draft *)

(** The draft refuses a [NULL] value. *)
Lemma draft_add_rejects_null_value (t : hashmap) (k : ptr) (malloc_ok : bool)
    (fresh : hm_entry_t) :
  ChainedDraft.hashmap_add t k NULL malloc_ok fresh = Ret (t, 0).
Proof.
  unfold ChainedDraft.hashmap_add. now rewrite Z.eqb_refl, orb_true_r.
Qed.

(** The draft never looks for the key: whatever the table holds, the call
    answers 1, counts one entry more and links the node as [malloc] left
    it. *)
Lemma draft_add_never_rejects (t : hashmap) (k v : ptr) (fresh : hm_entry_t) :
  well_sized t → k ≠ NULL → v ≠ NULL →
  ∃ t', ChainedDraft.hashmap_add t k v true fresh = Ret (t', 1) ∧
        nentries t' = cast_size_t (nentries t + 1) ∧
        nodes t' ≡ₚ fresh :: nodes t.
Proof.
  intros Hws Hk Hv. destruct (ch_compress_home t k Hws) as [Hc Hr].
  destruct (read_in_range (backing t) (home t k)) as [b Hb].
  { destruct Hws as [_ ->]. assumption. }
  unfold ChainedDraft.hashmap_add.
  destruct (Z.eqb_spec k NULL); [contradiction|].
  destruct (Z.eqb_spec v NULL); [contradiction|].
  simpl orb. cbv iota. rewrite Hc, bind_Ret, Hb, bind_Ret.
  rewrite write_in_range by (destruct Hws as [_ ->]; assumption).
  rewrite bind_Ret. eexists. split; [reflexivity|]. split; [reflexivity|].
  unfold nodes. simpl. apply concat_insert_cons.
  apply read_ret in Hb. tauto.
Qed.

End ChainedFacts.

(** ** The open-addressing table: probes *)

Module OpenAddrFacts.
Import OpenAddr.

Lemma oa_default_table_new (fresh : hashmap) :
  hashmap_new None None fresh true true = Some OpenAddrRuns.default_table.
Proof. reflexivity. Qed.

Lemma pow_31_64 : 2 ^ 31 < 2 ^ 64.
Proof. apply Z.pow_lt_mono_r; lia. Qed.

Lemma oa_probe_range (t : hashmap) (h d : Z) :
  0 < size t → 0 ≤ probe t h d < size t.
Proof. intros Hs. unfold probe. now apply Z.mod_pos_bound. Qed.

Lemma oa_probe_0 (t : hashmap) (h : Z) : 0 ≤ h < size t → probe t h 0 = h.
Proof. intros Hh. unfold probe. rewrite Z.add_0_r. now apply Z.mod_small. Qed.

Lemma oa_probe_size (t : hashmap) (h : Z) :
  0 ≤ h < size t → probe t h (size t) = h.
Proof.
  intros Hh. unfold probe.
  replace (h + size t) with (h + 1 * size t) by lia.
  rewrite Z.mod_add by lia. now apply Z.mod_small.
Qed.

Lemma oa_probe_cases (t : hashmap) (h d : Z) :
  0 ≤ h < size t → 0 ≤ d < size t →
  (h + d < size t ∧ probe t h d = h + d) ∨
  (size t ≤ h + d ∧ probe t h d = h + d - size t).
Proof.
  intros Hh Hd. unfold probe.
  destruct (Z_lt_ge_dec (h + d) (size t)) as [Hlt|Hge].
  - left. split; [assumption|]. apply Z.mod_small. lia.
  - right. split; [lia|].
    symmetry. apply (Z.mod_unique_pos _ _ 1); lia.
Qed.

Lemma oa_probe_ne_start (t : hashmap) (h d : Z) :
  0 ≤ h < size t → 0 < d < size t → probe t h d ≠ h.
Proof.
  intros Hh Hd.
  destruct (oa_probe_cases t h d) as [[_ E]|[_ E]]; try rewrite E; lia.
Qed.

Lemma oa_probe_inj (t : hashmap) (h d1 d2 : Z) :
  0 ≤ h < size t → 0 ≤ d1 < size t → 0 ≤ d2 < size t →
  probe t h d1 = probe t h d2 → d1 = d2.
Proof.
  intros Hh H1 H2.
  destruct (oa_probe_cases t h d1 Hh H1) as [[? E1]|[? E1]];
    destruct (oa_probe_cases t h d2 Hh H2) as [[? E2]|[? E2]];
    rewrite E1, E2; lia.
Qed.

Lemma oa_probe_surj (t : hashmap) (h i : Z) :
  0 ≤ h < size t → 0 ≤ i < size t →
  ∃ d, 0 ≤ d < size t ∧ probe t h d = i.
Proof.
  intros Hh Hi. destruct (Z_lt_ge_dec i h) as [Hlt|Hge].
  - exists (i - h + size t). split; [lia|].
    destruct (oa_probe_cases t h (i - h + size t)) as [[? E]|[? E]];
      try rewrite E; lia.
  - exists (i - h). split; [lia|].
    destruct (oa_probe_cases t h (i - h)) as [[? E]|[? E]];
      try rewrite E; lia.
Qed.

Lemma oa_probe_succ (t : hashmap) (h d : Z) :
  0 < size t → (probe t h d + 1) mod size t = probe t h (d + 1).
Proof.
  intros Hs. unfold probe. rewrite Z.add_mod_idemp_l by lia.
  f_equal. lia.
Qed.

Lemma oa_compress_home (t : hashmap) (k : ptr) :
  well_sized t →
  compress t (hash_of t k) = Ret (home t k) ∧ 0 ≤ home t k < size t.
Proof.
  intros [[Hpos Hle] _]. unfold compress, c_compress, home.
  destruct (Z.eqb_spec (size t) 0) as [E|_]; [lia|].
  pose proof (Z.mod_pos_bound (cast_size_t (hash_of t k)) (size t) Hpos).
  unfold INT_MAX in Hle. rewrite cast_int_small by lia. auto.
Qed.

Lemma oa_update_index_probe (t : hashmap) (h d : Z) :
  well_sized t → update_index t (probe t h d) = Ret (probe t h (d + 1)).
Proof.
  intros [[Hpos Hle] _]. unfold INT_MAX in Hle.
  pose proof (oa_probe_range t h d Hpos) as Hr.
  pose proof (oa_probe_range t h (d + 1) Hpos) as Hr'.
  pose proof pow_31_64.
  unfold update_index, c_compress, INT_MAX.
  destruct (Z.ltb_spec (2 ^ 31 - 1) (probe t h d + 1)); [lia|].
  destruct (Z.eqb_spec (size t) 0); [lia|].
  rewrite cast_size_t_small by lia.
  rewrite oa_probe_succ by lia. rewrite cast_int_small by lia. reflexivity.
Qed.

Lemma oa_read_slot (t : hashmap) (i : Z) :
  well_sized t → 0 ≤ i < size t → read (backing t) i = Ret (slot t i).
Proof.
  intros [_ Hlen] Hi. apply read_ret. split; [lia|]. unfold slot.
  destruct (lookup_lt_is_Some_2 (backing t) (Z.to_nat i)) as [x ->]; [lia|].
  reflexivity.
Qed.

Lemma oa_read_probe (t : hashmap) (h d : Z) :
  well_sized t → read (backing t) (probe t h d) = Ret (slot t (probe t h d)).
Proof.
  intros Hws. apply oa_read_slot; [assumption|].
  apply oa_probe_range. destruct Hws as [[? _] _]. assumption.
Qed.

(** *** The probe loops *)

Section Probe.
Variables (t : hashmap) (h : Z).
Hypothesis Hws : well_sized t.
Hypothesis Hh : 0 ≤ h < size t.

Let here (d : Z) : hm_entry_t := slot t (probe t h d).

(** One turn of the loop of [add_entry], [d] steps into the probe. *)
Lemma oa_add_loop_step (fuel : nat) (entry : hm_entry_t) (d : Z) :
  0 ≤ d < size t →
  add_entry_loop (S fuel) t entry h (probe t h d) (here d) =
  if is_active (here d) then
    if truthy (equals t (key (here d)) (key entry)) then Ret None
    else if d + 1 =? size t then Ret None
    else add_entry_loop fuel t entry h (probe t h (d + 1)) (here (d + 1))
  else Ret (Some (probe t h d)).
Proof.
  intros Hd. simpl.
  destruct (is_active (here d)); [|reflexivity].
  destruct (truthy (equals t (key (here d)) (key entry))); [reflexivity|].
  rewrite oa_update_index_probe by assumption. simpl.
  rewrite oa_read_probe by assumption. simpl.
  destruct (Z.eqb_spec (d + 1) (size t)) as [E|E].
  - rewrite E, oa_probe_size by assumption. now rewrite Z.eqb_refl.
  - destruct (Z.eqb_spec (probe t h (d + 1)) h) as [E'|_]; [|reflexivity].
    exfalso. revert E'. apply oa_probe_ne_start; lia.
Qed.

(** One turn of the loop of [find_entry]. *)
Lemma oa_find_loop_step (fuel : nat) (k : ptr) (d : Z) :
  0 ≤ d < size t →
  find_entry_loop (S fuel) t k h (probe t h d) (here d) =
  if matches t k (here d) then Ret (Some (probe t h d))
  else if is_empty (here d) then Ret None
  else if d + 1 =? size t then Ret None
  else find_entry_loop fuel t k h (probe t h (d + 1)) (here (d + 1)).
Proof.
  intros Hd. simpl. unfold matches.
  destruct (is_active (here d)), (truthy (equals t (key (here d)) k)); simpl;
    try reflexivity;
    (destruct (is_empty (here d)); [reflexivity|]);
    rewrite oa_update_index_probe by assumption; simpl;
    rewrite oa_read_probe by assumption; simpl;
    (destruct (Z.eqb_spec (d + 1) (size t)) as [E|E];
     [ rewrite E, oa_probe_size by assumption; now rewrite Z.eqb_refl
     | destruct (Z.eqb_spec (probe t h (d + 1)) h) as [E'|_]; [|reflexivity];
       exfalso; revert E'; apply oa_probe_ne_start; lia ]).
Qed.

(** Both loops return when the bound covers the rest of the cycle. *)
Lemma oa_add_loop_total (entry : hm_entry_t) (fuel : nat) (d : Z) :
  0 ≤ d < size t → size t - d ≤ Z.of_nat fuel →
  ∃ r, add_entry_loop fuel t entry h (probe t h d) (here d) = Ret r.
Proof.
  revert d. induction fuel as [|fuel IH]; intros d Hd Hf; [lia|].
  rewrite oa_add_loop_step by assumption.
  destruct (is_active (here d)); [|eauto].
  destruct (truthy _); [eauto|].
  destruct (Z.eqb_spec (d + 1) (size t)) as [Es|Es]; [eauto|].
  apply IH; lia.
Qed.

Lemma oa_find_loop_total (k : ptr) (fuel : nat) (d : Z) :
  0 ≤ d < size t → size t - d ≤ Z.of_nat fuel →
  ∃ r, find_entry_loop fuel t k h (probe t h d) (here d) = Ret r.
Proof.
  revert d. induction fuel as [|fuel IH]; intros d Hd Hf; [lia|].
  rewrite oa_find_loop_step by assumption.
  destruct (matches t k (here d)); [eauto|].
  destruct (is_empty (here d)); [eauto|].
  destruct (Z.eqb_spec (d + 1) (size t)) as [Es|Es]; [eauto|].
  apply IH; lia.
Qed.

(** What a result of the loops says about the slots passed. *)
Lemma oa_add_loop_some (entry : hm_entry_t) (fuel : nat) (d i : Z) :
  0 ≤ d < size t →
  add_entry_loop fuel t entry h (probe t h d) (here d) = Ret (Some i) →
  ∃ n, d ≤ n < size t ∧ i = probe t h n ∧ is_active (here n) = false ∧
       ∀ j, d ≤ j < n → passes_add t (key entry) (here j) = true.
Proof.
  revert d. induction fuel as [|fuel IH]; intros d Hd; [discriminate|].
  rewrite oa_add_loop_step by assumption.
  destruct (is_active (here d)) eqn:Ha.
  - destruct (truthy (equals t (key (here d)) (key entry))) eqn:He; [discriminate|].
    destruct (Z.eqb_spec (d + 1) (size t)) as [Es|Es]; [discriminate|].
    intros H. apply IH in H as (n & Hn & Hi & Hna & Hp); [|lia].
    exists n. split; [lia|]. split; [assumption|]. split; [assumption|].
    intros j Hj. destruct (Z.eq_dec j d) as [->|Hne].
    + unfold passes_add. now rewrite Ha, He.
    + apply Hp. lia.
  - intros [= <-]. exists d. split; [lia|]. split; [reflexivity|].
    split; [assumption|]. intros j Hj. lia.
Qed.

Lemma oa_find_loop_some (k : ptr) (fuel : nat) (d i : Z) :
  0 ≤ d < size t →
  find_entry_loop fuel t k h (probe t h d) (here d) = Ret (Some i) →
  ∃ n, d ≤ n < size t ∧ i = probe t h n ∧ matches t k (here n) = true ∧
       ∀ j, d ≤ j < n → passes_find t k (here j) = true.
Proof.
  revert d. induction fuel as [|fuel IH]; intros d Hd; [discriminate|].
  rewrite oa_find_loop_step by assumption.
  destruct (matches t k (here d)) eqn:Hm.
  - intros [= <-]. exists d. split; [lia|]. split; [reflexivity|].
    split; [assumption|]. intros j Hj. lia.
  - destruct (is_empty (here d)) eqn:He; [discriminate|].
    destruct (Z.eqb_spec (d + 1) (size t)) as [Es|Es]; [discriminate|].
    intros H. apply IH in H as (n & Hn & Hi & Hna & Hp); [|lia].
    exists n. split; [lia|]. split; [assumption|]. split; [assumption|].
    intros j Hj. destruct (Z.eq_dec j d) as [->|Hne].
    + unfold passes_find, matches in *. rewrite He.
      destruct (is_active (here d)), (truthy (equals t (key (here d)) k));
        simpl in *; congruence.
    + apply Hp. lia.
Qed.

(** What the slots on the probe say about the result of the loops. *)
Lemma oa_add_loop_place (entry : hm_entry_t) (fuel : nat) (d n : Z) :
  0 ≤ d → d ≤ n < size t → n - d < Z.of_nat fuel →
  (∀ j, d ≤ j < n → passes_add t (key entry) (here j) = true) →
  is_active (here n) = false →
  add_entry_loop fuel t entry h (probe t h d) (here d) = Ret (Some (probe t h n)).
Proof.
  revert d. induction fuel as [|fuel IH]; intros d Hd Hn Hf Hp Hna; [lia|].
  rewrite oa_add_loop_step by lia.
  destruct (Z.eq_dec d n) as [->|Hne].
  - now rewrite Hna.
  - specialize (Hp d ltac:(lia)) as Hpd. unfold passes_add in Hpd.
    apply andb_prop in Hpd as [-> Hpd]. apply negb_true_iff in Hpd as ->.
    destruct (Z.eqb_spec (d + 1) (size t)) as [Es|Es]; [lia|].
    apply IH; try lia; [|assumption]. intros j Hj. apply Hp. lia.
Qed.

Lemma oa_add_loop_reject (entry : hm_entry_t) (fuel : nat) (d n : Z) :
  0 ≤ d → d ≤ n < size t → n - d < Z.of_nat fuel →
  (∀ j, d ≤ j < n → passes_add t (key entry) (here j) = true) →
  matches t (key entry) (here n) = true →
  add_entry_loop fuel t entry h (probe t h d) (here d) = Ret None.
Proof.
  revert d. induction fuel as [|fuel IH]; intros d Hd Hn Hf Hp Hm; [lia|].
  rewrite oa_add_loop_step by lia.
  destruct (Z.eq_dec d n) as [->|Hne].
  - unfold matches in Hm. apply andb_prop in Hm as [-> ->]. reflexivity.
  - specialize (Hp d ltac:(lia)) as Hpd. unfold passes_add in Hpd.
    apply andb_prop in Hpd as [-> Hpd]. apply negb_true_iff in Hpd as ->.
    destruct (Z.eqb_spec (d + 1) (size t)) as [Es|Es]; [lia|].
    apply IH; try lia; [|assumption]. intros j Hj. apply Hp. lia.
Qed.

Lemma oa_find_loop_hit (k : ptr) (fuel : nat) (d n : Z) :
  0 ≤ d → d ≤ n < size t → n - d < Z.of_nat fuel →
  (∀ j, d ≤ j < n → passes_find t k (here j) = true) →
  matches t k (here n) = true →
  find_entry_loop fuel t k h (probe t h d) (here d) = Ret (Some (probe t h n)).
Proof.
  revert d. induction fuel as [|fuel IH]; intros d Hd Hn Hf Hp Hm; [lia|].
  rewrite oa_find_loop_step by lia.
  destruct (Z.eq_dec d n) as [->|Hne].
  - now rewrite Hm.
  - specialize (Hp d ltac:(lia)) as Hpd. unfold passes_find in Hpd.
    apply andb_prop in Hpd as [Hpd He]. apply negb_true_iff in He.
    unfold matches. rewrite He.
    replace (is_active (here d) && truthy (equals t (key (here d)) k))
      with false
      by (destruct (is_active (here d)), (truthy (equals t (key (here d)) k));
          simpl in *; congruence).
    destruct (Z.eqb_spec (d + 1) (size t)) as [Es|Es]; [lia|].
    apply IH; try lia; [|assumption]. intros j Hj. apply Hp. lia.
Qed.

Lemma oa_add_loop_none (entry : hm_entry_t) (fuel : nat) (d : Z) :
  0 ≤ d < size t →
  add_entry_loop fuel t entry h (probe t h d) (here d) = Ret None →
  (∃ n, d ≤ n < size t ∧ matches t (key entry) (here n) = true) ∨
  (∀ j, d ≤ j < size t → passes_add t (key entry) (here j) = true).
Proof.
  revert d. induction fuel as [|fuel IH]; intros d Hd; [discriminate|].
  rewrite oa_add_loop_step by assumption.
  destruct (is_active (here d)) eqn:Ha; [|discriminate].
  destruct (truthy (equals t (key (here d)) (key entry))) eqn:He.
  - intros _. left. exists d. split; [lia|]. unfold matches. now rewrite Ha, He.
  - assert (Hpd : passes_add t (key entry) (here d) = true)
      by (unfold passes_add; now rewrite Ha, He).
    destruct (Z.eqb_spec (d + 1) (size t)) as [Es|Es].
    + intros _. right. intros j Hj. now replace j with d by lia.
    + intros H. apply IH in H as [(n & Hn & Hm)|Hall]; [| |lia].
      * left. exists n. split; [lia|assumption].
      * right. intros j Hj. destruct (Z.eq_dec j d) as [->|Hne];
          [assumption|apply Hall; lia].
Qed.

End Probe.

(** *** [add_entry], [find_entry] and [resize] always return *)

Lemma oa_well_sized_set_backing (t : hashmap) (b : list hm_entry_t) :
  well_sized t → length b = length (backing t) → well_sized (set_backing t b).
Proof. unfold well_sized. simpl. intros [? ?] ->. auto. Qed.

Lemma oa_probe_fuel (t : hashmap) : size t - 0 ≤ Z.of_nat (probe_fuel t).
Proof. unfold probe_fuel. lia. Qed.

(** [add_entry] either answers 0 and leaves the table alone, or stores the
    entry in the first slot of its probe that is not [ACTIVE]. *)
Lemma oa_add_entry_cases (t : hashmap) (e : hm_entry_t) :
  well_sized t →
  add_entry t e = Ret (t, 0) ∨
  ∃ n, 0 ≤ n < size t ∧
       is_active (slot t (probe t (home t (key e)) n)) = false ∧
       (∀ j, 0 ≤ j < n →
             passes_add t (key e) (slot t (probe t (home t (key e)) j)) = true) ∧
       add_entry t e
       = Ret (set_backing t
                (<[Z.to_nat (probe t (home t (key e)) n) := e]> (backing t)), 1).
Proof.
  intros Hws. destruct (oa_compress_home t (key e) Hws) as [Hc Hr].
  set (h := home t (key e)) in *.
  assert (Hunf : add_entry t e =
    r ← add_entry_loop (probe_fuel t) t e h (probe t h 0) (slot t (probe t h 0));
    match r with
    | None => Ret (t, 0)
    | Some index' => b ← write (backing t) index' e; Ret (set_backing t b, 1)
    end).
  { unfold add_entry. fold h. rewrite Hc, bind_Ret.
    rewrite (oa_read_slot t _ Hws Hr), bind_Ret.
    now rewrite (oa_probe_0 t h Hr). }
  rewrite Hunf.
  destruct (oa_add_loop_total t _ Hws Hr e (probe_fuel t) 0) as [r Hl];
    [lia|apply oa_probe_fuel|].
  rewrite Hl, bind_Ret. destruct r as [i|]; [|now left].
  apply oa_add_loop_some in Hl as (n & Hn & -> & Hna & Hp); try assumption; [|lia].
  right. exists n. split; [assumption|]. split; [assumption|].
  split; [assumption|].
  rewrite write_in_range; [reflexivity|].
  destruct Hws as [[Hpos _] ->]. now apply oa_probe_range.
Qed.

Lemma oa_add_entry_total (t : hashmap) (e : hm_entry_t) :
  well_sized t →
  ∃ t' r, add_entry t e = Ret (t', r) ∧
          size t' = size t ∧ nentries t' = nentries t ∧
          hashcode t' = hashcode t ∧ equals t' = equals t ∧ well_sized t'.
Proof.
  intros Hws. destruct (oa_add_entry_cases t e Hws) as [H|(n & _ & _ & _ & H)];
    rewrite H; eexists; eexists; (split; [reflexivity|]); simpl; auto 10.
  repeat (split; [reflexivity|]).
  apply oa_well_sized_set_backing; [assumption|apply length_insert].
Qed.

Lemma oa_find_entry_total (t : hashmap) (k : ptr) :
  well_sized t → ∃ r, find_entry t k = Ret r.
Proof.
  intros Hws. destruct (oa_compress_home t k Hws) as [Hc Hr].
  unfold find_entry. rewrite Hc, bind_Ret.
  rewrite (oa_read_slot t _ Hws Hr), bind_Ret.
  destruct (oa_find_loop_total t (home t k) Hws Hr k (probe_fuel t) 0)
    as [r Hl]; [lia|apply oa_probe_fuel|].
  rewrite oa_probe_0 in Hl by assumption. now exists r.
Qed.

Lemma oa_rehash_loop_total (old : list hm_entry_t) (n : nat) (i : nat)
    (t : hashmap) :
  well_sized t → (i + n ≤ length old)%nat →
  ∃ t', rehash_loop old n (Z.of_nat i) t = Ret t' ∧
        size t' = size t ∧ nentries t' = nentries t ∧
        hashcode t' = hashcode t ∧ equals t' = equals t ∧ well_sized t'.
Proof.
  revert i t. induction n as [|n IH]; intros i t Hws Hin.
  - exists t. simpl. auto 10.
  - destruct (lookup_lt_is_Some_2 old i) as [cur Hcur]; [lia|].
    assert (Hread : read old (Z.of_nat i) = Ret cur).
    { apply read_ret. rewrite Nat2Z.id. split; [lia|assumption]. }
    simpl rehash_loop. rewrite Hread. simpl.
    replace (Z.of_nat i + 1) with (Z.of_nat (S i)) by lia.
    destruct (is_active cur).
    + destruct (oa_add_entry_total t cur Hws)
        as (t1 & r & Hadd & Hs & Hn & Hh & He & Hws1).
      rewrite Hadd. simpl.
      destruct (IH (S i) t1 Hws1) as (t' & Hlo & Hs' & Hn' & Hh' & He' & Hws');
        [lia|].
      exists t'. rewrite Hlo. split; [reflexivity|].
      repeat (split; [congruence|]). assumption.
    + simpl. apply IH; [assumption|lia].
Qed.

Lemma oa_resize_total (t : hashmap) (new_size : Z) :
  well_sized t → 0 < new_size ≤ INT_MAX →
  ∃ t', resize t new_size true = Ret (t', 1) ∧
        size t' = new_size ∧ nentries t' = nentries t ∧
        hashcode t' = hashcode t ∧ equals t' = equals t ∧ well_sized t'.
Proof.
  intros Hws Hns. unfold resize. cbv zeta.
  set (t1 := mk_hashmap new_size (nentries t)
               (replicate (Z.to_nat new_size) zero_entry) (hashcode t) (equals t)).
  assert (Hws1 : well_sized t1).
  { unfold well_sized, t1. simpl. rewrite length_replicate. lia. }
  destruct Hws as [_ Hlen].
  destruct (oa_rehash_loop_total (backing t) (Z.to_nat (size t)) 0 t1 Hws1)
    as (t' & Hlo & H); [lia|].
  change (Z.of_nat 0) with 0 in Hlo. rewrite Hlo. simpl.
  exists t'. split; [reflexivity|]. exact H.
Qed.

Lemma oa_add_pair_total (t : hashmap) (k v : ptr) :
  well_sized t →
  ∃ t' r, add_pair t k v = Ret (t', r) ∧ size t' = size t ∧ well_sized t'.
Proof.
  intros Hws. unfold add_pair.
  destruct (oa_add_entry_total t (mk_entry k v ACTIVE) Hws)
    as (t1 & r & Hadd & Hs & _ & _ & _ & Hws1).
  rewrite Hadd. simpl. destruct (r =? 0).
  - exists t1, 0. auto.
  - eexists. eexists. split; [reflexivity|]. split; [exact Hs|].
    exact Hws1.
Qed.

(** The open-addressing half of C5. *)
Lemma oa_add_resizes (t : hashmap) (k v : ptr) (calloc_ok : bool) :
  well_sized t → size t * 2 ≤ INT_MAX →
  ∃ t' r, hashmap_add t k v calloc_ok = Ret (t', r) ∧
    well_sized t' ∧
    if load_exceeded (nentries t) (size t) then
      if calloc_ok then
        size t' = size t * 2 ∧
        ∃ t1, resize t (size t * 2) true = Ret (t1, 1) ∧
              size t1 = size t * 2 ∧
              add_pair t1 k v = Ret (t', r)
      else t' = t ∧ r = 0
    else size t' = size t ∧ add_pair t k v = Ret (t', r).
Proof.
  intros Hws Hdbl. unfold hashmap_add.
  assert (Hcast : cast_size_t (size t * 2) = size t * 2).
  { apply cast_size_t_small. destruct Hws as [[? ?] _].
    pose proof pow_31_64. unfold INT_MAX in *. lia. }
  rewrite Hcast.
  destruct (load_exceeded (nentries t) (size t)).
  - destruct calloc_ok.
    + destruct (oa_resize_total t (size t * 2) Hws)
        as (t1 & Hre & Hs1 & _ & _ & _ & Hws1).
      { destruct Hws as [[? ?] _]. lia. }
      rewrite Hre. simpl.
      destruct (oa_add_pair_total t1 k v Hws1) as (t' & r & Hadd & Hs' & Hws').
      exists t', r. rewrite Hadd. split; [reflexivity|]. split; [assumption|].
      split; [congruence|]. exists t1. auto.
    + simpl. exists t, 0. auto.
  - destruct (oa_add_pair_total t k v Hws) as (t' & r & Hadd & Hs' & Hws').
    exists t', r. auto.
Qed.

(** *** Insertion of a key the lookup finds *)

Lemma oa_probe_dist (t : hashmap) (h n : Z) :
  0 ≤ h < size t → 0 ≤ n < size t → (probe t h n - h) mod size t = n.
Proof.
  intros Hh Hn. destruct (oa_probe_cases t h n Hh Hn) as [[? E]|[? E]]; rewrite E.
  - replace (h + n - h) with n by lia. now apply Z.mod_small.
  - symmetry. apply (Z.mod_unique_pos _ _ (-1)); lia.
Qed.

Lemma oa_find_entry_some (t : hashmap) (k : ptr) (i : Z) :
  well_sized t → find_entry t k = Ret (Some i) →
  ∃ n, 0 ≤ n < size t ∧ i = probe t (home t k) n ∧
       matches t k (slot t i) = true ∧
       ∀ j, 0 ≤ j < n → passes_find t k (slot t (probe t (home t k) j)) = true.
Proof.
  intros Hws. destruct (oa_compress_home t k Hws) as [Hc Hr].
  unfold find_entry. rewrite Hc, bind_Ret.
  rewrite (oa_read_slot t _ Hws Hr), bind_Ret.
  intros Hl. rewrite <- (oa_probe_0 t (home t k) Hr) in Hl at 2 3.
  apply oa_find_loop_some in Hl as (n & Hn & -> & Hm & Hp); try assumption; [|lia].
  exists n. auto.
Qed.

(** When the lookup finds [k] and passes no tombstone on the way,
    [add_entry] of [k] answers 0. *)
Lemma oa_add_entry_found (t : hashmap) (k v : ptr) (i : Z) :
  well_sized t → find_entry t k = Ret (Some i) → ¬ tombstone_before t k i →
  add_entry t (mk_entry k v ACTIVE) = Ret (t, 0).
Proof.
  intros Hws Hf Hnt.
  destruct (oa_find_entry_some t k i Hws Hf) as (n & Hn & -> & Hm & Hp).
  destruct (oa_compress_home t k Hws) as [Hc Hr].
  assert (Hpa : ∀ j, 0 ≤ j < n →
            passes_add t k (slot t (probe t (home t k) j)) = true).
  { intros j Hj. specialize (Hp j Hj).
    assert (Hnd : state (slot t (probe t (home t k) j)) ≠ DELETED).
    { intros Hd. apply Hnt. exists j. split; [|assumption].
      rewrite oa_probe_dist by assumption. assumption. }
    unfold passes_find, passes_add, is_active, is_empty in *.
    destruct (state (slot t (probe t (home t k) j))); simpl in *;
      rewrite ?andb_true_r in Hp; congruence. }
  unfold add_entry. simpl key. rewrite Hc, bind_Ret.
  rewrite (oa_read_slot t _ Hws Hr), bind_Ret.
  rewrite <- (oa_probe_0 t (home t k) Hr) at 2 3.
  rewrite (oa_add_loop_reject t (home t k) Hws Hr (mk_entry k v ACTIVE)
             (probe_fuel t) 0 n); try assumption; try lia.
  - reflexivity.
  - unfold probe_fuel. lia.
Qed.

(** The open-addressing half of C2, without a resize. *)
Lemma oa_add_found (t : hashmap) (k v : ptr) (calloc_ok : bool) (i : Z) :
  well_sized t → find_entry t k = Ret (Some i) → ¬ tombstone_before t k i →
  load_exceeded (nentries t) (size t) && calloc_ok = false →
  hashmap_add t k v calloc_ok = Ret (t, 0).
Proof.
  intros Hws Hf Hnt Hl. unfold hashmap_add, add_pair.
  destruct (load_exceeded (nentries t) (size t)).
  - simpl in Hl. subst calloc_ok. reflexivity.
  - now rewrite (oa_add_entry_found t k v i).
Qed.

(** [add_entry] of a key that matches no live slot, in a table with a slot
    that is not [ACTIVE], stores the entry. *)
Lemma oa_add_entry_place (t : hashmap) (e : hm_entry_t) :
  well_sized t →
  (∀ i, 0 ≤ i < size t → matches t (key e) (slot t i) = false) →
  (∃ i, 0 ≤ i < size t ∧ is_active (slot t i) = false) →
  ∃ n, 0 ≤ n < size t ∧
       is_active (slot t (probe t (home t (key e)) n)) = false ∧
       (∀ j, 0 ≤ j < n →
             passes_add t (key e) (slot t (probe t (home t (key e)) j)) = true) ∧
       add_entry t e
       = Ret (set_backing t
                (<[Z.to_nat (probe t (home t (key e)) n) := e]> (backing t)), 1).
Proof.
  intros Hws Hfresh (i0 & Hi0 & Hna0).
  destruct (oa_add_entry_cases t e Hws) as [H0|H]; [|assumption].
  exfalso.
  destruct (oa_compress_home t (key e) Hws) as [Hc Hr].
  set (h := home t (key e)) in *.
  pose proof Hws as [[Hpos _] _].
  destruct (oa_add_loop_total t h Hws Hr e (probe_fuel t) 0) as [r Hl];
    [lia|apply oa_probe_fuel|].
  assert (r = None) as ->.
  { destruct r as [i|]; [|reflexivity]. exfalso.
    revert H0. unfold add_entry. fold h. rewrite Hc, bind_Ret.
    rewrite (oa_read_slot t _ Hws Hr), bind_Ret.
    rewrite <- (oa_probe_0 t h Hr) at 2 3. rewrite Hl, bind_Ret.
    apply oa_add_loop_some in Hl as (n & Hn & -> & _); try assumption; [|lia].
    rewrite write_in_range.
    - rewrite bind_Ret. intros [= _ ?].
    - destruct Hws as [_ ->]. now apply oa_probe_range. }
  apply oa_add_loop_none in Hl as [(n & Hn & Hm)|Hall]; try assumption; [| |lia].
  - rewrite Hfresh in Hm; [discriminate|]. now apply oa_probe_range.
  - destruct (oa_probe_surj t h i0 Hr Hi0) as (n0 & Hn0 & E).
    specialize (Hall n0 Hn0). rewrite E in Hall. unfold passes_add in Hall.
    rewrite Hna0 in Hall. discriminate.
Qed.

(** The slots of a table after [backing[p] = e]. *)
Lemma oa_slot_insert (t : hashmap) (p i : Z) (e : hm_entry_t) :
  well_sized t → 0 ≤ p < size t → 0 ≤ i < size t →
  slot (set_backing t (<[Z.to_nat p := e]> (backing t))) i
  = if decide (i = p) then e else slot t i.
Proof.
  intros [_ Hlen] Hp Hi. unfold slot. simpl.
  destruct (decide (i = p)) as [->|Hne].
  - rewrite list_lookup_insert_eq by lia. reflexivity.
  - rewrite list_lookup_insert_ne by lia. reflexivity.
Qed.

Lemma oa_active_state (e : hm_entry_t) :
  is_active e = true → state e = ACTIVE.
Proof. unfold is_active. destruct (state e); congruence. Qed.

Lemma oa_active_not_empty (e : hm_entry_t) :
  is_active e = true → is_empty e = false.
Proof. unfold is_active, is_empty. destruct (state e); congruence. Qed.

Lemma oa_default_good_keys (t : hashmap) :
  hashcode t = addr_hash → equals t = ref_eq → good_keys t.
Proof.
  intros Hh He. unfold good_keys, hash_of. rewrite Hh, He.
  repeat split; intros *; rewrite ?ref_eq_truthy; congruence.
Qed.

Lemma oa_no_duplicate_check (t : hashmap) :
  no_duplicate_liveb t (backing t) = true → no_duplicate_live t.
Proof.
  unfold no_duplicate_live, live_at.
  induction (backing t) as [|e0 l IH]; intros Hc i j e1 e2 Hne [Hi H1] [Hj H2];
    [discriminate|].
  simpl in Hc. apply andb_prop in Hc as [He Hc].
  rewrite forallb_forall in He.
  assert (Hin : ∀ (n : nat) (x : hm_entry_t), l !! n = Some x → In x l).
  { intros n x Hn. apply list_elem_of_In, list_elem_of_lookup. eauto. }
  destruct i as [|i], j as [|j]; simpl in Hi, Hj.
  - congruence.
  - injection Hi as ->. specialize (He e2 (Hin _ _ Hj)).
    apply andb_prop in He as [He _]. apply negb_true_iff in He.
    unfold clash in He. now rewrite H1, H2 in He.
  - injection Hj as ->. specialize (He e1 (Hin _ _ Hi)).
    apply andb_prop in He as [_ He]. apply negb_true_iff in He.
    unfold clash in He. now rewrite H1, H2 in He.
  - apply (IH Hc i j); auto.
Qed.

Lemma oa_reachable_check (t : hashmap) :
  reachable_liveb t = true → reachable_live t.
Proof.
  unfold reachable_liveb. intros Hc h n Hh Hn Ha Hhome j Hj.
  rewrite forallb_forall in Hc.
  specialize (Hc h). rewrite <- list_elem_of_In, elem_of_seqZ in Hc.
  specialize (Hc ltac:(lia)). rewrite forallb_forall in Hc.
  specialize (Hc n). rewrite <- list_elem_of_In, elem_of_seqZ in Hc.
  specialize (Hc ltac:(lia)). cbv zeta in Hc.
  rewrite Ha, Hhome, Z.eqb_refl in Hc. simpl in Hc.
  rewrite forallb_forall in Hc.
  specialize (Hc j). rewrite <- list_elem_of_In, elem_of_seqZ in Hc.
  specialize (Hc ltac:(lia)). now apply negb_true_iff in Hc.
Qed.

(** *** Lookup in a well-formed table *)

Lemma oa_slot_lookup (t : hashmap) (i : Z) :
  well_sized t → 0 ≤ i < size t →
  backing t !! Z.to_nat i = Some (slot t i).
Proof.
  intros [_ Hlen] Hi. unfold slot.
  destruct (lookup_lt_is_Some_2 (backing t) (Z.to_nat i)) as [x ->]; [lia|].
  reflexivity.
Qed.

Lemma oa_nodup_slots (t : hashmap) (i j : Z) :
  well_sized t → no_duplicate_live t →
  0 ≤ i < size t → 0 ≤ j < size t → i ≠ j →
  is_active (slot t i) = true → is_active (slot t j) = true →
  truthy (equals t (key (slot t i)) (key (slot t j))) = false.
Proof.
  intros Hws Hnd Hi Hj Hne Hai Haj.
  apply (Hnd (Z.to_nat i) (Z.to_nat j)); [lia| |];
    (split; [now apply oa_slot_lookup|assumption]).
Qed.

Lemma oa_nodup_intro (t : hashmap) :
  well_sized t →
  (∀ i j, 0 ≤ i < size t → 0 ≤ j < size t → i ≠ j →
     is_active (slot t i) = true → is_active (slot t j) = true →
     truthy (equals t (key (slot t i)) (key (slot t j))) = false) →
  no_duplicate_live t.
Proof.
  intros Hws H i j e1 e2 Hne [Hi Ha1] [Hj Ha2].
  pose proof (lookup_lt_Some _ _ _ Hi) as Hli.
  pose proof (lookup_lt_Some _ _ _ Hj) as Hlj.
  destruct Hws as [Hs Hlen].
  assert (E1 : slot t (Z.of_nat i) = e1)
    by (unfold slot; now rewrite Nat2Z.id, Hi).
  assert (E2 : slot t (Z.of_nat j) = e2)
    by (unfold slot; now rewrite Nat2Z.id, Hj).
  rewrite <- E1, <- E2. apply H; try lia; congruence.
Qed.

Lemma oa_matches_active (t : hashmap) (k : ptr) (e : hm_entry_t) :
  matches t k e = true →
  is_active e = true ∧ truthy (equals t (key e) k) = true.
Proof. unfold matches. intros H. now apply andb_prop in H. Qed.

Lemma oa_home_matches (t : hashmap) (k : ptr) (e : hm_entry_t) :
  good_keys t → matches t k e = true → home t (key e) = home t k.
Proof.
  intros (_ & _ & _ & Hh) Hm. apply oa_matches_active in Hm as [_ Hm].
  unfold home. now rewrite (Hh _ _ Hm).
Qed.

(** The lookup ends on the live slot that matches the key. *)
Lemma oa_find_hit (t : hashmap) (k : ptr) (i : Z) :
  wf t → 0 ≤ i < size t → matches t k (slot t i) = true →
  find_entry t k = Ret (Some i).
Proof.
  intros (Hws & Hg & Hnd & Hre) Hi Hm.
  destruct (oa_compress_home t k Hws) as [Hc Hr].
  destruct (oa_probe_surj t (home t k) i Hr Hi) as (n & Hn & <-).
  pose proof (oa_matches_active t k _ Hm) as [Ha He].
  assert (Hp : ∀ j, 0 ≤ j < n →
            passes_find t k (slot t (probe t (home t k) j)) = true).
  { intros j Hj.
    assert (Hne : is_empty (slot t (probe t (home t k) j)) = false).
    { apply (Hre (home t k) n); try assumption.
      now apply oa_home_matches. }
    unfold passes_find. rewrite Hne, andb_true_r.
    destruct (is_active (slot t (probe t (home t k) j))) eqn:Haj; [|reflexivity].
    destruct (truthy (equals t (key (slot t (probe t (home t k) j))) k)) eqn:Hej;
      [|reflexivity].
    exfalso. destruct Hg as (_ & Hsym & Htrans & _).
    assert (Hjn : probe t (home t k) j ≠ probe t (home t k) n).
    { intros E. apply oa_probe_inj in E; lia. }
    pose proof (oa_nodup_slots t _ _ Hws Hnd
                  (oa_probe_range t (home t k) j ltac:(lia))
                  (oa_probe_range t (home t k) n ltac:(lia)) Hjn Haj Ha) as Hd.
    rewrite (Htrans _ _ _ Hej (Hsym _ _ He)) in Hd. discriminate. }
  unfold find_entry. rewrite Hc, bind_Ret.
  rewrite (oa_read_slot t _ Hws Hr), bind_Ret.
  rewrite <- (oa_probe_0 t (home t k) Hr) at 2 3.
  apply oa_find_loop_hit; try assumption; try lia.
  unfold probe_fuel. lia.
Qed.

Lemma oa_find_miss (t : hashmap) (k : ptr) :
  well_sized t →
  (∀ i, 0 ≤ i < size t → matches t k (slot t i) = false) →
  find_entry t k = Ret None.
Proof.
  intros Hws Hno. destruct (oa_find_entry_total t k Hws) as [[i|] Hf];
    [|assumption].
  destruct (oa_find_entry_some t k i Hws Hf) as (n & Hn & -> & Hm & _).
  rewrite Hno in Hm; [discriminate|].
  apply oa_probe_range. destruct Hws as [[? _] _]. assumption.
Qed.

Lemma oa_get_hit (t : hashmap) (k : ptr) (i : Z) :
  wf t → 0 ≤ i < size t → matches t k (slot t i) = true →
  hashmap_get t k = Ret (value (slot t i)).
Proof.
  intros Hwf Hi Hm. unfold hashmap_get.
  rewrite (oa_find_hit t k i Hwf Hi Hm), bind_Ret.
  destruct Hwf as (Hws & _).
  rewrite (oa_read_slot t i Hws Hi), bind_Ret.
  apply oa_matches_active in Hm as [-> _]. reflexivity.
Qed.

Lemma oa_get_miss (t : hashmap) (k : ptr) :
  well_sized t →
  (∀ i, 0 ≤ i < size t → matches t k (slot t i) = false) →
  hashmap_get t k = Ret NULL.
Proof.
  intros Hws Hno. unfold hashmap_get.
  now rewrite (oa_find_miss t k Hws Hno), bind_Ret.
Qed.

(** *** [resize] keeps the live entries *)

Lemma oa_rehashed_skip (t s : hashmap) (m : Z) :
  rehashed t s m → 0 ≤ m → is_active (slot t m) = false →
  rehashed t s (m + 1).
Proof.
  intros (Hws & Hh & He & Hn & Htf & Hre & Hnd & Hlen & Hcor) Hm Hna.
  repeat (split; [assumption|]). split; [lia|].
  intros e. rewrite Hcor. split.
  - intros (j & Hj & Hjt & Hs & Ha). exists j. repeat split; try assumption; lia.
  - intros (j & Hj & Hjt & Hs & Ha). exists j. repeat split; try assumption; try lia.
    destruct (Z.eq_dec j m) as [->|Hne]; [congruence|lia].
Qed.

Lemma oa_rehashed_step (t s : hashmap) (m : Z) :
  wf t → rehashed t s m → 0 ≤ m < size t → size t < size s →
  is_active (slot t m) = true →
  ∃ s', add_entry s (slot t m) = Ret (s', 1) ∧ size s' = size s ∧
        rehashed t s' (m + 1).
Proof.
  intros (Hwst & Hgt & Hndt & _)
         (Hws & Hh & He & Hn & Htf & Hre & Hnd & Hlen & Hcor) Hm Hsz Hact.
  set (cur := slot t m) in *.
  pose proof Hws as [[Hpos _] Hblen].
  (* the key of [cur] matches no live slot of [s] *)
  assert (Hfresh : ∀ i, 0 ≤ i < size s →
            is_active (slot s i) = true →
            truthy (equals s (key (slot s i)) (key cur)) = false).
  { intros i Hi Ha.
    destruct (proj1 (Hcor (slot s i))) as (j & Hj & Hjt & Hs & _); [eauto|].
    rewrite He, <- Hs. apply oa_nodup_slots; try assumption; try lia.
    - now rewrite Hs.
  }
  assert (Hfresh' : ∀ i, 0 ≤ i < size s → matches s (key cur) (slot s i) = false).
  { intros i Hi. unfold matches.
    destruct (is_active (slot s i)) eqn:Ha; [|reflexivity].
    now rewrite Hfresh. }
  (* some slot of [s] is free *)
  assert (Hfree : ∃ i, 0 ≤ i < size s ∧ is_active (slot s i) = false).
  { destruct (filter_short_has_gap (λ e, is_active e = true) (backing s))
      as (i & x & Hi & Hx); [unfold live_entries in Hlen; lia|].
    pose proof (lookup_lt_Some _ _ _ Hi).
    exists (Z.of_nat i). split; [lia|]. unfold slot. rewrite Nat2Z.id, Hi. simpl.
    now destruct (is_active x). }
  destruct (oa_add_entry_place s cur Hws Hfresh' Hfree)
    as (n & Hn' & Hnap & Hpass & Hadd).
  set (h := home s (key cur)) in *.
  destruct (oa_compress_home s (key cur) Hws) as [_ Hr]. fold h in Hr.
  set (p := probe s h n) in *.
  assert (Hp : 0 ≤ p < size s) by now apply oa_probe_range.
  set (s' := set_backing s (<[Z.to_nat p := cur]> (backing s))) in *.
  assert (Hslot : ∀ i, 0 ≤ i < size s →
            slot s' i = if decide (i = p) then cur else slot s i)
    by (intros i Hi; now apply oa_slot_insert).
  assert (Hws' : well_sized s')
    by (apply oa_well_sized_set_backing; [assumption|apply length_insert]).
  exists s'. split; [assumption|]. split; [reflexivity|].
  split; [assumption|]. repeat (split; [assumption|]).
  split; [|split; [|split; [|split]]].
  - (* no tombstone *)
    intros i Hi. change (size s') with (size s) in Hi. rewrite Hslot by assumption.
    destruct (decide (i = p)); [|now apply Htf].
    rewrite (oa_active_state cur Hact). discriminate.
  - (* live entries stay reachable *)
    intros h' n' Hh' Hn'' Ha' Hhome j Hj.
    change (size s') with (size s) in *.
    change (probe s' h' n') with (probe s h' n') in *.
    change (probe s' h' j) with (probe s h' j).
    change (home s' (key (slot s' (probe s h' n'))))
      with (home s (key (slot s' (probe s h' n')))) in Hhome.
    pose proof (oa_probe_range s h' n' Hpos) as Hrn.
    pose proof (oa_probe_range s h' j Hpos) as Hrj.
    rewrite Hslot in Ha', Hhome by assumption. rewrite Hslot by assumption.
    destruct (decide (probe s h' j = p)) as [_|Hjp];
      [now apply oa_active_not_empty|].
    destruct (decide (probe s h' n' = p)) as [Hnp|Hnp].
    + subst h'. fold h in Hnp, Hjp |- *.
      assert (n' = n) as -> by (apply (oa_probe_inj s h); assumption).
      apply oa_active_not_empty.
      specialize (Hpass j Hj). unfold passes_add in Hpass.
      now apply andb_prop in Hpass as [? _].
    + now apply (Hre h' n').
  - (* no duplicate *)
    apply oa_nodup_intro; [assumption|].
    intros i j Hi Hj Hne. change (size s') with (size s) in *.
    change (equals s') with (equals s).
    rewrite !Hslot by assumption.
    destruct (decide (i = p)) as [->|Hip], (decide (j = p)) as [->|Hjp].
    + congruence.
    + intros _ Haj.
      destruct (truthy (equals s (key cur) (key (slot s j)))) eqn:E; [|reflexivity].
      destruct Hgt as (_ & Hsym & _). rewrite He in E. apply Hsym in E.
      rewrite <- He in E. rewrite Hfresh in E by assumption. discriminate.
    + intros Hai _. now apply Hfresh.
    + now apply oa_nodup_slots.
  - (* count *)
    unfold live_entries in *. simpl.
    pose proof (filter_insert_length (λ e, is_active e = true) (backing s)
                  (Z.to_nat p) cur). lia.
  - (* the live entries are those of the slots up to [m] *)
    intros e. change (size s') with (size s). split.
    + intros (i & Hi & Hs & Ha). rewrite Hslot in Hs by assumption.
      destruct (decide (i = p)) as [->|Hip].
      * exists m. subst e. repeat split; try lia. assumption.
      * destruct (proj1 (Hcor e)) as (j & Hj & Hjt & Hsj & _); [eauto|].
        exists j. repeat split; try assumption; lia.
    + intros (j & Hj & Hjt & Hs & Ha).
      destruct (Z.eq_dec j m) as [->|Hjm].
      * exists p. rewrite Hslot by assumption.
        destruct (decide (p = p)); [|congruence]. auto.
      * destruct (proj2 (Hcor e)) as (i & Hi & Hsi & _).
        { exists j. repeat split; try assumption; lia. }
        exists i. rewrite Hslot by assumption.
        destruct (decide (i = p)) as [->|_]; [|auto].
        subst e. fold p in Hnap. congruence.
Qed.

Lemma oa_rehash_loop_spec (t s : hashmap) (n : nat) (m : nat) :
  wf t → rehashed t s (Z.of_nat m) → size t < size s →
  Z.of_nat (m + n) ≤ size t →
  ∃ s', rehash_loop (backing t) n (Z.of_nat m) s = Ret s' ∧
        size s' = size s ∧ rehashed t s' (Z.of_nat (m + n)).
Proof.
  revert m s. induction n as [|n IH]; intros m s Hwf Hrh Hsz Hmn.
  - exists s. simpl. rewrite Nat.add_0_r. auto.
  - pose proof Hwf as (Hwst & _).
    simpl rehash_loop.
    rewrite (oa_read_slot t (Z.of_nat m) Hwst) by lia. rewrite bind_Ret.
    replace (Z.of_nat m + 1) with (Z.of_nat (S m)) by lia.
    replace (m + S n)%nat with (S m + n)%nat by lia.
    destruct (is_active (slot t (Z.of_nat m))) eqn:Ha.
    + destruct (oa_rehashed_step t s (Z.of_nat m) Hwf Hrh) as (s1 & Hadd & Hs1 & Hrh1);
        [lia|assumption..|].
      rewrite Hadd. simpl.
      replace (Z.of_nat m + 1) with (Z.of_nat (S m)) in Hrh1 by lia.
      destruct (IH (S m) s1 Hwf Hrh1) as (s' & Hlo & Hs' & Hrh'); [lia..|].
      exists s'. split; [assumption|]. split; [congruence|assumption].
    + rewrite bind_Ret.
      pose proof (oa_rehashed_skip t s (Z.of_nat m) Hrh ltac:(lia) Ha) as Hrh1.
      replace (Z.of_nat m + 1) with (Z.of_nat (S m)) in Hrh1 by lia.
      apply IH; try assumption. lia.
Qed.

Lemma oa_slot_replicate (t : hashmap) (n : nat) (i : Z) :
  backing t = replicate n zero_entry → slot t i = zero_entry.
Proof.
  intros Hb. unfold slot. rewrite Hb.
  destruct (replicate n zero_entry !! Z.to_nat i) as [x|] eqn:E; [|reflexivity].
  apply lookup_replicate in E as [-> _]. reflexivity.
Qed.

Lemma oa_filter_replicate_zero (n : nat) :
  filter (λ e, is_active e = true) (replicate n zero_entry) = [].
Proof.
  induction n as [|n IH]; [reflexivity|].
  simpl. rewrite filter_cons.
  destruct (decide (is_active zero_entry = true)); [discriminate|assumption].
Qed.

(** A successful [resize] of a well-formed table to a larger size. *)
Lemma oa_resize_spec (t : hashmap) (new_size : Z) :
  wf t → size t < new_size ≤ INT_MAX →
  ∃ t', resize t new_size true = Ret (t', 1) ∧
        size t' = new_size ∧ rehashed t t' (size t).
Proof.
  intros Hwf Hns. pose proof Hwf as (Hwst & _). pose proof Hwst as [[Hpos _] Hlen].
  unfold resize. cbv zeta.
  set (t1 := mk_hashmap new_size (nentries t)
               (replicate (Z.to_nat new_size) zero_entry) (hashcode t) (equals t)).
  assert (Hslot1 : ∀ i, slot t1 i = zero_entry)
    by (intros i; now apply (oa_slot_replicate t1 (Z.to_nat new_size))).
  assert (Hws1 : well_sized t1).
  { unfold well_sized, t1. simpl. rewrite length_replicate. lia. }
  assert (Hrh : rehashed t t1 (Z.of_nat 0)).
  { split; [assumption|]. repeat (split; [reflexivity|]).
    split; [|split; [|split; [|split]]].
    - intros i _. now rewrite Hslot1.
    - intros h n _ _ Ha. now rewrite Hslot1 in Ha.
    - apply oa_nodup_intro; [assumption|]. intros i j _ _ _ Ha.
      now rewrite Hslot1 in Ha.
    - unfold live_entries, t1. simpl.
      rewrite oa_filter_replicate_zero. simpl. lia.
    - intros e. split.
      + intros (i & _ & Hs & Ha). rewrite Hslot1 in Hs. now subst e.
      + intros (j & Hj & _). lia. }
  destruct (oa_rehash_loop_spec t t1 (Z.to_nat (size t)) 0 Hwf Hrh)
    as (t' & Hlo & Hs' & Hrh'); [simpl; lia|lia|].
  change (Z.of_nat 0) with 0 in Hlo. rewrite Hlo, bind_Ret.
  exists t'. split; [reflexivity|]. split; [assumption|].
  replace (Z.of_nat (0 + Z.to_nat (size t))) with (size t) in Hrh' by lia.
  assumption.
Qed.

Lemma oa_good_keys_ext (t t' : hashmap) :
  hashcode t' = hashcode t → equals t' = equals t → good_keys t → good_keys t'.
Proof.
  intros Hh He. unfold good_keys, hash_of. rewrite Hh, He. auto.
Qed.

Lemma oa_rehashed_wf (t s : hashmap) (m : Z) :
  good_keys t → rehashed t s m → wf s.
Proof.
  intros Hg (Hws & Hh & He & _ & _ & Hre & Hnd & _).
  split; [assumption|]. split; [now apply (oa_good_keys_ext t)|]. auto.
Qed.

(** [hashmap_get] answers the same on a table and on its image under a
    successful [resize]. *)
Lemma oa_rehashed_get (t s : hashmap) (k : ptr) :
  wf t → rehashed t s (size t) →
  hashmap_get s k = hashmap_get t k.
Proof.
  intros Hwf Hrh. pose proof Hwf as (Hwst & Hgt & _).
  pose proof (oa_rehashed_wf t s _ Hgt Hrh) as Hwfs.
  destruct Hrh as (Hws & Hh & He & _ & _ & _ & _ & _ & Hcor).
  destruct (oa_find_entry_total t k Hwst) as [[i|] Hf].
  - destruct (oa_find_entry_some t k i Hwst Hf) as (n & Hn & Hi & Hm & _).
    assert (Hir : 0 ≤ i < size t).
    { subst i. apply oa_probe_range. destruct Hwst as [[? _] _]. assumption. }
    pose proof (oa_matches_active t k _ Hm) as [Ha Hek].
    destruct (proj2 (Hcor (slot t i))) as (i' & Hi' & Hs' & _).
    { exists i. repeat split; try assumption; lia. }
    rewrite (oa_get_hit t k i Hwf Hir Hm).
    rewrite (oa_get_hit s k i' Hwfs Hi'); [now rewrite Hs'|].
    unfold matches. rewrite Hs', He. exact Hm.
  - assert (Hno : ∀ i, 0 ≤ i < size t → matches t k (slot t i) = false).
    { intros i Hi. destruct (matches t k (slot t i)) eqn:Hm; [|reflexivity].
      rewrite (oa_find_hit t k i Hwf Hi Hm) in Hf. discriminate. }
    rewrite (oa_get_miss t k Hwst Hno).
    apply oa_get_miss; [assumption|].
    intros i Hi. destruct (matches s k (slot s i)) eqn:Hm; [|reflexivity].
    pose proof (oa_matches_active s k _ Hm) as [Ha _].
    destruct (proj1 (Hcor (slot s i))) as (j & Hj & Hjt & Hs & _); [eauto|].
    rewrite <- (Hno j) by lia. unfold matches in *.
    now rewrite Hs, <- He.
Qed.

Lemma oa_rehashed_present (t s : hashmap) (k : ptr) :
  rehashed t s (size t) → well_sized t → present t k → present s k.
Proof.
  intros (Hws & Hh & He & _ & _ & _ & _ & _ & Hcor) Hwst (i & Hi & Hm).
  pose proof (oa_matches_active t k _ Hm) as [Ha _].
  destruct (proj2 (Hcor (slot t i))) as (i' & Hi' & Hs' & _).
  { exists i. repeat split; try assumption; lia. }
  exists i'. split; [assumption|]. unfold matches in *. now rewrite Hs', He.
Qed.

(** The open-addressing half of C2. *)
Lemma oa_add_present (t : hashmap) (k v : ptr) (calloc_ok : bool) (i : Z) :
  wf t → size t * 2 ≤ INT_MAX →
  0 ≤ i < size t → matches t k (slot t i) = true →
  (load_exceeded (nentries t) (size t) = false → ¬ tombstone_before t k i) →
  ∃ t', hashmap_add t k v calloc_ok = Ret (t', 0) ∧
    nentries t' = nentries t ∧
    (∀ k', hashmap_get t' k' = hashmap_get t k') ∧
    size t' = (if load_exceeded (nentries t) (size t) && calloc_ok
               then size t * 2 else size t) ∧
    (load_exceeded (nentries t) (size t) && calloc_ok = false → t' = t).
Proof.
  intros Hwf Hdbl Hi Hm Hnt. pose proof Hwf as (Hwst & Hgt & _).
  pose proof Hwst as [[Hpos _] _].
  destruct (load_exceeded (nentries t) (size t) && calloc_ok) eqn:Hl.
  - apply andb_prop in Hl as [Hle ->]. unfold hashmap_add. rewrite Hle.
    assert (Hcast : cast_size_t (size t * 2) = size t * 2).
    { apply cast_size_t_small. pose proof pow_31_64. unfold INT_MAX in *. lia. }
    rewrite Hcast.
    destruct (oa_resize_spec t (size t * 2) Hwf) as (t1 & Hre & Hs1 & Hrh); [lia|].
    rewrite Hre, bind_Ret. cbv beta iota. change (1 =? 0) with false. cbv iota.
    pose proof (oa_rehashed_wf t t1 _ Hgt Hrh) as Hwf1.
    destruct (oa_rehashed_present t t1 k Hrh Hwst) as (i1 & Hi1 & Hm1);
      [now exists i|].
    pose proof Hrh as (Hws1 & _ & _ & Hn1 & Htf1 & _).
    unfold add_pair.
    rewrite (oa_add_entry_found t1 k v i1 Hws1 (oa_find_hit t1 k i1 Hwf1 Hi1 Hm1)).
    + rewrite bind_Ret. cbv beta iota. change (0 =? 0) with true. cbv iota.
      exists t1. split; [reflexivity|]. split; [assumption|].
      split; [|split; [assumption|discriminate]].
      intros k'. now apply oa_rehashed_get.
    + intros (j & Hj & Hd). apply (Htf1 (probe t1 (home t1 k) j)); [|assumption].
      apply oa_probe_range. destruct Hws1 as [[? _] _]. assumption.
  - destruct (load_exceeded (nentries t) (size t)) eqn:Hle.
    + simpl in Hl. subst calloc_ok. exists t. split; [|auto].
      unfold hashmap_add, resize. rewrite Hle. reflexivity.
    + exists t. split; [|auto].
      apply (oa_add_found t k v calloc_ok i); try assumption.
      * now apply oa_find_hit.
      * now apply Hnt.
      * now rewrite Hle.
Qed.

Lemma oa_default_wf : wf OpenAddrRuns.default_table.
Proof.
  split; [split; [unfold INT_MAX; simpl; lia|reflexivity]|].
  split; [now apply oa_default_good_keys|].
  split; [apply oa_no_duplicate_check; vm_compute; reflexivity|].
  apply oa_reachable_check; vm_compute; reflexivity.
Qed.

(** The assertions of [test_add_int] hold in the model. *)
Lemma oa_test_add_int :
  (t ← run OpenAddrRuns.test_add_int_ops OpenAddrRuns.default_table;
   Ret (hashmap_get t 10, hashmap_get t 12, hashmap_get t 20, hashmap_size t))
  = Ret (Ret 0xCAFE, Ret 0xBABE, Ret 0xDEAD, 3).
Proof. vm_compute. reflexivity. Qed.

(** *** Insertion followed by lookup *)

Lemma oa_contains_of_get (t : hashmap) (k v : ptr) :
  hashmap_get t k = Ret v →
  hashmap_contains t k = Ret (if v =? NULL then 0 else 1).
Proof. intros Hg. unfold hashmap_contains. now rewrite Hg. Qed.

Lemma oa_add_entry_get (t t' : hashmap) (k v : ptr) :
  well_sized t → truthy (equals t k k) = true →
  add_entry t (mk_entry k v ACTIVE) = Ret (t', 1) →
  hashmap_get t' k = Ret v.
Proof.
  intros Hws Hrefl Hadd.
  destruct (oa_add_entry_cases t (mk_entry k v ACTIVE) Hws)
    as [H0|(n & Hn & Hna & Hp & H1)]; [rewrite H0 in Hadd; now inversion Hadd|].
  rewrite H1 in Hadd. injection Hadd as <-. simpl key in *.
  destruct (oa_compress_home t k Hws) as [Hc Hr].
  pose proof Hws as [[Hpos _] _].
  set (h := home t k) in *. set (p := probe t h n) in *.
  assert (Hpr : 0 ≤ p < size t) by now apply oa_probe_range.
  set (t' := set_backing t (<[Z.to_nat p := mk_entry k v ACTIVE]> (backing t))).
  assert (Hws' : well_sized t')
    by (apply oa_well_sized_set_backing; [assumption|apply length_insert]).
  assert (Hslot : ∀ i, 0 ≤ i < size t →
            slot t' i = if decide (i = p) then mk_entry k v ACTIVE else slot t i)
    by (intros i Hi; now apply oa_slot_insert).
  assert (Hfind : find_entry t' k = Ret (Some p)).
  { unfold find_entry.
    change (compress t' (hash_of t' k)) with (compress t (hash_of t k)).
    rewrite Hc, bind_Ret.
    rewrite (oa_read_slot t' h Hws' Hr), bind_Ret.
    rewrite <- (oa_probe_0 t' h Hr) at 2 3.
    change p with (probe t' h n).
    apply oa_find_loop_hit; try assumption; try lia.
    - unfold probe_fuel. simpl. lia.
    - intros j Hj. change (probe t' h j) with (probe t h j).
      rewrite Hslot by now apply oa_probe_range.
      destruct (decide (probe t h j = p)) as [E|_].
      + apply oa_probe_inj in E; try assumption; lia.
      + specialize (Hp j Hj). unfold passes_add, passes_find in *.
        apply andb_prop in Hp as [Ha He].
        change (equals t') with (equals t). rewrite Ha, He.
        now rewrite (oa_active_not_empty _ Ha).
    - change (probe t' h n) with p. rewrite Hslot by assumption.
      destruct (decide (p = p)); [|congruence].
      unfold matches. simpl. exact Hrefl. }
  unfold hashmap_get. rewrite Hfind, bind_Ret.
  rewrite (oa_read_slot t' p Hws' Hpr), bind_Ret, Hslot by assumption.
  destruct (decide (p = p)); [reflexivity|congruence].
Qed.

Lemma oa_get_set_nentries (t : hashmap) (n : Z) (k : ptr) :
  hashmap_get (set_nentries t n) k = hashmap_get t k.
Proof.
  assert (Hloop : ∀ fuel flag i cur,
            find_entry_loop fuel (set_nentries t n) k flag i cur
            = find_entry_loop fuel t k flag i cur).
  { induction fuel as [|fuel IH]; intros flag i cur; [reflexivity|].
    simpl. destruct (_ || _); [|reflexivity].
    destruct (is_empty cur); [reflexivity|].
    change (update_index (set_nentries t n) i) with (update_index t i).
    destruct (update_index t i) as [i'| |]; simpl; try reflexivity.
    destruct (read (backing t) i') as [cur'| |]; simpl; try reflexivity.
    destruct (i' =? flag); [reflexivity|apply IH]. }
  unfold hashmap_get, find_entry.
  change (compress (set_nentries t n) (hash_of (set_nentries t n) k))
    with (compress t (hash_of t k)).
  change (backing (set_nentries t n)) with (backing t).
  change (probe_fuel (set_nentries t n)) with (probe_fuel t).
  destruct (compress t (hash_of t k)) as [i| |]; [|reflexivity..].
  rewrite !bind_Ret.
  destruct (read (backing t) i) as [cur| |]; [|reflexivity..].
  rewrite !bind_Ret, Hloop. reflexivity.
Qed.

Lemma oa_add_pair_get (t t' : hashmap) (k v : ptr) :
  well_sized t → truthy (equals t k k) = true →
  add_pair t k v = Ret (t', 1) →
  hashmap_get t' k = Ret v.
Proof.
  intros Hws Hrefl. unfold add_pair.
  destruct (add_entry t (mk_entry k v ACTIVE)) as [[t1 r]| |] eqn:Hadd;
    [|discriminate..].
  rewrite bind_Ret. cbv beta iota.
  destruct (Z.eqb_spec r 0) as [->|Hr]; [intros [= _ ?]|].
  intros [= <-]. rewrite oa_get_set_nentries.
  destruct (oa_add_entry_cases t (mk_entry k v ACTIVE) Hws)
    as [H0|(n & _ & _ & _ & H1)].
  - rewrite H0 in Hadd. injection Hadd as _ <-. congruence.
  - rewrite H1 in Hadd. injection Hadd as <- _.
    apply (oa_add_entry_get t); assumption.
Qed.

(** After a successful [hashmap_add] of [k] and [v], [hashmap_get] of [k]
    returns [v]; [hashmap_contains] answers 1 exactly when [v] is not
    [NULL]. *)
Lemma oa_add_get (t t' : hashmap) (k v : ptr) (calloc_ok : bool) :
  well_sized t → size t * 2 ≤ INT_MAX → truthy (equals t k k) = true →
  hashmap_add t k v calloc_ok = Ret (t', 1) →
  hashmap_get t' k = Ret v ∧
  hashmap_contains t' k = Ret (if v =? NULL then 0 else 1).
Proof.
  intros Hws Hdbl Hrefl Hadd.
  assert (Hg : hashmap_get t' k = Ret v).
  { revert Hadd. unfold hashmap_add.
    assert (Hcast : cast_size_t (size t * 2) = size t * 2).
    { apply cast_size_t_small. destruct Hws as [[? ?] _].
      pose proof pow_31_64. unfold INT_MAX in *. lia. }
    rewrite Hcast.
    destruct (load_exceeded (nentries t) (size t)).
    - destruct calloc_ok; [|intros [= _ ?]].
      destruct (oa_resize_total t (size t * 2) Hws)
        as (t1 & Hre & _ & _ & _ & He1 & Hws1).
      { destruct Hws as [[? ?] _]. lia. }
      rewrite Hre, bind_Ret. cbv beta iota. change (1 =? 0) with false.
      cbv iota. apply oa_add_pair_get; [assumption|]. now rewrite He1.
    - now apply oa_add_pair_get. }
  split; [assumption|]. now apply oa_contains_of_get.
Qed.

(** *** [resize] and the answers of [hashmap_get] *)

Lemma oa_resize_preserves_get (t : hashmap) (new_size : Z) :
  wf t → size t < new_size ≤ INT_MAX →
  ∃ t', resize t new_size true = Ret (t', 1) ∧
        ∀ k, hashmap_get t' k = hashmap_get t k.
Proof.
  intros Hwf Hns.
  destruct (oa_resize_spec t new_size Hwf Hns) as (t' & Hre & _ & Hrh).
  exists t'. split; [assumption|]. intros k. now apply oa_rehashed_get.
Qed.

End OpenAddrFacts.

(** * The properties of the specification, one by one *)

(** C1, evaluated on both tables: [hashmap_add] of key 10 with the value
    [NULL] answers 1 on a default table, [hashmap_get] of 10 then gives the
    stored [NULL], and [hashmap_contains] of 10 answers 0. *)
Theorem add_null_value_not_contained :
  (∃ t, Chained.hashmap_add ChainedRuns.default_table 10 NULL true true
          = Ret (t, 1) ∧
        Chained.nodes t = [Chained.mk_entry 10 NULL] ∧
        Chained.hashmap_get t 10 = Ret NULL ∧
        Chained.hashmap_contains t 10 = Ret 0) ∧
  (∃ t, OpenAddr.hashmap_add OpenAddrRuns.default_table 10 NULL true
          = Ret (t, 1) ∧
        OpenAddr.live_at t 0 (OpenAddr.mk_entry 10 NULL OpenAddr.ACTIVE) ∧
        OpenAddr.hashmap_get t 10 = Ret NULL ∧
        OpenAddr.hashmap_contains t 10 = Ret 0).
Proof.
  split.
  - assert (Hobs :
      (r ← Chained.hashmap_add ChainedRuns.default_table 10 NULL true true;
       Ret (r.2, Chained.nodes r.1, Chained.hashmap_get r.1 10,
            Chained.hashmap_contains r.1 10))
      = Ret (1, [Chained.mk_entry 10 NULL], Ret NULL, Ret 0))
      by (vm_compute; reflexivity).
    apply bind_ret_inv in Hobs as ([t r] & Hadd & Hv).
    simpl in Hv. injection Hv as Hr Hn Hg Hc. subst r.
    exists t. repeat (split; [assumption|]). assumption.
  - assert (Hobs :
      (r ← OpenAddr.hashmap_add OpenAddrRuns.default_table 10 NULL true;
       Ret (r.2, OpenAddr.backing r.1 !! 0%nat, OpenAddr.hashmap_get r.1 10,
            OpenAddr.hashmap_contains r.1 10))
      = Ret (1, Some (OpenAddr.mk_entry 10 NULL OpenAddr.ACTIVE),
             Ret NULL, Ret 0))
      by (vm_compute; reflexivity).
    apply bind_ret_inv in Hobs as ([t r] & Hadd & Hv).
    simpl in Hv. injection Hv as Hr Hb Hg Hc. subst r.
    exists t. split; [assumption|]. split; [|split; assumption].
    split; [assumption|reflexivity].
Qed.

(** C2, as stated, fails: in the chaining table a rejected duplicate insert
    that meets the load threshold leaves the table with twice the capacity;
    in the open-addressing table a second insert of key 20, made after the
    removal of the colliding key 10, is accepted and replaces the value
    [hashmap_get] returns. *)
Lemma duplicate_insert_changes_table :
  (∃ t t', Chained.run ChainedRuns.load_ops ChainedRuns.default_table = Ret t ∧
           Chained.hashmap_get t 1 = Ret 1 ∧
           Chained.hashmap_add t 1 9 true true = Ret (t', 0) ∧
           Chained.size t = 10 ∧ Chained.size t' = 20) ∧
  (∃ t t', OpenAddr.run OpenAddrRuns.collide_ops OpenAddrRuns.default_table
             = Ret t ∧
           OpenAddr.hashmap_get t 20 = Ret 2 ∧
           OpenAddr.hashmap_add t 20 3 true = Ret (t', 1) ∧
           OpenAddr.hashmap_get t' 20 = Ret 3 ∧
           OpenAddr.hashmap_size t = 1 ∧ OpenAddr.hashmap_size t' = 2).
Proof.
  split.
  - assert (Hobs :
      (t ← Chained.run ChainedRuns.load_ops ChainedRuns.default_table;
       r ← Chained.hashmap_add t 1 9 true true;
       Ret (Chained.hashmap_get t 1, r.2, Chained.size t, Chained.size r.1))
      = Ret (Ret 1, 0, 10, 20)) by (vm_compute; reflexivity).
    apply bind_ret_inv in Hobs as (t & Hrun & Hobs).
    apply bind_ret_inv in Hobs as ([t' r] & Hadd & Hv).
    simpl in Hv. injection Hv as Hg Hr Hs Hs'. subst r.
    exists t, t'. repeat (split; [assumption|]). assumption.
  - assert (Hobs :
      (t ← OpenAddr.run OpenAddrRuns.collide_ops OpenAddrRuns.default_table;
       r ← OpenAddr.hashmap_add t 20 3 true;
       Ret (OpenAddr.hashmap_get t 20, r.2, OpenAddr.hashmap_get r.1 20,
            OpenAddr.hashmap_size t, OpenAddr.hashmap_size r.1))
      = Ret (Ret 2, 1, Ret 3, 1, 2)) by (vm_compute; reflexivity).
    apply bind_ret_inv in Hobs as (t & Hrun & Hobs).
    apply bind_ret_inv in Hobs as ([t' r] & Hadd & Hv).
    simpl in Hv. injection Hv as Hg Hr Hg' Hs Hs'. subst r.
    exists t, t'. repeat (split; [assumption|]). assumption.
Qed.

(** C2, amended: in a well-formed table (distinct live keys, every entry
    where the lookup of its key finds it) [hashmap_add] of a key that is
    present answers 0 and leaves the count and the answer of [hashmap_get]
    for every key as they were, so the value stored under the key stays
    retrievable; the table is untouched unless the load threshold is met
    and [calloc] succeeds, in which case its size is doubled.  In the
    open-addressing table this is shown for the calls that resize and for
    those whose probe meets no tombstone before the entry of the key. *)
Theorem duplicate_insert_rejected :
  (∀ (t : Chained.hashmap) (k v : ptr) (calloc_ok malloc_ok : bool),
      Chained.wf t → Chained.size t * 2 ≤ 2 ^ 31 → Chained.present t k →
      ∃ t', Chained.hashmap_add t k v calloc_ok malloc_ok = Ret (t', 0) ∧
        Chained.nentries t' = Chained.nentries t ∧
        (∀ k', Chained.hashmap_get t' k' = Chained.hashmap_get t k') ∧
        (∀ e, e ∈ Chained.nodes t →
              truthy (Chained.equals t (Chained.key e) k) = true →
              Chained.hashmap_get t' k = Ret (Chained.value e)) ∧
        Chained.size t'
        = (if load_exceeded (Chained.nentries t) (Chained.size t) && calloc_ok
           then Chained.size t * 2 else Chained.size t) ∧
        (load_exceeded (Chained.nentries t) (Chained.size t) && calloc_ok
         = false → t' = t)) ∧
  (∀ (t : OpenAddr.hashmap) (k v : ptr) (calloc_ok : bool) (i : Z),
      OpenAddr.wf t → OpenAddr.size t * 2 ≤ INT_MAX →
      0 ≤ i < OpenAddr.size t →
      OpenAddr.matches t k (OpenAddr.slot t i) = true →
      (load_exceeded (OpenAddr.nentries t) (OpenAddr.size t) = false →
       ¬ OpenAddr.tombstone_before t k i) →
      ∃ t', OpenAddr.hashmap_add t k v calloc_ok = Ret (t', 0) ∧
        OpenAddr.nentries t' = OpenAddr.nentries t ∧
        (∀ k', OpenAddr.hashmap_get t' k' = OpenAddr.hashmap_get t k') ∧
        OpenAddr.hashmap_get t' k = Ret (OpenAddr.value (OpenAddr.slot t i)) ∧
        OpenAddr.size t'
        = (if load_exceeded (OpenAddr.nentries t) (OpenAddr.size t) && calloc_ok
           then OpenAddr.size t * 2 else OpenAddr.size t) ∧
        (load_exceeded (OpenAddr.nentries t) (OpenAddr.size t) && calloc_ok
         = false → t' = t)).
Proof.
  split.
  - intros t k v c m Hwf Hdbl Hpr.
    destruct (ChainedFacts.ch_add_present t k v c m Hwf Hdbl Hpr)
      as (t' & Hadd & Hn & Hget & Hs & Hsame).
    exists t'. repeat (split; [assumption|]). split; [|auto].
    intros e He Hm. rewrite Hget, (ChainedFacts.ch_get_spec t k Hwf).
    f_equal. destruct Hwf as (_ & Hg & _ & Hd & _).
    now apply ChainedFacts.ch_first_value_unique.
  - intros t k v c i Hwf Hdbl Hi Hm Hnt.
    destruct (OpenAddrFacts.oa_add_present t k v c i Hwf Hdbl Hi Hm Hnt)
      as (t' & Hadd & Hn & Hget & Hs & Hsame).
    exists t'. repeat (split; [assumption|]). split; [|auto].
    rewrite Hget. now apply OpenAddrFacts.oa_get_hit.
Qed.

Lemma duplicate_insert_rejected_witness :
  (∃ t', Chained.hashmap_add ChainedRuns.loaded_table 1 9 true true
           = Ret (t', 0) ∧
         Chained.nentries t' = 7 ∧ Chained.size t' = 20 ∧
         Chained.hashmap_get t' 1 = Ret 1) ∧
  (∃ t', OpenAddr.hashmap_add OpenAddrRuns.loaded_table 1 9 true
           = Ret (t', 0) ∧
         OpenAddr.nentries t' = 7 ∧ OpenAddr.size t' = 20 ∧
         OpenAddr.hashmap_get t' 1 = Ret 1).
Proof.
  split.
  - destruct (proj1 duplicate_insert_rejected ChainedRuns.loaded_table
                1 9 true true) as (t' & Hadd & Hn & _ & Hfirst & Hs & _).
    + split; [split; [simpl; lia|reflexivity]|].
      split; [now apply ChainedFacts.ch_default_good_keys|].
      split; [apply ChainedFacts.ch_placed_check; vm_compute; reflexivity|].
      split; [apply ChainedFacts.ch_distinct_check; vm_compute; reflexivity|].
      reflexivity.
    + simpl. lia.
    + exists (Chained.mk_entry 1 1). split; [|vm_compute; reflexivity].
      apply list_elem_of_In. simpl. tauto.
    + exists t'. split; [exact Hadd|]. split; [exact Hn|]. split; [exact Hs|].
      apply (Hfirst (Chained.mk_entry 1 1)); [|vm_compute; reflexivity].
      apply list_elem_of_In. simpl. tauto.
  - destruct (proj2 duplicate_insert_rejected OpenAddrRuns.loaded_table
                1 9 true 1) as (t' & Hadd & Hn & _ & Hfirst & Hs & _).
    + split; [split; [unfold INT_MAX; simpl; lia|reflexivity]|].
      split; [now apply OpenAddrFacts.oa_default_good_keys|].
      split; [apply OpenAddrFacts.oa_no_duplicate_check; vm_compute; reflexivity|].
      apply OpenAddrFacts.oa_reachable_check; vm_compute; reflexivity.
    + unfold INT_MAX. simpl. lia.
    + simpl. lia.
    + vm_compute. reflexivity.
    + intros H. vm_compute in H. discriminate.
    + exists t'. split; [exact Hadd|]. split; [exact Hn|]. split; [exact Hs|].
      exact Hfirst.
Defined.

(** C3, evaluated on the open-addressing table: after
    add(10), add(20), remove(10), add(20) on a default table the slots 0 and
    1 both hold a live entry with key 20, so a state reached by public
    operations has two live entries with equal keys. *)
Theorem open_addr_duplicate_live_keys :
  ∃ t,
    OpenAddr.run OpenAddrRuns.reinsert_ops OpenAddrRuns.default_table = Ret t ∧
    OpenAddr.live_at t 0 (OpenAddr.mk_entry 20 3 OpenAddr.ACTIVE) ∧
    OpenAddr.live_at t 1 (OpenAddr.mk_entry 20 2 OpenAddr.ACTIVE) ∧
    ¬ OpenAddr.no_duplicate_live t.
Proof.
  assert (Hobs :
    (t ← OpenAddr.run OpenAddrRuns.reinsert_ops OpenAddrRuns.default_table;
     Ret (OpenAddr.backing t, OpenAddr.equals t 20 20))
    = Ret (OpenAddr.mk_entry 20 3 OpenAddr.ACTIVE
           :: OpenAddr.mk_entry 20 2 OpenAddr.ACTIVE
           :: replicate 8 OpenAddr.zero_entry, 1))
    by (vm_compute; reflexivity).
  apply bind_ret_inv in Hobs as (t & Hrun & Hv).
  injection Hv as Hb He.
  assert (H0 : OpenAddr.live_at t 0 (OpenAddr.mk_entry 20 3 OpenAddr.ACTIVE))
    by (unfold OpenAddr.live_at; rewrite Hb; split; reflexivity).
  assert (H1 : OpenAddr.live_at t 1 (OpenAddr.mk_entry 20 2 OpenAddr.ACTIVE))
    by (unfold OpenAddr.live_at; rewrite Hb; split; reflexivity).
  exists t. split; [exact Hrun|]. split; [exact H0|]. split; [exact H1|].
  intros Hnd. specialize (Hnd 0%nat 1%nat _ _ ltac:(lia) H0 H1).
  simpl in Hnd. rewrite He in Hnd. discriminate.
Qed.

(** C4, evaluated on the open-addressing table: after add(10), add(20),
    remove(10), add(20), five more insertions and one that resizes,
    [hashmap_size] is 8 and 7 slots are [ACTIVE]: [resize] drops the second
    entry of key 20 and the count keeps it. *)
Theorem open_addr_count_exceeds_live :
  ∃ t,
    OpenAddr.run (OpenAddrRuns.reinsert_ops ++ OpenAddrRuns.fill_ops
                  ++ [OpenAddr.Add 7 7]) OpenAddrRuns.default_table = Ret t ∧
    OpenAddr.hashmap_size t = 8 ∧
    OpenAddr.live_count t = 7.
Proof.
  assert (Hobs :
    (t ← OpenAddr.run (OpenAddrRuns.reinsert_ops ++ OpenAddrRuns.fill_ops
                       ++ [OpenAddr.Add 7 7]) OpenAddrRuns.default_table;
     Ret (OpenAddr.hashmap_size t, OpenAddr.live_count t))
    = Ret (8, 7)) by (vm_compute; reflexivity).
  apply bind_ret_inv in Hobs as (t & Hrun & Hv).
  injection Hv as Hs Hl.
  exists t. split; [exact Hrun|]. split; assumption.
Qed.

(** C5: [hashmap_add] returns; when [nentries * 1.5 >= size] and [calloc]
    succeeds, the table is first resized to exactly twice its size and the
    insertion runs on the resized table; when [calloc] fails the call
    answers 0 on the unchanged table; when [nentries * 1.5 < size] the size
    is unchanged by the call.  The products are taken over the rationals. *)
Theorem add_resizes_at_load_threshold :
  (∀ (t : Chained.hashmap) (k v : ptr) (calloc_ok malloc_ok : bool),
      Chained.well_sized t → Chained.size t * 2 ≤ 2 ^ 31 →
      ∃ t' r, Chained.hashmap_add t k v calloc_ok malloc_ok = Ret (t', r) ∧
        Chained.well_sized t' ∧
        ((inject_Z (Chained.nentries t) * 1.5
            >= inject_Z (Chained.size t))%Q →
         if calloc_ok then
           Chained.size t' = Chained.size t * 2 ∧
           ∃ t1, Chained.resize t (Chained.size t * 2) true = Ret (t1, 1) ∧
                 Chained.size t1 = Chained.size t * 2 ∧
                 Chained.add_pair t1 k v malloc_ok = Ret (t', r)
         else t' = t ∧ r = 0) ∧
        ((inject_Z (Chained.nentries t) * 1.5
            < inject_Z (Chained.size t))%Q →
         Chained.size t' = Chained.size t ∧
         Chained.add_pair t k v malloc_ok = Ret (t', r))) ∧
  (∀ (t : OpenAddr.hashmap) (k v : ptr) (calloc_ok : bool),
      OpenAddr.well_sized t → OpenAddr.size t * 2 ≤ INT_MAX →
      ∃ t' r, OpenAddr.hashmap_add t k v calloc_ok = Ret (t', r) ∧
        OpenAddr.well_sized t' ∧
        ((inject_Z (OpenAddr.nentries t) * 1.5
            >= inject_Z (OpenAddr.size t))%Q →
         if calloc_ok then
           OpenAddr.size t' = OpenAddr.size t * 2 ∧
           ∃ t1, OpenAddr.resize t (OpenAddr.size t * 2) true = Ret (t1, 1) ∧
                 OpenAddr.size t1 = OpenAddr.size t * 2 ∧
                 OpenAddr.add_pair t1 k v = Ret (t', r)
         else t' = t ∧ r = 0) ∧
        ((inject_Z (OpenAddr.nentries t) * 1.5
            < inject_Z (OpenAddr.size t))%Q →
         OpenAddr.size t' = OpenAddr.size t ∧
         OpenAddr.add_pair t k v = Ret (t', r))).
Proof.
  assert (Hge : ∀ n s, (inject_Z n * 1.5 >= inject_Z s)%Q ↔ 2 * s ≤ 3 * n)
    by (intros n s; unfold Qle, Qmult, inject_Z; simpl; lia).
  assert (Hlt : ∀ n s, (inject_Z n * 1.5 < inject_Z s)%Q ↔ 3 * n < 2 * s)
    by (intros n s; unfold Qlt, Qmult, inject_Z; simpl; lia).
  split.
  - intros t k v c m Hws Hdbl.
    destruct (ChainedFacts.ch_add_resizes t k v c m Hws Hdbl)
      as (t' & r & Hadd & Hws' & Hcase).
    exists t', r. split; [exact Hadd|]. split; [exact Hws'|].
    unfold load_exceeded in Hcase.
    destruct (Z.leb_spec (2 * Chained.size t) (3 * Chained.nentries t))
      as [Hle|Hgt].
    + split; [intros _; exact Hcase|].
      intros Hq. apply Hlt in Hq. lia.
    + split; [intros Hq; apply Hge in Hq; lia|].
      intros _. exact Hcase.
  - intros t k v c Hws Hdbl.
    destruct (OpenAddrFacts.oa_add_resizes t k v c Hws Hdbl)
      as (t' & r & Hadd & Hws' & Hcase).
    exists t', r. split; [exact Hadd|]. split; [exact Hws'|].
    unfold load_exceeded in Hcase.
    destruct (Z.leb_spec (2 * OpenAddr.size t) (3 * OpenAddr.nentries t))
      as [Hle|Hgt].
    + split; [intros _; exact Hcase|].
      intros Hq. apply Hlt in Hq. lia.
    + split; [intros Hq; apply Hge in Hq; lia|].
      intros _. exact Hcase.
Qed.

Lemma add_resizes_at_load_threshold_witness :
  ((∃ t' r, Chained.hashmap_add ChainedRuns.loaded_table 8 8 true true
              = Ret (t', r) ∧ Chained.size t' = 20) ∧
   (∃ t' r, Chained.hashmap_add ChainedRuns.below_table 8 8 true true
              = Ret (t', r) ∧ Chained.size t' = 10)) ∧
  ((∃ t' r, OpenAddr.hashmap_add OpenAddrRuns.loaded_table 8 8 true
              = Ret (t', r) ∧ OpenAddr.size t' = 20) ∧
   (∃ t' r, OpenAddr.hashmap_add OpenAddrRuns.below_table 8 8 true
              = Ret (t', r) ∧ OpenAddr.size t' = 10)).
Proof.
  split; split.
  - destruct (proj1 add_resizes_at_load_threshold ChainedRuns.loaded_table
                8 8 true true) as (t' & r & Hadd & _ & Hat & _).
    + split; [simpl; lia|reflexivity].
    + simpl. lia.
    + destruct Hat as [Hs _]; [unfold Qle; simpl; lia|].
      exists t', r. split; [exact Hadd|exact Hs].
  - destruct (proj1 add_resizes_at_load_threshold ChainedRuns.below_table
                8 8 true true) as (t' & r & Hadd & _ & _ & Hbelow).
    + split; [simpl; lia|reflexivity].
    + simpl. lia.
    + destruct Hbelow as [Hs _]; [unfold Qlt; simpl; lia|].
      exists t', r. split; [exact Hadd|exact Hs].
  - destruct (proj2 add_resizes_at_load_threshold OpenAddrRuns.loaded_table
                8 8 true) as (t' & r & Hadd & _ & Hat & _).
    + split; [unfold INT_MAX; simpl; lia|reflexivity].
    + unfold INT_MAX. simpl. lia.
    + destruct Hat as [Hs _]; [unfold Qle; simpl; lia|].
      exists t', r. split; [exact Hadd|exact Hs].
  - destruct (proj2 add_resizes_at_load_threshold OpenAddrRuns.below_table
                8 8 true) as (t' & r & Hadd & _ & _ & Hbelow).
    + split; [unfold INT_MAX; simpl; lia|reflexivity].
    + unfold INT_MAX. simpl. lia.
    + destruct Hbelow as [Hs _]; [unfold Qlt; simpl; lia|].
      exists t', r. split; [exact Hadd|exact Hs].
Defined.

(** C6, evaluated on the open-addressing table: with keys 9 and 19 colliding
    in the last slot, add(9), add(19), remove(9), add(19) and five more
    insertions give a table that is due for a resize and in which
    [hashmap_get] of 19 is 3; after [resize] to twice the capacity it is 2. *)
Theorem open_addr_resize_changes_get :
  ∃ t t',
    OpenAddr.run (OpenAddrRuns.wrap_ops ++ OpenAddrRuns.fill_ops)
                 OpenAddrRuns.default_table = Ret t ∧
    load_exceeded (OpenAddr.nentries t) (OpenAddr.size t) = true ∧
    OpenAddr.resize t (cast_size_t (OpenAddr.size t * 2)) true = Ret (t', 1) ∧
    OpenAddr.hashmap_get t 19 = Ret 3 ∧
    OpenAddr.hashmap_get t' 19 = Ret 2.
Proof.
  assert (Hobs :
    (t ← OpenAddr.run (OpenAddrRuns.wrap_ops ++ OpenAddrRuns.fill_ops)
                      OpenAddrRuns.default_table;
     r ← OpenAddr.resize t (cast_size_t (OpenAddr.size t * 2)) true;
     Ret (load_exceeded (OpenAddr.nentries t) (OpenAddr.size t), r.2,
          OpenAddr.hashmap_get t 19, OpenAddr.hashmap_get r.1 19))
    = Ret (true, 1, Ret 3, Ret 2)) by (vm_compute; reflexivity).
  apply bind_ret_inv in Hobs as (t & Hrun & Hobs).
  apply bind_ret_inv in Hobs as ([t' r] & Hres & Hv).
  simpl in Hv. injection Hv as Hl Hr Hg Hg'. subst r.
  exists t, t'. repeat (split; [assumption|]). assumption.
Qed.

(** C7, evaluated: after add(10), add(20), remove(10) the probe of key 20
    starts at slot 0, which is a tombstone, and slot 1 holds key 20;
    [add_entry] of key 20 does not go past the tombstone: it answers 1 and
    stores the new entry in slot 0. *)
Theorem open_addr_add_entry_fills_tombstone :
  ∃ t t',
    OpenAddr.run OpenAddrRuns.collide_ops OpenAddrRuns.default_table = Ret t ∧
    OpenAddr.compress t (OpenAddr.hash_of t 20) = Ret 0 ∧
    OpenAddr.backing t !! 0%nat = Some (OpenAddr.mk_entry 10 1 OpenAddr.DELETED) ∧
    OpenAddr.backing t !! 1%nat = Some (OpenAddr.mk_entry 20 2 OpenAddr.ACTIVE) ∧
    OpenAddr.add_entry t (OpenAddr.mk_entry 20 3 OpenAddr.ACTIVE) = Ret (t', 1) ∧
    OpenAddr.backing t' !! 0%nat = Some (OpenAddr.mk_entry 20 3 OpenAddr.ACTIVE) ∧
    OpenAddr.backing t' !! 1%nat = Some (OpenAddr.mk_entry 20 2 OpenAddr.ACTIVE).
Proof.
  assert (Hobs :
    (t ← OpenAddr.run OpenAddrRuns.collide_ops OpenAddrRuns.default_table;
     r ← OpenAddr.add_entry t (OpenAddr.mk_entry 20 3 OpenAddr.ACTIVE);
     Ret (OpenAddr.compress t (OpenAddr.hash_of t 20),
          OpenAddr.backing t !! 0%nat, OpenAddr.backing t !! 1%nat, r.2,
          OpenAddr.backing r.1 !! 0%nat, OpenAddr.backing r.1 !! 1%nat))
    = Ret (Ret 0, Some (OpenAddr.mk_entry 10 1 OpenAddr.DELETED),
           Some (OpenAddr.mk_entry 20 2 OpenAddr.ACTIVE), 1,
           Some (OpenAddr.mk_entry 20 3 OpenAddr.ACTIVE),
           Some (OpenAddr.mk_entry 20 2 OpenAddr.ACTIVE)))
    by (vm_compute; reflexivity).
  apply bind_ret_inv in Hobs as (t & Hrun & Hobs).
  apply bind_ret_inv in Hobs as ([t' r] & Hadd & Hv).
  simpl in Hv. injection Hv as Hc H0 H1 Hr H0' H1'. subst r.
  exists t, t'. repeat (split; [assumption|]). assumption.
Qed.

(** C8, evaluated on both tables: with [NULL] stored under key 10,
    [hashmap_get] and [hashmap_remove] answer [NULL] for the absent key 12
    and the same [NULL] for the stored key 10. *)
Theorem absent_result_equals_stored_null :
  (∃ t t' t'',
      Chained.hashmap_add ChainedRuns.default_table 10 NULL true true
        = Ret (t, 1) ∧
      Chained.nodes t = [Chained.mk_entry 10 NULL] ∧
      Chained.hashmap_get t 12 = Ret NULL ∧
      Chained.hashmap_get t 10 = Ret NULL ∧
      Chained.hashmap_remove t 12 = Ret (t', NULL) ∧
      Chained.nodes t' = [Chained.mk_entry 10 NULL] ∧
      Chained.hashmap_remove t 10 = Ret (t'', NULL) ∧
      Chained.nodes t'' = []) ∧
  (∃ t t' t'',
      OpenAddr.hashmap_add OpenAddrRuns.default_table 10 NULL true
        = Ret (t, 1) ∧
      OpenAddr.hashmap_size t = 1 ∧
      OpenAddr.hashmap_get t 12 = Ret NULL ∧
      OpenAddr.hashmap_get t 10 = Ret NULL ∧
      OpenAddr.hashmap_remove t 12 = Ret (t', NULL) ∧
      OpenAddr.hashmap_size t' = 1 ∧
      OpenAddr.hashmap_remove t 10 = Ret (t'', NULL) ∧
      OpenAddr.hashmap_size t'' = 0).
Proof.
  split.
  - assert (Hobs :
      (r ← Chained.hashmap_add ChainedRuns.default_table 10 NULL true true;
       r' ← Chained.hashmap_remove r.1 12;
       r'' ← Chained.hashmap_remove r.1 10;
       Ret (r.2, Chained.nodes r.1, Chained.hashmap_get r.1 12,
            Chained.hashmap_get r.1 10, r'.2, Chained.nodes r'.1,
            r''.2, Chained.nodes r''.1))
      = Ret (1, [Chained.mk_entry 10 NULL], Ret NULL, Ret NULL,
             NULL, [Chained.mk_entry 10 NULL], NULL, []))
      by (vm_compute; reflexivity).
    apply bind_ret_inv in Hobs as ([t r] & Hadd & Hobs).
    apply bind_ret_inv in Hobs as ([t' r'] & Hrem & Hobs).
    apply bind_ret_inv in Hobs as ([t'' r''] & Hrem' & Hv).
    simpl in *. injection Hv as Hr Hn Hg Hg' Hr' Hn' Hr'' Hn''. subst r r' r''.
    exists t, t', t''. repeat (split; [assumption|]). assumption.
  - assert (Hobs :
      (r ← OpenAddr.hashmap_add OpenAddrRuns.default_table 10 NULL true;
       r' ← OpenAddr.hashmap_remove r.1 12;
       r'' ← OpenAddr.hashmap_remove r.1 10;
       Ret (r.2, OpenAddr.hashmap_size r.1, OpenAddr.hashmap_get r.1 12,
            OpenAddr.hashmap_get r.1 10, r'.2, OpenAddr.hashmap_size r'.1,
            r''.2, OpenAddr.hashmap_size r''.1))
      = Ret (1, 1, Ret NULL, Ret NULL, NULL, 1, NULL, 0))
      by (vm_compute; reflexivity).
    apply bind_ret_inv in Hobs as ([t r] & Hadd & Hobs).
    apply bind_ret_inv in Hobs as ([t' r'] & Hrem & Hobs).
    apply bind_ret_inv in Hobs as ([t'' r''] & Hrem' & Hv).
    simpl in *. injection Hv as Hr Hn Hg Hg' Hr' Hn' Hr'' Hn''. subst r r' r''.
    exists t, t', t''. repeat (split; [assumption|]). assumption.
Qed.

(** C9, at a capacity beyond 2^31: with capacity 10 * 2^28, which doubling
    reaches from 10, and hash [INT_MIN], [compress] returns [INT_MIN], not an
    index of the array. *)
Lemma compress_large_capacity_out_of_range :
  OpenAddr.compress
    (OpenAddr.mk_hashmap (10 * 2 ^ 28) 0 [] addr_hash ref_eq) INT_MIN
    = Ret INT_MIN ∧
  Chained.compress
    (Chained.mk_hashmap (10 * 2 ^ 28) 0 [] addr_hash ref_eq) INT_MIN
    = Ret INT_MIN ∧
  ¬ compress_in_range (10 * 2 ^ 28) INT_MIN.
Proof.
  split; [vm_compute; reflexivity|]. split; [vm_compute; reflexivity|].
  intros (i & Hi & Hr). vm_compute in Hi. injection Hi as <-. lia.
Qed.

(** C9, amended: for every hash value, negative ones included, and every
    capacity from 1 to 2^31, [compress] of either table returns an index in
    [0, capacity). *)
Theorem compress_index_in_range :
  (∀ (hm : OpenAddr.hashmap) (hash : Z),
      0 < OpenAddr.size hm ≤ 2 ^ 31 →
      ∃ i, OpenAddr.compress hm hash = Ret i ∧ 0 ≤ i < OpenAddr.size hm) ∧
  (∀ (hm : Chained.hashmap) (hash : Z),
      0 < Chained.size hm ≤ 2 ^ 31 →
      ∃ i, Chained.compress hm hash = Ret i ∧ 0 ≤ i < Chained.size hm).
Proof.
  split; intros hm hash Hs; exact (c_compress_range _ hash Hs).
Qed.

Lemma compress_index_in_range_witness :
  (∃ i, OpenAddr.compress OpenAddrRuns.default_table (-7) = Ret i ∧
        0 ≤ i < OpenAddr.size OpenAddrRuns.default_table) ∧
  (∃ i, Chained.compress ChainedRuns.default_table INT_MIN = Ret i ∧
        0 ≤ i < Chained.size ChainedRuns.default_table).
Proof.
  split.
  - apply (proj1 compress_index_in_range OpenAddrRuns.default_table (-7)).
    simpl. lia.
  - apply (proj2 compress_index_in_range ChainedRuns.default_table INT_MIN).
    simpl. lia.
Defined.

(** C10: in a well-formed table, when the key [k] is present, that is a
    stored node (an [ACTIVE] slot) has a key that [equals] identifies with
    [k], and the value stored with it is [NULL], [hashmap_get] of [k]
    returns [NULL] and [hashmap_contains] answers 0, in the chaining table
    and in the open-addressing table. *)
Theorem null_value_reported_absent :
  (∀ (t : Chained.hashmap) (k : ptr) (e : Chained.hm_entry_t),
      Chained.wf t → e ∈ Chained.nodes t →
      truthy (Chained.equals t (Chained.key e) k) = true →
      Chained.value e = NULL →
      Chained.hashmap_get t k = Ret NULL ∧
      Chained.hashmap_contains t k = Ret 0) ∧
  (∀ (t : OpenAddr.hashmap) (k : ptr) (i : Z),
      OpenAddr.wf t → 0 ≤ i < OpenAddr.size t →
      OpenAddr.is_active (OpenAddr.slot t i) = true →
      truthy (OpenAddr.equals t (OpenAddr.key (OpenAddr.slot t i)) k) = true →
      OpenAddr.value (OpenAddr.slot t i) = NULL →
      OpenAddr.hashmap_get t k = Ret NULL ∧
      OpenAddr.hashmap_contains t k = Ret 0).
Proof.
  split.
  - intros t k e Hwf He Hm Hv.
    assert (Hg : Chained.hashmap_get t k = Ret NULL).
    { rewrite (ChainedFacts.ch_get_spec t k Hwf). f_equal. rewrite <- Hv.
      destruct Hwf as (_ & Hgk & _ & Hd & _).
      now apply ChainedFacts.ch_first_value_unique. }
    split; [exact Hg|].
    now rewrite (ChainedFacts.ch_contains_of_get t k NULL Hg).
  - intros t k i Hwf Hi Ha Hm Hv.
    assert (Hg : OpenAddr.hashmap_get t k = Ret NULL).
    { rewrite (OpenAddrFacts.oa_get_hit t k i Hwf Hi).
      - now rewrite Hv.
      - unfold OpenAddr.matches. now rewrite Ha, Hm. }
    split; [exact Hg|].
    now rewrite (OpenAddrFacts.oa_contains_of_get t k NULL Hg).
Qed.

Lemma null_value_reported_absent_witness :
  (Chained.hashmap_get ChainedRuns.null_behind_table 20 = Ret NULL ∧
   Chained.hashmap_contains ChainedRuns.null_behind_table 20 = Ret 0) ∧
  (OpenAddr.hashmap_get OpenAddrRuns.null_behind_table 20 = Ret NULL ∧
   OpenAddr.hashmap_contains OpenAddrRuns.null_behind_table 20 = Ret 0).
Proof.
  split.
  - apply (proj1 null_value_reported_absent ChainedRuns.null_behind_table 20
             (Chained.mk_entry 20 NULL)).
    + split; [split; [simpl; lia|reflexivity]|].
      split; [now apply ChainedFacts.ch_default_good_keys|].
      split; [apply ChainedFacts.ch_placed_check; vm_compute; reflexivity|].
      split; [apply ChainedFacts.ch_distinct_check; vm_compute; reflexivity|].
      reflexivity.
    + apply list_elem_of_In. simpl. tauto.
    + reflexivity.
    + reflexivity.
  - apply (proj2 null_value_reported_absent OpenAddrRuns.null_behind_table
             20 1).
    + split; [split; [unfold INT_MAX; simpl; lia|reflexivity]|].
      split; [now apply OpenAddrFacts.oa_default_good_keys|].
      split; [apply OpenAddrFacts.oa_no_duplicate_check; vm_compute;
              reflexivity|].
      apply OpenAddrFacts.oa_reachable_check; vm_compute; reflexivity.
    + simpl. lia.
    + reflexivity.
    + reflexivity.
    + reflexivity.
Defined.

(** * Facts about the calls the specification leaves out *)

(** The parity callbacks fit together. *)
Lemma parity_eq_truthy (a b : ptr) :
  truthy (parity_eq a b) = true ↔ a mod 2 = b mod 2.
Proof.
  unfold truthy, parity_eq. destruct (Z.eqb_spec (a mod 2) (b mod 2)); simpl;
    split; congruence.
Qed.

(** ** The chaining table: absent keys, removal and insertion *)

Module ChainedMore.
Import Chained ChainedFacts.

Lemma ch_unlink_none (t : hashmap) (l : list hm_entry_t) (k : ptr) :
  unlink t l k = None ↔ ∀ e, e ∈ l → truthy (equals t (key e) k) = false.
Proof.
  induction l as [|x l IH]; simpl.
  - split; [|reflexivity]. intros _ e He. inversion He.
  - destruct (truthy (equals t (key x) k)) eqn:Hx.
    + split; [discriminate|]. intros H. specialize (H x ltac:(left)). congruence.
    + destruct (unlink t l k) as [[v l']|]; simpl.
      * split; [discriminate|]. intros H.
        destruct IH as [_ IH]. discriminate IH.
        intros e He. apply H. now right.
      * split; [|reflexivity]. intros _ e He.
        apply elem_of_cons in He as [->|He]; [assumption|].
        now apply (proj1 IH).
Qed.

Lemma ch_unlink_spec (t : hashmap) (l l' : list hm_entry_t) (k v : ptr) :
  unlink t l k = Some (v, l') →
  ∃ l1 e l2, l = l1 ++ e :: l2 ∧ l' = l1 ++ l2 ∧ v = value e ∧
             truthy (equals t (key e) k) = true.
Proof.
  revert l'. induction l as [|x l IH]; intros l'; simpl; [discriminate|].
  destruct (truthy (equals t (key x) k)) eqn:Hx.
  - intros [= <- <-]. now exists [], x, l.
  - destruct (unlink t l k) as [[v0 l0]|]; simpl; [|discriminate].
    intros [= <- <-]. destruct (IH l0 eq_refl) as (l1 & e & l2 & -> & -> & -> & Hm).
    now exists (x :: l1), e, l2.
Qed.

Lemma ch_bucket_nodes (t : hashmap) (i : nat) (b : list hm_entry_t)
    (e : hm_entry_t) :
  backing t !! i = Some b → e ∈ b → e ∈ nodes t.
Proof. intros Hb He. apply elem_of_concat. eauto. Qed.

(** A key no node matches: the lookups answer [NULL] and [hashmap_remove]
    leaves the table as it is. *)
Lemma ch_absent (t : hashmap) (k : ptr) :
  well_sized t → ¬ present t k →
  hashmap_get t k = Ret NULL ∧ hashmap_contains t k = Ret 0 ∧
  hashmap_remove t k = Ret (t, NULL).
Proof.
  intros Hws Hab.
  destruct (ch_compress_home t k Hws) as [Hc Hr].
  destruct (read_in_range (backing t) (home t k)) as [b Hb].
  { destruct Hws as [_ ->]. assumption. }
  assert (Hno : ∀ e, e ∈ b → truthy (equals t (key e) k) = false).
  { intros e He. destruct (truthy (equals t (key e) k)) eqn:Hm; [|reflexivity].
    exfalso. apply Hab. exists e. split; [|assumption].
    apply read_ret in Hb as [_ Hb]. eapply ch_bucket_nodes; eassumption. }
  assert (Hg : hashmap_get t k = Ret NULL).
  { unfold hashmap_get. rewrite Hc, bind_Ret, Hb, bind_Ret.
    apply ch_scan_nil in Hno. now rewrite Hno. }
  split; [assumption|]. split; [now rewrite (ch_contains_of_get t k NULL Hg)|].
  unfold hashmap_remove. rewrite Hc, bind_Ret, Hb, bind_Ret.
  apply ch_unlink_none in Hno. now rewrite Hno.
Qed.

Lemma ch_first_value_skip (t : hashmap) (e : hm_entry_t) (l : list hm_entry_t)
    (k : ptr) :
  truthy (equals t (key e) k) = false →
  first_value t (e :: l) k = first_value t l k.
Proof. intros H. unfold first_value. simpl. now rewrite H. Qed.

Lemma ch_first_value_ext (t t' : hashmap) (l : list hm_entry_t) (k : ptr) :
  equals t' = equals t → first_value t' l k = first_value t l k.
Proof. intros He. unfold first_value. now rewrite (ch_scan_ext t t'). Qed.

(** Keys that [equals] tells apart from [k] are not matched by a node that
    matches [k]. *)
Lemma ch_other_key (t : hashmap) (e : hm_entry_t) (k k' : ptr) :
  good_keys t → truthy (equals t (key e) k) = true →
  truthy (equals t k k') = false →
  truthy (equals t (key e) k') = false.
Proof.
  intros (_ & Hsym & Htrans & _) Hm Hne.
  destruct (truthy (equals t (key e) k')) eqn:E; [|reflexivity].
  rewrite (Htrans _ _ _ (Hsym _ _ Hm) E) in Hne. discriminate.
Qed.

(** [hashmap_remove] of a key that is present. *)
Lemma ch_remove_present (t : hashmap) (k : ptr) :
  wf t → nentries t < 2 ^ 64 → present t k →
  ∃ t' e, e ∈ nodes t ∧ truthy (equals t (key e) k) = true ∧
    hashmap_remove t k = Ret (t', value e) ∧
    nentries t' = nentries t - 1 ∧ size t' = size t ∧
    nodes t ≡ₚ e :: nodes t' ∧ wf t' ∧
    hashmap_get t' k = Ret NULL ∧ hashmap_contains t' k = Ret 0 ∧
    ∀ k', truthy (equals t k k') = false →
          hashmap_get t' k' = hashmap_get t k'.
Proof.
  intros Hwf Hcnt (e0 & He0 & Hm0).
  pose proof Hwf as (Hws & Hg & Hpl & Hd & Hn).
  destruct (ch_compress_home t k Hws) as [Hc Hr].
  destruct (read_in_range (backing t) (home t k)) as [b Hb].
  { destruct Hws as [_ ->]. assumption. }
  pose proof Hb as Hb'. apply read_ret in Hb' as [_ Hb'].
  pose proof (ch_match_in_bucket t k e0 b Hws Hg Hpl Hb' He0 Hm0) as Hin.
  destruct (unlink t b k) as [[v b1]|] eqn:Hu.
  2:{ rewrite ch_unlink_none in Hu. rewrite (Hu e0 Hin) in Hm0. discriminate. }
  pose proof Hu as Hu'.
  apply ch_unlink_spec in Hu' as (l1 & e & l2 & -> & -> & -> & Hm).
  set (t' := set_nentries
               (set_backing t (<[Z.to_nat (home t k) := l1 ++ l2]> (backing t)))
               (cast_size_t (nentries t - 1))).
  assert (Hrem : hashmap_remove t k = Ret (t', value e)).
  { unfold hashmap_remove. rewrite Hc, bind_Ret, Hb, bind_Ret, Hu.
    rewrite write_in_range by (destruct Hws as [_ ->]; assumption).
    reflexivity. }
  assert (Hperm : nodes t ≡ₚ e :: nodes t') by now apply concat_insert_remove.
  assert (Hwf' : wf t') by (eapply ch_remove_wf; eassumption).
  assert (He : e ∈ nodes t).
  { eapply ch_bucket_nodes; [eassumption|]. rewrite elem_of_app, elem_of_cons. tauto. }
  assert (Hd' : distinct_keys t (e :: nodes t'))
    by (eapply ch_distinct_keys_perm; eassumption).
  assert (Hab : ¬ present t' k).
  { intros (e' & He' & Hm'). change (equals t') with (equals t) in Hm'.
    destruct Hd' as [Hx _]. specialize (Hx e' He').
    destruct Hg as (_ & Hsym & Htrans & _).
    rewrite (Htrans _ _ _ Hm (Hsym _ _ Hm')) in Hx. discriminate. }
  destruct (ch_absent t' k (proj1 Hwf') Hab) as (Hget & Hcon & _).
  exists t', e. split; [assumption|]. split; [assumption|].
  split; [assumption|]. split.
  { unfold t'. simpl. unfold live_count in Hn. rewrite Hperm in Hn.
    simpl length in Hn. rewrite cast_size_t_small; lia. }
  split; [reflexivity|]. split; [assumption|]. split; [assumption|].
  split; [assumption|]. split; [assumption|].
  intros k' Hne.
  rewrite (ch_get_spec t' k' Hwf'), (ch_get_spec t k' Hwf). f_equal.
  rewrite (ch_first_value_ext t t') by reflexivity.
  rewrite (ch_first_value_perm t (nodes t) (e :: nodes t') k' Hg Hd Hperm).
  symmetry. apply ch_first_value_skip. eapply ch_other_key; eassumption.
Qed.


Lemma ch_add_pair_absent (t : hashmap) (k v : ptr) :
  wf t → nentries t + 1 < 2 ^ 64 → ¬ present t k →
  ∃ t', add_pair t k v true = Ret (t', 1) ∧ size t' = size t ∧
    nentries t' = nentries t + 1 ∧ equals t' = equals t ∧
    hashcode t' = hashcode t ∧ nodes t' ≡ₚ mk_entry k v :: nodes t ∧ wf t'.
Proof.
  intros Hwf Hcnt Hab. pose proof Hwf as (Hws & Hg & Hpl & Hd & Hn).
  destruct (ch_compress_home t k Hws) as [Hc Hr].
  destruct (read_in_range (backing t) (home t k)) as [b Hb].
  { destruct Hws as [_ ->]. assumption. }
  pose proof Hb as Hb'. apply read_ret in Hb' as [_ Hb'].
  assert (Hs : scan t b k = []).
  { apply ch_scan_nil. intros e He.
    destruct (truthy (equals t (key e) k)) eqn:Hm; [|reflexivity].
    exfalso. apply Hab. exists e. split; [|assumption].
    eapply ch_bucket_nodes; eassumption. }
  destruct (ch_add_entry_spec t (mk_entry k v) Hws) as (b' & Hb2 & Hadd).
  simpl key in *. assert (b' = b) as -> by congruence.
  set (t' := set_nentries
               (set_backing t (<[Z.to_nat (home t k) := mk_entry k v :: b]> (backing t)))
               (cast_size_t (nentries t + 1))).
  assert (Hap : add_pair t k v true = Ret (t', 1)).
  { unfold add_pair. rewrite Hc, bind_Ret, Hb, bind_Ret, Hs, Hadd, bind_Ret.
    reflexivity. }
  exists t'. split; [assumption|]. split; [reflexivity|]. split.
  { unfold t'. simpl. apply cast_size_t_small.
    unfold live_count in Hn. lia. }
  split; [reflexivity|]. split; [reflexivity|]. split.
  { unfold nodes, t'. simpl backing. now apply concat_insert_cons. }
  eapply ch_add_pair_wf; eassumption.
Qed.

Lemma ch_absent_perm (t t' : hashmap) (k : ptr) :
  equals t' = equals t → nodes t' ≡ₚ nodes t →
  ¬ present t k → ¬ present t' k.
Proof.
  intros He Hp Hab Hpr. apply Hab.
  apply (ch_present_perm t' t); [now symmetry|now symmetry|assumption].
Qed.

Lemma ch_get_after_add (t t' : hashmap) (k v k' : ptr) :
  wf t → wf t' → equals t' = equals t →
  nodes t' ≡ₚ mk_entry k v :: nodes t →
  truthy (equals t k k') = false →
  hashmap_get t' k' = hashmap_get t k'.
Proof.
  intros Hwf Hwf' He Hp Hne.
  rewrite (ch_get_spec t' k' Hwf'), (ch_get_spec t k' Hwf). f_equal.
  rewrite (ch_first_value_ext t t') by assumption.
  rewrite (ch_first_value_perm t (nodes t') (mk_entry k v :: nodes t) k').
  - now apply ch_first_value_skip.
  - apply Hwf.
  - apply (ch_distinct_keys_ext t'); [now symmetry|apply Hwf'].
  - assumption.
Qed.

Lemma ch_double_fits (t : hashmap) :
  well_sized t → cast_size_t (size t * 2) = size t * 2.
Proof.
  intros [[? ?] _]. apply cast_size_t_small.
  assert (2 ^ 31 < 2 ^ 64) by (apply Z.pow_lt_mono_r; lia). lia.
Qed.

(** [hashmap_add] of a key that is not present. *)
Lemma ch_add_absent (t : hashmap) (k v : ptr) :
  wf t → size t * 2 ≤ 2 ^ 31 → nentries t + 1 < 2 ^ 64 → ¬ present t k →
  ∃ t', hashmap_add t k v true true = Ret (t', 1) ∧
    nentries t' = nentries t + 1 ∧
    size t' = (if load_exceeded (nentries t) (size t) then size t * 2
               else size t) ∧
    equals t' = equals t ∧ hashcode t' = hashcode t ∧
    nodes t' ≡ₚ mk_entry k v :: nodes t ∧ wf t' ∧
    hashmap_get t' k = Ret v ∧
    ∀ k', truthy (equals t k k') = false →
          hashmap_get t' k' = hashmap_get t k'.
Proof.
  intros Hwf Hdbl Hcnt Hab.
  assert (Hrefl : truthy (equals t k k) = true)
    by (destruct Hwf as (_ & (Hr & _) & _); apply Hr).
  unfold hashmap_add. rewrite (ch_double_fits t) by apply Hwf.
  destruct (load_exceeded (nentries t) (size t)).
  - destruct (ch_resize_wf t (size t * 2) Hwf)
      as (t1 & Hre & Hs1 & Hn1 & Hh1 & He1 & Hwf1 & Hp1).
    { destruct Hwf as ([[? ?] _] & _). lia. }
    rewrite Hre, bind_Ret. cbv beta iota. change (1 =? 0) with false. cbv iota.
    destruct (ch_add_pair_absent t1 k v Hwf1) as (t' & Hap & Hs & Hn & He & Hh & Hp & Hwf').
    { lia. } { now apply (ch_absent_perm t). }
    exists t'. split; [assumption|]. split; [lia|]. split; [lia|].
    split; [congruence|]. split; [congruence|]. split.
    { now rewrite Hp, Hp1. }
    split; [assumption|]. split.
    { apply (ch_add_pair_get t1 t' k v true); [apply Hwf1|now rewrite He1|assumption]. }
    intros k' Hne. apply (ch_get_after_add t t' k v k');
      [assumption|assumption|congruence|now rewrite Hp, Hp1|assumption].
  - destruct (ch_add_pair_absent t k v Hwf Hcnt Hab)
      as (t' & Hap & Hs & Hn & He & Hh & Hp & Hwf').
    exists t'. split; [assumption|]. split; [lia|]. split; [lia|].
    split; [congruence|]. split; [congruence|]. split; [assumption|].
    split; [assumption|]. split.
    { apply (ch_add_pair_get t t' k v true); [apply Hwf|assumption|assumption]. }
    intros k' Hne. now apply (ch_get_after_add t t' k v k').
Qed.

(** An allocation that fails: [hashmap_add] answers 0 and no lookup changes. *)
Lemma ch_add_alloc_fails (t : hashmap) (k v : ptr) (calloc_ok malloc_ok : bool) :
  wf t → size t * 2 ≤ 2 ^ 31 →
  malloc_ok = false ∨
    (calloc_ok = false ∧ load_exceeded (nentries t) (size t) = true) →
  ∃ t', hashmap_add t k v calloc_ok malloc_ok = Ret (t', 0) ∧
    nentries t' = nentries t ∧ wf t' ∧
    (calloc_ok = false → t' = t) ∧
    ∀ k', hashmap_get t' k' = hashmap_get t k'.
Proof.
  intros Hwf Hdbl Hfail.
  unfold hashmap_add. rewrite (ch_double_fits t) by apply Hwf.
  assert (Hpair : ∀ t1, well_sized t1 → malloc_ok = false →
            add_pair t1 k v malloc_ok = Ret (t1, 0)).
  { intros t1 Hws1 ->.
    destruct (ch_compress_home t1 k Hws1) as [Hc Hr].
    destruct (read_in_range (backing t1) (home t1 k)) as [b Hb].
    { destruct Hws1 as [_ ->]. assumption. }
    unfold add_pair. rewrite Hc, bind_Ret, Hb, bind_Ret.
    now destruct (scan t1 b k). }
  destruct (load_exceeded (nentries t) (size t)) eqn:Hl.
  - destruct calloc_ok.
    + destruct Hfail as [Hm|[? _]]; [|discriminate].
      destruct (ch_resize_wf t (size t * 2) Hwf)
        as (t1 & Hre & Hs1 & Hn1 & Hh1 & He1 & Hwf1 & Hp1).
      { destruct Hwf as ([[? ?] _] & _). lia. }
      rewrite Hre, bind_Ret. cbv beta iota. change (1 =? 0) with false. cbv iota.
      rewrite (Hpair t1 (proj1 Hwf1) Hm).
      exists t1. split; [reflexivity|]. split; [assumption|].
      split; [assumption|]. split; [discriminate|].
      intros k'. now apply ch_get_perm.
    + simpl. exists t. split; [reflexivity|]. split; [reflexivity|].
      split; [assumption|]. split; reflexivity.
  - destruct Hfail as [Hm|[_ ?]]; [|discriminate].
    rewrite (Hpair t (proj1 Hwf) Hm). exists t. split; [reflexivity|].
    split; [reflexivity|]. split; [assumption|]. split; reflexivity.
Qed.

(** [hashmap_remove] always returns on a well-formed table. *)
Lemma ch_remove_total (t : hashmap) (k : ptr) :
  wf t → nentries t < 2 ^ 64 →
  ∃ t' v, hashmap_remove t k = Ret (t', v) ∧ size t' = size t ∧
    nentries t' ≤ nentries t ∧ wf t'.
Proof.
  intros Hwf Hcnt. pose proof Hwf as (Hws & Hg & Hpl & Hd & Hn).
  destruct (ch_compress_home t k Hws) as [Hc Hr].
  destruct (read_in_range (backing t) (home t k)) as [b Hb].
  { destruct Hws as [_ ->]. assumption. }
  destruct (unlink t b k) as [[v b1]|] eqn:Hu.
  - apply ch_unlink_spec in Hu as (l1 & e & l2 & -> & -> & -> & Hm).
    destruct (ch_remove_present t k Hwf Hcnt)
      as (t' & e' & _ & _ & Hrem & Hn' & Hs' & _ & Hwf' & _).
    { exists e. split; [|assumption]. apply read_ret in Hb as [_ Hb].
      eapply ch_bucket_nodes; [eassumption|].
      rewrite elem_of_app, elem_of_cons. tauto. }
    exists t', (value e'). split; [assumption|]. split; [assumption|].
    split; [lia|assumption].
  - exists t, NULL. unfold hashmap_remove.
    rewrite Hc, bind_Ret, Hb, bind_Ret, Hu. split; [reflexivity|].
    split; [reflexivity|]. split; [lia|assumption].
Qed.

Lemma ch_add_pair_frame (t t' : hashmap) (k v : ptr) (malloc_ok : bool) (r : Z) :
  well_sized t → 0 ≤ nentries t → nentries t + 1 < 2 ^ 64 →
  add_pair t k v malloc_ok = Ret (t', r) →
  size t' = size t ∧ equals t' = equals t ∧ hashcode t' = hashcode t ∧
  nentries t' ≤ nentries t + 1.
Proof.
  intros Hws Hn0 Hcnt.
  destruct (ch_compress_home t k Hws) as [Hc Hr].
  destruct (read_in_range (backing t) (home t k)) as [b Hb].
  { destruct Hws as [_ ->]. assumption. }
  unfold add_pair. rewrite Hc, bind_Ret, Hb, bind_Ret.
  destruct (scan t b k).
  - destruct malloc_ok.
    + destruct (ch_add_entry_spec t (mk_entry k v) Hws) as (b' & _ & ->).
      rewrite bind_Ret. intros [= <- _]. simpl.
      rewrite cast_size_t_small by lia. repeat split; lia.
    + intros [= <- _]. repeat split; lia.
  - intros [= <- _]. repeat split; lia.
Qed.

Lemma ch_step_frame (t t1 : hashmap) (o : op) (c : Z) :
  wf t → nentries t ≤ c → size t ≤ Z.max 10 (3 * c) → 6 * (c + 1) ≤ 2 ^ 31 →
  step t o = Ret t1 →
  nentries t1 ≤ c + 1 ∧ size t1 ≤ Z.max 10 (3 * (c + 1)) ∧
  equals t1 = equals t ∧ hashcode t1 = hashcode t.
Proof.
  intros Hwf Hn Hs Hb.
  assert (H64 : 2 ^ 31 < 2 ^ 64) by (apply Z.pow_lt_mono_r; lia).
  assert (Hn0 : 0 ≤ nentries t).
  { destruct Hwf as (_ & _ & _ & _ & ->). unfold live_count. lia. }
  destruct o as [k v|k|]; simpl.
  - intros Hst. apply bind_ret_inv in Hst as ([t2 r] & Hadd & [= ->]).
    destruct (ch_add_resizes t k v true true (proj1 Hwf))
      as (t2 & r' & Hadd' & _ & Hcase); [lia|].
    rewrite Hadd in Hadd'. injection Hadd' as <- <-.
    destruct (load_exceeded (nentries t) (size t)) eqn:Hl.
    + destruct Hcase as (Hs1 & t2 & Hre & Hs2 & Hap).
      destruct (ch_resize_wf t (size t * 2) Hwf)
        as (t2' & Hre' & _ & Hn2 & Hh2 & He2 & Hwf2 & _).
      { destruct Hwf as ([[? ?] _] & _). lia. }
      assert (t2' = t2) as -> by congruence.
      unfold load_exceeded in Hl. apply Z.leb_le in Hl.
      apply ch_add_pair_frame in Hap as (? & ? & ? & ?);
        [|apply Hwf2|lia|lia].
      split; [lia|]. split; [lia|]. split; congruence.
    + destruct Hcase as (Hs1 & Hap).
      apply ch_add_pair_frame in Hap as (? & ? & ? & ?);
        [|apply Hwf|lia|lia].
      split; [lia|]. split; [lia|]. split; congruence.
  - intros Hst. apply bind_ret_inv in Hst as ([t2 r] & Hrem & [= ->]).
    destruct (ch_remove_total t k Hwf) as (t2 & v & Hrem' & Hs1 & Hn1 & _); [lia|].
    rewrite Hrem in Hrem'. injection Hrem' as <- <-.
    split; [lia|]. split; [lia|].
    unfold hashmap_remove in Hrem.
    apply bind_ret_inv in Hrem as (i & _ & Hrem).
    apply bind_ret_inv in Hrem as (b & _ & Hrem).
    destruct (unlink t b k) as [[? ?]|].
    + apply bind_ret_inv in Hrem as (b' & _ & Hrem). injection Hrem as <- _.
      now split.
    + injection Hrem as <- _. now split.
  - intros [= <-]. simpl. unfold HASHMAP_INIT_SIZE.
    split; [lia|]. split; [lia|]. now split.
Qed.

Lemma ch_step_total (t : hashmap) (o : op) :
  wf t → size t * 2 ≤ 2 ^ 31 → nentries t + 1 < 2 ^ 64 →
  ∃ t1, step t o = Ret t1 ∧ wf t1.
Proof.
  intros Hwf Hdbl Hcnt. destruct o as [k v|k|]; simpl.
  - destruct (ch_add_resizes t k v true true (proj1 Hwf) Hdbl)
      as (t1 & r & Hadd & _).
    rewrite Hadd, bind_Ret. exists t1. split; [reflexivity|].
    now apply (ch_add_wf t t1 k v true true r).
  - destruct (ch_remove_total t k Hwf) as (t1 & v & Hrem & _ & _ & Hwf1); [lia|].
    rewrite Hrem, bind_Ret. now exists t1.
  - exists (hashmap_clear t true). split; [reflexivity|].
    apply ch_clear_wf, Hwf.
Qed.

(** Any sequence of calls runs to the end and keeps the table well formed,
    as long as the array cannot outgrow the [int] indexes: it has at most
    [max 10 (3 c)] buckets after [c] calls. *)
Lemma ch_run_total (ops : list op) (t : hashmap) (c : Z) :
  wf t → 0 ≤ c → nentries t ≤ c → size t ≤ Z.max 10 (3 * c) →
  6 * (c + Z.of_nat (length ops)) ≤ 2 ^ 31 →
  ∃ t', run ops t = Ret t' ∧ wf t' ∧
        nentries t' ≤ c + Z.of_nat (length ops) ∧
        size t' ≤ Z.max 10 (3 * (c + Z.of_nat (length ops))) ∧
        equals t' = equals t ∧ hashcode t' = hashcode t.
Proof.
  revert t c. induction ops as [|o ops IH]; intros t c Hwf Hc Hn Hs Hb.
  - exists t. simpl. rewrite Z.add_0_r. split; [reflexivity|].
    split; [assumption|]. split; [assumption|]. split; [assumption|].
    split; reflexivity.
  - assert (H64 : 2 ^ 31 < 2 ^ 64) by (apply Z.pow_lt_mono_r; lia).
    rewrite length_cons, Nat2Z.inj_succ in *.
    destruct (ch_step_total t o Hwf) as (t1 & Hst & Hwf1); [lia|lia|].
    destruct (ch_step_frame t t1 o c Hwf Hn Hs) as (Hn1 & Hs1 & He1 & Hh1);
      [lia|assumption|].
    destruct (IH t1 (c + 1) Hwf1) as (t' & Hrun & Hwf' & Hn' & Hs' & He' & Hh');
      [lia|lia|lia|lia|].
    exists t'. simpl. rewrite Hst, bind_Ret.
    replace (c + Z.succ (Z.of_nat (length ops))) with (c + 1 + Z.of_nat (length ops)) by lia.
    split; [assumption|]. split; [assumption|]. split; [lia|]. split; [lia|].
    split; congruence.
Qed.


Lemma ch_empty_absent (t : hashmap) (k : ptr) :
  nodes t = [] → ¬ present t k.
Proof. intros Hn (e & He & _). rewrite Hn in He. inversion He. Qed.

Lemma ch_init_lookups (hf : ptr → Z) (ef : ptr → ptr → Z) (k : ptr) :
  let t := mk_hashmap 10 0 (replicate 10 []) hf ef in
  hashmap_get t k = Ret NULL ∧ hashmap_contains t k = Ret 0 ∧
  hashmap_remove t k = Ret (t, NULL).
Proof.
  intros t. apply ch_absent.
  - split; [simpl; lia|reflexivity].
  - apply ch_empty_absent. reflexivity.
Qed.

Lemma ch_loaded_wf : wf ChainedRuns.loaded_table.
Proof.
  split; [split; [simpl; lia|reflexivity]|].
  split; [now apply ch_default_good_keys|].
  split; [apply ch_placed_check; vm_compute; reflexivity|].
  split; [apply ch_distinct_check; vm_compute; reflexivity|reflexivity].
Qed.

(** Insertions of keys that are new and pairwise different. *)
Lemma ch_adds_spec (es : list hm_entry_t) (t : hashmap) (c : Z) :
  wf t → nentries t ≤ c → size t ≤ Z.max 10 (3 * c) →
  6 * (c + Z.of_nat (length es)) ≤ 2 ^ 31 →
  distinct_keys t es → (∀ e, e ∈ es → ¬ present t (key e)) →
  ∃ t', run (map (λ e, Add (key e) (value e)) es) t = Ret t' ∧ wf t' ∧
        equals t' = equals t ∧
        nentries t' = nentries t + Z.of_nat (length es) ∧
        nodes t' ≡ₚ es ++ nodes t.
Proof.
  revert t c. induction es as [|e es IH]; intros t c Hwf Hn Hs Hb Hd Hab.
  - exists t. simpl. split; [reflexivity|]. split; [assumption|].
    split; [reflexivity|]. split; [lia|reflexivity].
  - assert (H64 : 2 ^ 31 < 2 ^ 64) by (apply Z.pow_lt_mono_r; lia).
    rewrite length_cons, Nat2Z.inj_succ in *.
    assert (Hn0 : 0 ≤ nentries t).
    { destruct Hwf as (_ & _ & _ & _ & ->). unfold live_count. lia. }
    destruct (ch_add_absent t (key e) (value e) Hwf)
      as (t1 & Hadd & Hn1 & Hs1 & He1 & Hh1 & Hp1 & Hwf1 & _);
      [lia|lia|apply Hab; now left|].
    destruct Hd as [Hd1 Hd2].
    destruct (IH t1 (c + 1) Hwf1) as (t' & Hrun & Hwf' & He' & Hn' & Hp').
    + lia.
    + destruct (load_exceeded (nentries t) (size t)) eqn:Hl; [|lia].
      unfold load_exceeded in Hl. apply Z.leb_le in Hl. lia.
    + lia.
    + now apply (ch_distinct_keys_ext t).
    + intros e' He'in (x & Hx & Hm). rewrite He1 in Hm.
      rewrite Hp1 in Hx. apply elem_of_cons in Hx as [->|Hx].
      * simpl in Hm. rewrite (Hd1 e' He'in) in Hm. discriminate.
      * apply (Hab e'); [now right|]. now exists x.
    + exists t'. simpl. rewrite Hadd, bind_Ret.
      split; [assumption|]. split; [assumption|]. split; [congruence|].
      split; [lia|]. rewrite Hp', Hp1. destruct e. simpl.
      now rewrite <- Permutation_middle.
Qed.

Lemma ch_get_of_nodes (t t' : hashmap) (l : list hm_entry_t) (k : ptr) :
  good_keys t → wf t' → equals t' = equals t → nodes t' ≡ₚ l →
  hashmap_get t' k = Ret (first_value t l k).
Proof.
  intros Hg Hwf' He Hp. rewrite (ch_get_spec t' k Hwf'). f_equal.
  rewrite (ch_first_value_ext t t') by assumption.
  apply ch_first_value_perm; [assumption| |assumption].
  apply (ch_distinct_keys_ext t'); [now symmetry|apply Hwf'].
Qed.

Lemma ch_first_value_app_miss (t : hashmap) (l1 l2 : list hm_entry_t) (k : ptr) :
  (∀ e, e ∈ l1 → truthy (equals t (key e) k) = false) →
  first_value t (l1 ++ l2) k = first_value t l2 k.
Proof.
  induction l1 as [|x l1 IH]; intros H; [reflexivity|].
  simpl. rewrite ch_first_value_skip by (apply H; now left).
  apply IH. intros e He. apply H. now right.
Qed.

(** Insertion followed by removal of the same new key. *)
Lemma ch_add_remove (t : hashmap) (k v : ptr) :
  wf t → size t * 2 ≤ 2 ^ 31 → nentries t + 1 < 2 ^ 64 → ¬ present t k →
  ∃ t1 t2, hashmap_add t k v true true = Ret (t1, 1) ∧
    hashmap_remove t1 k = Ret (t2, v) ∧
    nentries t2 = nentries t ∧ nodes t2 ≡ₚ nodes t ∧ wf t2 ∧
    ∀ k', hashmap_get t2 k' = hashmap_get t k'.
Proof.
  intros Hwf Hdbl Hcnt Hab.
  destruct (ch_add_absent t k v Hwf Hdbl Hcnt Hab)
    as (t1 & Hadd & Hn1 & Hs1 & He1 & Hh1 & Hp1 & Hwf1 & _).
  assert (Hpr : present t1 k).
  { exists (mk_entry k v). split; [rewrite Hp1; now left|].
    rewrite He1. destruct Hwf as (_ & (Hr & _) & _). apply Hr. }
  assert (Hn0 : 0 ≤ nentries t).
  { destruct Hwf as (_ & _ & _ & _ & ->). unfold live_count. lia. }
  destruct (ch_remove_present t1 k Hwf1) as
    (t2 & e & He & Hm & Hrem & Hn2 & Hs2 & Hp2 & Hwf2 & _); [lia|assumption|].
  assert (e = mk_entry k v) as ->.
  { rewrite Hp1 in He. apply elem_of_cons in He as [->|He]; [reflexivity|].
    exfalso. apply Hab. exists e. split; [assumption|]. now rewrite <- He1. }
  assert (Hp : nodes t2 ≡ₚ nodes t).
  { apply (Permutation_cons_inv (a := mk_entry k v)). now rewrite <- Hp2. }
  assert (He2 : equals t2 = equals t).
  { unfold hashmap_remove in Hrem.
    apply bind_ret_inv in Hrem as (i & _ & Hrem).
    apply bind_ret_inv in Hrem as (b & _ & Hrem).
    destruct (unlink t1 b k) as [[? ?]|].
    - apply bind_ret_inv in Hrem as (b' & _ & Hrem). injection Hrem as <- _.
      exact He1.
    - injection Hrem as <- _. exact He1. }
  exists t1, t2. split; [assumption|]. split; [assumption|]. split; [lia|].
  split; [assumption|]. split; [assumption|].
  intros k'. now apply ch_get_perm.
Qed.


Lemma ch_match_unique (t : hashmap) (l : list hm_entry_t) (e e' : hm_entry_t)
    (k : ptr) :
  good_keys t → distinct_keys t l → e ∈ l → e' ∈ l →
  truthy (equals t (key e) k) = true → truthy (equals t (key e') k) = true →
  e = e'.
Proof.
  intros (_ & Hsym & Htrans & _) Hd He He' Hm Hm'.
  assert (Hee : truthy (equals t (key e) (key e')) = true)
    by (apply (Htrans _ k); [assumption|now apply Hsym]).
  induction l as [|x l IH]; [inversion He|].
  destruct Hd as [Hx Hd].
  apply elem_of_cons in He as [->|He]; apply elem_of_cons in He' as [->|He'].
  - reflexivity.
  - rewrite (Hx e' He') in Hee. discriminate.
  - apply Hsym in Hee. rewrite (Hx e He) in Hee. discriminate.
  - now apply IH.
Qed.

Lemma ch_absent_check (t : hashmap) (k : ptr) :
  forallb (λ e, negb (truthy (equals t (key e) k))) (nodes t) = true →
  ¬ present t k.
Proof.
  intros Hall (e & He & Hm). rewrite forallb_forall in Hall.
  apply list_elem_of_In in He. specialize (Hall e He).
  rewrite Hm in Hall. discriminate.
Qed.

(** [hashmap_remove] of the key of a stored node. *)
Lemma ch_remove_entry (t : hashmap) (k : ptr) (e : hm_entry_t) :
  wf t → nentries t < 2 ^ 64 →
  e ∈ nodes t → truthy (equals t (key e) k) = true →
  ∃ t', hashmap_remove t k = Ret (t', value e) ∧
    nentries t' = nentries t - 1 ∧ size t' = size t ∧
    nodes t ≡ₚ e :: nodes t' ∧ wf t' ∧
    hashmap_get t' k = Ret NULL ∧ hashmap_contains t' k = Ret 0 ∧
    ∀ k', truthy (equals t k k') = false →
          hashmap_get t' k' = hashmap_get t k'.
Proof.
  intros Hwf Hcnt He Hm.
  destruct (ch_remove_present t k Hwf Hcnt) as (t' & e' & He' & Hm' & Hrest);
    [now exists e|].
  assert (e' = e) as ->.
  { destruct Hwf as (_ & Hg & _ & Hd & _).
    now apply (ch_match_unique t (nodes t) e' e k). }
  now exists t'.
Qed.

(** What the lookups find after insertions of new, pairwise different
    keys. *)
Lemma ch_adds_lookup (es : list hm_entry_t) (t : hashmap) (c : Z) :
  wf t → nentries t ≤ c → size t ≤ Z.max 10 (3 * c) →
  6 * (c + Z.of_nat (length es)) ≤ 2 ^ 31 →
  distinct_keys t es → (∀ e, e ∈ es → ¬ present t (key e)) →
  ∃ t', run (map (λ e, Add (key e) (value e)) es) t = Ret t' ∧ wf t' ∧
    nentries t' = nentries t + Z.of_nat (length es) ∧
    nodes t' ≡ₚ es ++ nodes t ∧
    (∀ e, e ∈ es → hashmap_get t' (key e) = Ret (value e)) ∧
    (∀ k, (∀ e, e ∈ es → truthy (equals t (key e) k) = false) →
          hashmap_get t' k = hashmap_get t k).
Proof.
  intros Hwf Hn Hs Hb Hd Hab.
  destruct (ch_adds_spec es t c Hwf Hn Hs Hb Hd Hab)
    as (t' & Hrun & Hwf' & He & Hn' & Hp).
  pose proof Hwf as (_ & Hg & _).
  assert (Hd' : distinct_keys t (es ++ nodes t)).
  { apply (ch_distinct_keys_perm t (nodes t')); [assumption..|].
    apply (ch_distinct_keys_ext t'); [now symmetry|apply Hwf']. }
  exists t'. split; [assumption|]. split; [assumption|].
  split; [assumption|]. split; [assumption|]. split.
  - intros e Hin. rewrite (ch_get_of_nodes t t' (es ++ nodes t)) by assumption.
    f_equal. apply ch_first_value_unique; [assumption..| |].
    + rewrite elem_of_app. now left.
    + destruct Hg as (Hr & _). apply Hr.
  - intros k Hk. rewrite (ch_get_of_nodes t t' (es ++ nodes t)) by assumption.
    rewrite ch_first_value_app_miss by assumption.
    now rewrite ch_get_spec.
Qed.


Lemma ch_scan_equal_keys (t : hashmap) (l : list hm_entry_t) (k k' : ptr) :
  good_keys t → truthy (equals t k k') = true → scan t l k' = scan t l k.
Proof.
  intros (_ & Hsym & Htrans & _) Hkk. induction l as [|e l IH]; [reflexivity|].
  simpl. rewrite IH.
  destruct (truthy (equals t (key e) k)) eqn:E.
  - now rewrite (Htrans _ _ _ E Hkk).
  - destruct (truthy (equals t (key e) k')) eqn:E'; [|reflexivity].
    rewrite (Htrans _ _ _ E' (Hsym _ _ Hkk)) in E. discriminate.
Qed.

(** Keys that [equals] identifies are looked up alike. *)
Lemma ch_get_equal_keys (t : hashmap) (k k' : ptr) :
  wf t → truthy (equals t k k') = true →
  hashmap_get t k' = hashmap_get t k.
Proof.
  intros Hwf Hkk. rewrite !ch_get_spec by assumption. f_equal.
  unfold first_value. rewrite (ch_scan_equal_keys t (nodes t) k k');
    [reflexivity|apply Hwf|assumption].
Qed.

Lemma ch_ref_eq_good_keys (t : hashmap) : equals t = ref_eq → good_keys t.
Proof.
  intros He. unfold good_keys. rewrite He.
  split; [intros a; now apply ref_eq_truthy|].
  split; [intros a b Hab; apply ref_eq_truthy in Hab; now apply ref_eq_truthy|].
  split.
  - intros a b c Hab Hbc. apply ref_eq_truthy in Hab, Hbc.
    apply ref_eq_truthy. congruence.
  - intros a b Hab. apply ref_eq_truthy in Hab. now subst.
Qed.

Lemma ch_init_wf (hf : ptr → Z) (ef : ptr → ptr → Z) :
  good_keys (mk_hashmap 10 0 (replicate 10 []) hf ef) →
  wf (mk_hashmap 10 0 (replicate 10 []) hf ef).
Proof.
  intros Hg. split; [split; [simpl; lia|reflexivity]|].
  split; [assumption|]. split.
  - intros i b e Hb He.
    change (replicate 10 [] !! i = Some b) in Hb.
    apply lookup_replicate in Hb as [-> _]. inversion He.
  - split; [exact I|reflexivity].
Qed.

Lemma ch_distinct_ref_eq (t : hashmap) (es : list hm_entry_t) :
  equals t = ref_eq → NoDup (map key es) → distinct_keys t es.
Proof.
  intros He. induction es as [|e es IH]; [constructor|].
  simpl. intros Hnd. apply NoDup_cons in Hnd as [Hnot Hnd].
  split; [|now apply IH].
  intros e' He'. rewrite He.
  destruct (truthy (ref_eq (key e) (key e'))) eqn:E; [|reflexivity].
  apply ref_eq_truthy in E. exfalso. apply Hnot. rewrite E.
  apply list_elem_of_In, in_map, list_elem_of_In. assumption.
Qed.

(** Consecutive integer keys, each mapped to itself, in a new table that
    compares keys by address. *)
Lemma ch_consecutive_keys (hf : ptr → Z) (n : Z) :
  0 ≤ n → 6 * n ≤ 2 ^ 31 →
  ∃ t', run (map (λ i, Add i i) (seqZ 0 n))
          (mk_hashmap 10 0 (replicate 10 []) hf ref_eq) = Ret t' ∧
    wf t' ∧ hashmap_size t' = n ∧
    ∀ i, 0 ≤ i < n → hashmap_get t' i = Ret i.
Proof.
  intros Hn Hb. set (t0 := mk_hashmap 10 0 (replicate 10 []) hf ref_eq).
  set (es := map (λ i, mk_entry i i) (seqZ 0 n)).
  assert (Hlen : Z.of_nat (length es) = n).
  { unfold es. rewrite length_map, length_seqZ. lia. }
  destruct (ch_adds_lookup es t0 0) as (t' & Hrun & Hwf' & Hn' & _ & Hin & _).
  - apply ch_init_wf. now apply ch_ref_eq_good_keys.
  - simpl. lia.
  - simpl. lia.
  - lia.
  - apply ch_distinct_ref_eq; [reflexivity|].
    unfold es. rewrite map_map. simpl. rewrite map_id. apply NoDup_seqZ.
  - intros e _. apply ch_empty_absent. reflexivity.
  - exists t'. unfold es in Hrun. rewrite map_map in Hrun. simpl in Hrun.
    split; [exact Hrun|]. split; [exact Hwf'|].
    split; [unfold hashmap_size; rewrite Hn'; simpl; lia|].
    intros i Hi. apply (Hin (mk_entry i i)).
    apply list_elem_of_In.
    apply (in_map (λ j, mk_entry j j) (seqZ 0 n) i).
    apply list_elem_of_In, elem_of_seqZ. lia.
Qed.

Lemma ch_parity_good_keys (t : hashmap) :
  hashcode t = parity_hash → equals t = parity_eq → good_keys t.
Proof.
  intros Hh He. unfold good_keys, hash_of. rewrite Hh, He.
  split; [intros a; now apply parity_eq_truthy|].
  split; [intros a b Hab; apply parity_eq_truthy in Hab;
          now apply parity_eq_truthy|].
  split.
  - intros a b c Hab Hbc. apply parity_eq_truthy in Hab, Hbc.
    apply parity_eq_truthy. congruence.
  - intros a b Hab. apply parity_eq_truthy in Hab. unfold parity_hash.
    now rewrite Hab.
Qed.

Lemma ch_parity_wf : wf ChainedRuns.parity_table.
Proof.
  split; [split; [simpl; lia|reflexivity]|].
  split; [now apply ch_parity_good_keys|].
  split; [apply ch_placed_check; vm_compute; reflexivity|].
  split; [apply ch_distinct_check; vm_compute; reflexivity|reflexivity].
Qed.

End ChainedMore.

(** ** The open-addressing table: absent keys, insertion and removal *)

Lemma filter_insert_gain {A} (P : A → Prop) `{!∀ x, Decision (P x)}
    (l : list A) (i : nat) (a x : A) :
  l !! i = Some a → ¬ P a → P x →
  length (filter P (<[i := x]> l)) = S (length (filter P l)).
Proof.
  revert i. induction l as [|b l IH]; intros i; [discriminate|].
  destruct i as [|i]; simpl; rewrite !filter_cons.
  - intros [= ->] Ha Hx.
    destruct (decide (P x)), (decide (P a)); simpl; tauto.
  - intros Hi Ha Hx. specialize (IH i Hi Ha Hx).
    destruct (decide (P b)); simpl; lia.
Qed.

Lemma filter_insert_loss {A} (P : A → Prop) `{!∀ x, Decision (P x)}
    (l : list A) (i : nat) (a x : A) :
  l !! i = Some a → P a → ¬ P x →
  S (length (filter P (<[i := x]> l))) = length (filter P l).
Proof.
  revert i. induction l as [|b l IH]; intros i; [discriminate|].
  destruct i as [|i]; simpl; rewrite !filter_cons.
  - intros [= ->] Ha Hx.
    destruct (decide (P x)), (decide (P a)); simpl; tauto.
  - intros Hi Ha Hx. specialize (IH i Hi Ha Hx).
    destruct (decide (P b)); simpl; lia.
Qed.

Lemma filter_NoDup_slots {A} (P : A → Prop) `{!∀ x, Decision (P x)}
    (l : list A) :
  (∀ i j x, i ≠ j → l !! i = Some x → l !! j = Some x → ¬ P x) →
  NoDup (filter P l).
Proof.
  induction l as [|a l IH]; intros Hall; [constructor|].
  rewrite filter_cons.
  assert (Htl : NoDup (filter P l)).
  { apply IH. intros i j x Hne Hi Hj. apply (Hall (S i) (S j) x); auto. }
  destruct (decide (P a)) as [Ha|Ha]; [|assumption].
  constructor; [|assumption].
  intros Hin. apply list_elem_of_filter in Hin as [_ Hin].
  apply list_elem_of_lookup in Hin as [j Hj].
  apply (Hall 0%nat (S j) a); auto.
Qed.

Lemma bounded_search (P : Z → bool) (n : Z) :
  (∃ i, 0 ≤ i < n ∧ P i = true) ∨ (∀ i, 0 ≤ i < n → P i = false).
Proof.
  destruct (Z.le_gt_cases 0 n) as [Hn|Hn]; [|right; intros; lia].
  revert n Hn. apply (natlike_ind (λ n, _ ∨ _)).
  - right. intros. lia.
  - intros n Hn [(i & Hi & Hp)|Hno].
    + left. exists i. split; [lia|assumption].
    + destruct (P n) eqn:Hp.
      * left. exists n. split; [lia|assumption].
      * right. intros i Hi. destruct (Z.eq_dec i n) as [->|]; [assumption|].
        apply Hno. lia.
Qed.

Module OpenAddrMore.
Import OpenAddr OpenAddrFacts.

Lemma oa_present_dec (t : hashmap) (k : ptr) :
  present t k ∨ (∀ i, 0 ≤ i < size t → matches t k (slot t i) = false).
Proof. apply (bounded_search (λ i, matches t k (slot t i))). Qed.

Lemma oa_absent_slots (t : hashmap) (k : ptr) :
  ¬ present t k → ∀ i, 0 ≤ i < size t → matches t k (slot t i) = false.
Proof.
  intros Hab i Hi. destruct (matches t k (slot t i)) eqn:Hm; [|reflexivity].
  exfalso. apply Hab. now exists i.
Qed.

(** A key no live slot matches: the lookups answer [NULL] and
    [hashmap_remove] leaves the table as it is. *)
Lemma oa_absent (t : hashmap) (k : ptr) :
  well_sized t → ¬ present t k →
  find_entry t k = Ret None ∧
  hashmap_get t k = Ret NULL ∧ hashmap_contains t k = Ret 0 ∧
  hashmap_remove t k = Ret (t, NULL).
Proof.
  intros Hws Hab. pose proof (oa_absent_slots t k Hab) as Hno.
  pose proof (oa_find_miss t k Hws Hno) as Hf.
  pose proof (oa_get_miss t k Hws Hno) as Hg.
  split; [assumption|]. split; [assumption|].
  split; [now rewrite (oa_contains_of_get t k NULL Hg)|].
  unfold hashmap_remove. now rewrite Hf, bind_Ret.
Qed.

(** The lookup functions and [hashmap_remove] return on every well-sized
    table, whatever it holds. *)
Lemma oa_lookups_total (t : hashmap) (k : ptr) :
  well_sized t →
  ∃ v t' w, hashmap_get t k = Ret v ∧
    hashmap_contains t k = Ret (if v =? NULL then 0 else 1) ∧
    hashmap_remove t k = Ret (t', w) ∧ well_sized t' ∧ size t' = size t ∧
    equals t' = equals t ∧ hashcode t' = hashcode t.
Proof.
  intros Hws. pose proof Hws as [[Hpos _] Hlen].
  destruct (oa_find_entry_total t k Hws) as [[i|] Hf].
  - destruct (oa_find_entry_some t k i Hws Hf) as (n & Hn & Hi & Hm & _).
    assert (Hr : 0 ≤ i < size t) by (subst i; now apply oa_probe_range).
    apply oa_matches_active in Hm as [Ha _].
    assert (Hg : hashmap_get t k = Ret (value (slot t i))).
    { unfold hashmap_get.
      rewrite Hf, bind_Ret, (oa_read_slot t i Hws Hr), bind_Ret, Ha.
      reflexivity. }
    eexists _, _, _. split; [exact Hg|].
    split; [now apply oa_contains_of_get|].
    unfold hashmap_remove.
    rewrite Hf, bind_Ret, (oa_read_slot t i Hws Hr), bind_Ret.
    rewrite (oa_active_not_empty _ Ha).
    rewrite write_in_range by lia. rewrite bind_Ret.
    split; [reflexivity|]. split; [|now repeat split].
    split; [apply Hws|]. simpl. now rewrite length_insert.
  - assert (Hg : hashmap_get t k = Ret NULL)
      by (unfold hashmap_get; now rewrite Hf, bind_Ret).
    exists NULL, t, NULL. split; [exact Hg|].
    split; [now apply oa_contains_of_get|].
    unfold hashmap_remove. rewrite Hf, bind_Ret.
    split; [reflexivity|]. split; [assumption|]. now repeat split.
Qed.

(** A table without a free slot: [add_entry] gives up after one turn
    around the array. *)
Lemma oa_add_entry_full (t : hashmap) (e : hm_entry_t) :
  well_sized t →
  (∀ i, 0 ≤ i < size t → is_active (slot t i) = true) →
  add_entry t e = Ret (t, 0).
Proof.
  intros Hws Hfull.
  destruct (oa_add_entry_cases t e Hws) as [H0|(n & Hn & Hna & _)];
    [assumption|].
  rewrite Hfull in Hna; [discriminate|].
  apply oa_probe_range. destruct Hws as [[? _] _]. assumption.
Qed.


Lemma oa_live_count_bound (t : hashmap) :
  well_sized t → 0 ≤ live_count t ≤ size t.
Proof.
  intros [_ Hlen]. unfold live_count, live_entries.
  pose proof (length_filter (λ e, is_active e = true) (backing t)). lia.
Qed.

Lemma oa_free_slot (t : hashmap) :
  well_sized t → live_count t < size t →
  ∃ i, 0 ≤ i < size t ∧ is_active (slot t i) = false.
Proof.
  intros [_ Hlen] Hlt.
  destruct (filter_short_has_gap (λ e, is_active e = true) (backing t))
    as (i & x & Hi & Hx); [unfold live_count, live_entries in Hlt; lia|].
  pose proof (lookup_lt_Some _ _ _ Hi).
  exists (Z.of_nat i). split; [lia|]. unfold slot. rewrite Nat2Z.id, Hi. simpl.
  now destruct (is_active x).
Qed.

(** Storing a live entry with a new key in the first slot of its probe that
    is not [ACTIVE]. *)
Lemma oa_store_wf (t : hashmap) (e : hm_entry_t) (n : Z) :
  wf t → is_active e = true →
  (∀ i, 0 ≤ i < size t → matches t (key e) (slot t i) = false) →
  0 ≤ n < size t →
  is_active (slot t (probe t (home t (key e)) n)) = false →
  (∀ j, 0 ≤ j < n →
     passes_add t (key e) (slot t (probe t (home t (key e)) j)) = true) →
  let p := probe t (home t (key e)) n in
  let t' := set_backing t (<[Z.to_nat p := e]> (backing t)) in
  wf t' ∧ live_count t' = live_count t + 1 ∧ 0 ≤ p < size t ∧
  ∀ i, 0 ≤ i < size t →
       slot t' i = if decide (i = p) then e else slot t i.
Proof.
  intros (Hws & Hg & Hnd & Hre) Hact Hfresh' Hn Hnap Hpass p t'.
  pose proof Hws as [[Hpos _] Hblen].
  set (h := home t (key e)) in *.
  destruct (oa_compress_home t (key e) Hws) as [_ Hr]. fold h in Hr.
  assert (Hp : 0 ≤ p < size t) by now apply oa_probe_range.
  assert (Hslot : ∀ i, 0 ≤ i < size t →
            slot t' i = if decide (i = p) then e else slot t i)
    by (intros i Hi; now apply oa_slot_insert).
  assert (Hws' : well_sized t')
    by (apply oa_well_sized_set_backing; [assumption|apply length_insert]).
  assert (Hfresh : ∀ i, 0 ≤ i < size t → is_active (slot t i) = true →
            truthy (equals t (key (slot t i)) (key e)) = false).
  { intros i Hi Ha. specialize (Hfresh' i Hi). unfold matches in Hfresh'.
    now rewrite Ha in Hfresh'. }
  split; [split; [assumption|split; [assumption|split]]|split; [|split]].
  - apply oa_nodup_intro; [assumption|].
    intros i j Hi Hj Hne. change (size t') with (size t) in *.
    change (equals t') with (equals t).
    rewrite !Hslot by assumption.
    destruct (decide (i = p)) as [->|Hip], (decide (j = p)) as [->|Hjp].
    + congruence.
    + intros _ Haj.
      destruct (truthy (equals t (key e) (key (slot t j)))) eqn:E; [|reflexivity].
      destruct Hg as (_ & Hsym & _). apply Hsym in E.
      rewrite Hfresh in E by assumption. discriminate.
    + intros Hai _. now apply Hfresh.
    + now apply oa_nodup_slots.
  - intros h' n' Hh' Hn'' Ha' Hhome j Hj.
    change (size t') with (size t) in *.
    change (probe t' h' n') with (probe t h' n') in *.
    change (probe t' h' j) with (probe t h' j).
    change (home t' (key (slot t' (probe t h' n'))))
      with (home t (key (slot t' (probe t h' n')))) in Hhome.
    pose proof (oa_probe_range t h' n' Hpos) as Hrn.
    pose proof (oa_probe_range t h' j Hpos) as Hrj.
    rewrite Hslot in Ha', Hhome by assumption. rewrite Hslot by assumption.
    destruct (decide (probe t h' j = p)) as [_|Hjp];
      [now apply oa_active_not_empty|].
    destruct (decide (probe t h' n' = p)) as [Hnp|Hnp].
    + subst h'. fold h in Hnp, Hjp |- *.
      assert (n' = n) as -> by (apply (oa_probe_inj t h); assumption).
      apply oa_active_not_empty.
      specialize (Hpass j Hj). unfold passes_add in Hpass.
      now apply andb_prop in Hpass as [? _].
    + now apply (Hre h' n').
  - unfold live_count, live_entries, t'. simpl backing.
    rewrite (filter_insert_gain (λ x, is_active x = true) (backing t)
               (Z.to_nat p) (slot t p) e).
    + lia.
    + now apply oa_slot_lookup.
    + fold p in Hnap. congruence.
    + assumption.
  - assumption.
  - assumption.
Qed.

Lemma oa_matches_ext (t t' : hashmap) (k : ptr) (e : hm_entry_t) :
  equals t' = equals t → matches t' k e = matches t k e.
Proof. intros He. unfold matches. now rewrite He. Qed.

Lemma oa_other_key (t : hashmap) (e : hm_entry_t) (k k' : ptr) :
  good_keys t → truthy (equals t (key e) k) = true →
  truthy (equals t k k') = false →
  truthy (equals t (key e) k') = false.
Proof.
  intros (_ & Hsym & Htrans & _) Hm Hne.
  destruct (truthy (equals t (key e) k')) eqn:E; [|reflexivity].
  rewrite (Htrans _ _ _ (Hsym _ _ Hm) E) in Hne. discriminate.
Qed.

(** [add_pair] of a key that no live slot matches, in a table with a slot
    that is not [ACTIVE]. *)
Lemma oa_add_pair_absent (t : hashmap) (k v : ptr) :
  wf t → nentries t = live_count t → live_count t < size t →
  ¬ present t k →
  ∃ t', add_pair t k v = Ret (t', 1) ∧ size t' = size t ∧
    equals t' = equals t ∧ hashcode t' = hashcode t ∧
    nentries t' = nentries t + 1 ∧ nentries t' = live_count t' ∧ wf t' ∧
    (∃ p, 0 ≤ p < size t' ∧ slot t' p = mk_entry k v ACTIVE) ∧
    hashmap_get t' k = Ret v ∧
    (∀ k', truthy (equals t k k') = false →
           hashmap_get t' k' = hashmap_get t k' ∧
           (present t' k' → present t k')).
Proof.
  intros Hwf Hcnt Hroom Hab. pose proof Hwf as (Hws & Hg & Hnd & Hre).
  pose proof (oa_absent_slots t k Hab) as Hno.
  set (e := mk_entry k v ACTIVE).
  destruct (oa_add_entry_place t e Hws Hno (oa_free_slot t Hws Hroom))
    as (n & Hn & Hnap & Hpass & Hadd).
  destruct (oa_store_wf t e n Hwf eq_refl Hno Hn Hnap Hpass)
    as (Hwf1 & Hlc & Hp & Hslot).
  set (p := probe t (home t (key e)) n) in *.
  set (t1 := set_backing t (<[Z.to_nat p := e]> (backing t))) in *.
  pose proof (oa_live_count_bound t Hws) as Hb.
  assert (HI : size t ≤ INT_MAX) by apply Hws.
  assert (Hcast : cast_size_t (nentries t1 + 1) = nentries t + 1).
  { change (nentries t1) with (nentries t). apply cast_size_t_small.
    pose proof pow_31_64. unfold INT_MAX in HI. lia. }
  set (t' := set_nentries t1 (cast_size_t (nentries t1 + 1))).
  assert (Hap : add_pair t k v = Ret (t', 1)).
  { unfold add_pair. fold e. rewrite Hadd, bind_Ret. reflexivity. }
  assert (Hwf' : wf t').
  { destruct Hwf1 as (Hws1 & Hg1 & Hnd1 & Hre1).
    split; [exact Hws1|]. split; [exact Hg1|]. split; [exact Hnd1|exact Hre1]. }
  exists t'. split; [assumption|]. split; [reflexivity|].
  split; [reflexivity|]. split; [reflexivity|].
  split; [exact Hcast|]. split.
  { change (nentries t') with (cast_size_t (nentries t1 + 1)).
    change (live_count t') with (live_count t1). lia. }
  split; [assumption|]. split.
  { exists p. split; [assumption|]. change (slot t' p) with (slot t1 p).
    rewrite Hslot by assumption. destruct (decide (p = p)); [reflexivity|congruence]. }
  split.
  { apply (oa_add_pair_get t t' k v Hws); [|assumption].
    destruct Hg as (Hr & _). apply Hr. }
  intros k' Hne.
  assert (Hsl : ∀ i, 0 ≤ i < size t →
            matches t' k' (slot t' i) = matches t k' (slot t i)).
  { intros i Hi. change (slot t' i) with (slot t1 i).
    change (matches t' k' (slot t1 i)) with (matches t k' (slot t1 i)).
    rewrite Hslot by assumption. destruct (decide (i = p)) as [->|_]; [|reflexivity].
    unfold matches at 2. fold p in Hnap. rewrite Hnap. simpl.
    unfold matches, e. simpl. now rewrite Hne. }
  split.
  - destruct (oa_present_dec t k') as [(i & Hi & Hm)|Hmiss].
    + rewrite (oa_get_hit t k' i Hwf Hi Hm).
      rewrite (oa_get_hit t' k' i Hwf' Hi) by (now rewrite Hsl).
      change (slot t' i) with (slot t1 i). rewrite Hslot by assumption.
      destruct (decide (i = p)) as [->|_]; [|reflexivity].
      apply oa_matches_active in Hm as [Ha _]. fold p in Hnap. congruence.
    + rewrite (oa_get_miss t k' Hws Hmiss).
      apply oa_get_miss; [apply Hwf'|].
      intros i Hi. rewrite Hsl by assumption. now apply Hmiss.
  - intros (i & Hi & Hm). exists i. split; [assumption|].
    now rewrite <- Hsl.
Qed.


Lemma oa_live_NoDup (t : hashmap) :
  good_keys t → no_duplicate_live t → NoDup (live_entries t).
Proof.
  intros (Hrefl & _) Hnd. apply filter_NoDup_slots.
  intros i j x Hne Hi Hj Ha.
  specialize (Hnd i j x x Hne (conj Hi Ha) (conj Hj Ha)).
  rewrite Hrefl in Hnd. discriminate.
Qed.

Lemma oa_live_elem (t : hashmap) (e : hm_entry_t) :
  well_sized t →
  e ∈ live_entries t ↔
  ∃ i, 0 ≤ i < size t ∧ slot t i = e ∧ is_active e = true.
Proof.
  intros Hws. pose proof Hws as [_ Hlen].
  unfold live_entries. rewrite list_elem_of_filter. split.
  - intros [Ha Hin]. apply list_elem_of_lookup in Hin as [i Hi].
    pose proof (lookup_lt_Some _ _ _ Hi).
    exists (Z.of_nat i). split; [lia|]. split; [|assumption].
    unfold slot. now rewrite Nat2Z.id, Hi.
  - intros (i & Hi & Hs & Ha). split; [assumption|].
    apply list_elem_of_lookup. exists (Z.to_nat i). rewrite <- Hs.
    now apply oa_slot_lookup.
Qed.

Lemma oa_rehashed_count (t s : hashmap) :
  wf t → rehashed t s (size t) → live_count s = live_count t.
Proof.
  intros (Hwst & Hgt & Hndt & _)
         (Hws & Hh & He & Hn & Htf & Hre & Hnd & Hlen & Hcor).
  unfold live_count. f_equal. apply Permutation_length.
  apply NoDup_Permutation.
  - apply oa_live_NoDup; [|assumption]. now apply (oa_good_keys_ext t).
  - now apply oa_live_NoDup.
  - intros e. rewrite !oa_live_elem by assumption. rewrite (Hcor e).
    split; intros (j & Hj & Hs); exists j; (split; [lia|tauto]).
Qed.

(** [resize] to a larger array. *)
Lemma oa_resize_grow (t : hashmap) (new_size : Z) :
  wf t → size t < new_size ≤ INT_MAX →
  ∃ t1, resize t new_size true = Ret (t1, 1) ∧ size t1 = new_size ∧
    nentries t1 = nentries t ∧ hashcode t1 = hashcode t ∧
    equals t1 = equals t ∧ wf t1 ∧ tombstone_free t1 ∧
    live_count t1 = live_count t ∧
    (∀ k, hashmap_get t1 k = hashmap_get t k) ∧
    (∀ k, present t1 k ↔ present t k).
Proof.
  intros Hwf Hns. pose proof Hwf as (Hws & Hg & _).
  destruct (oa_resize_spec t new_size Hwf Hns) as (t1 & Hre & Hs1 & Hrh).
  pose proof Hrh as (Hws1 & Hh1 & He1 & Hn1 & Htf & _ & _ & _ & Hcor).
  exists t1. split; [assumption|]. split; [assumption|].
  split; [assumption|]. split; [assumption|]. split; [assumption|].
  split; [now apply (oa_rehashed_wf t t1 (size t))|].
  split; [assumption|]. split; [now apply oa_rehashed_count|].
  split; [intros k; now apply oa_rehashed_get|].
  intros k. split; [|now apply oa_rehashed_present].
  intros (i & Hi & Hm).
  pose proof (oa_matches_active _ _ _ Hm) as [Ha _].
  destruct (proj1 (Hcor (slot t1 i))) as (j & Hj & Hjt & Hs & _);
    [now exists i|].
  exists j. split; [lia|]. rewrite Hs.
  now rewrite <- (oa_matches_ext t t1).
Qed.

(** [hashmap_add] of a key that no live slot matches. *)
Lemma oa_add_absent (t : hashmap) (k v : ptr) :
  wf t → nentries t = live_count t → size t * 2 ≤ INT_MAX →
  ¬ present t k →
  ∃ t', hashmap_add t k v true = Ret (t', 1) ∧
    nentries t' = nentries t + 1 ∧ nentries t' = live_count t' ∧
    size t' = (if load_exceeded (nentries t) (size t) then size t * 2
               else size t) ∧
    equals t' = equals t ∧ hashcode t' = hashcode t ∧ wf t' ∧
    (∃ p, 0 ≤ p < size t' ∧ slot t' p = mk_entry k v ACTIVE) ∧
    hashmap_get t' k = Ret v ∧
    (∀ k', truthy (equals t k k') = false →
           hashmap_get t' k' = hashmap_get t k' ∧
           (present t' k' → present t k')).
Proof.
  intros Hwf Hcnt Hdbl Hab. pose proof Hwf as (Hws & Hg & _).
  pose proof (oa_live_count_bound t Hws) as Hb.
  pose proof Hws as [[Hpos HI] _].
  unfold hashmap_add.
  assert (Hcast : cast_size_t (size t * 2) = size t * 2).
  { apply cast_size_t_small. pose proof pow_31_64. unfold INT_MAX in Hdbl. lia. }
  rewrite Hcast.
  destruct (load_exceeded (nentries t) (size t)) eqn:Hl.
  - destruct (oa_resize_grow t (size t * 2) Hwf)
      as (t1 & Hre & Hs1 & Hn1 & Hh1 & He1 & Hwf1 & _ & Hlc1 & Hget1 & Hpr1);
      [lia|].
    rewrite Hre, bind_Ret. cbv beta iota. change (1 =? 0) with false. cbv iota.
    destruct (oa_add_pair_absent t1 k v Hwf1)
      as (t' & Hap & Hs & He & Hh & Hn & Hc & Hwf' & Hst & Hgk & Hoth);
      [lia|lia|now rewrite Hpr1|].
    exists t'. split; [assumption|]. split; [lia|]. split; [assumption|].
    split; [lia|]. split; [congruence|]. split; [congruence|].
    split; [assumption|]. split; [assumption|]. split; [assumption|].
    intros k' Hne. rewrite <- He1 in Hne.
    destruct (Hoth k' Hne) as [Hg' Hp']. split; [now rewrite Hg'|].
    intros Hp. now apply Hpr1, Hp'.
  - unfold load_exceeded in Hl. apply Z.leb_gt in Hl.
    destruct (oa_add_pair_absent t k v Hwf Hcnt)
      as (t' & Hap & Hs & He & Hh & Hn & Hc & Hwf' & Hst & Hgk & Hoth);
      [lia|assumption|].
    exists t'. split; [assumption|]. split; [lia|]. split; [assumption|].
    split; [lia|]. split; [congruence|]. split; [congruence|].
    split; [assumption|]. split; [assumption|]. split; assumption.
Qed.

(** [hashmap_remove] of a key a live slot matches. *)
Lemma oa_remove_present (t : hashmap) (k : ptr) (i : Z) :
  wf t → nentries t = live_count t →
  0 ≤ i < size t → matches t k (slot t i) = true →
  ∃ t', hashmap_remove t k = Ret (t', value (slot t i)) ∧
    size t' = size t ∧ equals t' = equals t ∧ hashcode t' = hashcode t ∧
    nentries t' = nentries t - 1 ∧ nentries t' = live_count t' ∧ wf t' ∧
    state (slot t' i) = DELETED ∧
    (∀ j, 0 ≤ j < size t → j ≠ i → slot t' j = slot t j) ∧
    hashmap_get t' k = Ret NULL ∧ hashmap_contains t' k = Ret 0 ∧
    (∀ k', truthy (equals t k k') = false →
           hashmap_get t' k' = hashmap_get t k').
Proof.
  intros Hwf Hcnt Hi Hm. pose proof Hwf as (Hws & Hg & Hnd & Hre).
  pose proof Hws as [[Hpos HI] Hlen].
  pose proof (oa_matches_active _ _ _ Hm) as [Ha Hk].
  set (d := mk_entry (key (slot t i)) (value (slot t i)) DELETED).
  set (t1 := set_backing t (<[Z.to_nat i := d]> (backing t))).
  set (t' := set_nentries t1 (cast_size_t (nentries t - 1))).
  assert (Hrem : hashmap_remove t k = Ret (t', value (slot t i))).
  { unfold hashmap_remove.
    rewrite (oa_find_hit t k i Hwf Hi Hm), bind_Ret.
    rewrite (oa_read_slot t i Hws Hi), bind_Ret.
    rewrite (oa_active_not_empty _ Ha).
    rewrite write_in_range by lia. reflexivity. }
  assert (Hslot : ∀ j, 0 ≤ j < size t →
            slot t' j = if decide (j = i) then d else slot t j)
    by (intros j Hj; now apply (oa_slot_insert t i j d)).
  assert (Hlc : live_count t' + 1 = live_count t).
  { unfold live_count, live_entries, t'. simpl backing.
    rewrite <- (filter_insert_loss (λ x, is_active x = true) (backing t)
                  (Z.to_nat i) (slot t i) d);
      [lia|now apply oa_slot_lookup|assumption|discriminate]. }
  assert (Hws' : well_sized t').
  { split; [apply Hws|]. simpl. now rewrite length_insert. }
  assert (Hlive : ∀ j, 0 ≤ j < size t → is_active (slot t' j) = true →
            j ≠ i ∧ slot t' j = slot t j).
  { intros j Hj. rewrite Hslot by assumption.
    destruct (decide (j = i)); [discriminate|]. now split. }
  assert (Hwf' : wf t').
  { split; [assumption|]. split; [exact Hg|]. split.
    - apply oa_nodup_intro; [assumption|].
      intros a b Ha' Hb' Hne Haa Hab. change (size t') with (size t) in *.
      destruct (Hlive a Ha' Haa) as [_ Ea]. destruct (Hlive b Hb' Hab) as [_ Eb].
      rewrite Ea, Eb in *. change (equals t') with (equals t).
      now apply oa_nodup_slots.
    - intros h n Hh Hn Han Hhome j Hj.
      change (size t') with (size t) in *.
      change (probe t' h n) with (probe t h n) in *.
      change (probe t' h j) with (probe t h j).
      pose proof (oa_probe_range t h n Hpos) as Hrn.
      pose proof (oa_probe_range t h j Hpos) as Hrj.
      destruct (Hlive _ Hrn Han) as [_ En]. rewrite En in Han, Hhome.
      rewrite Hslot by assumption.
      destruct (decide (probe t h j = i)); [reflexivity|].
      now apply (Hre h n). }
  pose proof (oa_live_count_bound t' Hws') as Hb'.
  assert (Hn' : nentries t' = nentries t - 1).
  { apply cast_size_t_small. pose proof pow_31_64.
    pose proof (oa_live_count_bound t Hws). unfold INT_MAX in HI. lia. }
  assert (Hgone : ∀ j, 0 ≤ j < size t' → matches t' k (slot t' j) = false).
  { intros j Hj. change (size t') with (size t) in Hj.
    destruct (matches t' k (slot t' j)) eqn:E; [|reflexivity].
    apply oa_matches_active in E as [Haj Hkj].
    destruct (Hlive j Hj Haj) as [Hne Ej]. rewrite Ej in Haj, Hkj.
    change (equals t') with (equals t) in Hkj.
    pose proof (oa_nodup_slots t i j Hws Hnd Hi Hj ltac:(congruence) Ha Haj) as Hdiff.
    destruct Hg as (_ & Hsym & Htrans & _).
    rewrite (Htrans _ _ _ Hk (Hsym _ _ Hkj)) in Hdiff. discriminate. }
  pose proof (oa_get_miss t' k Hws' Hgone) as Hget.
  exists t'. split; [assumption|]. split; [reflexivity|].
  split; [reflexivity|]. split; [reflexivity|]. split; [assumption|].
  split; [lia|]. split; [assumption|]. split.
  { rewrite Hslot by assumption. destruct (decide (i = i)); [reflexivity|congruence]. }
  split.
  { intros j Hj Hne. rewrite Hslot by assumption.
    destruct (decide (j = i)); [congruence|reflexivity]. }
  split; [assumption|].
  split; [now rewrite (oa_contains_of_get t' k NULL Hget)|].
  intros k' Hne.
  assert (Hsl : ∀ j, 0 ≤ j < size t →
            matches t' k' (slot t' j) = matches t k' (slot t j)).
  { intros j Hj. rewrite Hslot by assumption.
    destruct (decide (j = i)) as [->|_]; [|reflexivity].
    change (matches t' k' d) with false. symmetry. unfold matches.
    rewrite Ha. simpl. now apply (oa_other_key t (slot t i) k k'). }
  destruct (oa_present_dec t k') as [(j & Hj & Hmj)|Hmiss].
  - rewrite (oa_get_hit t k' j Hwf Hj Hmj).
    rewrite (oa_get_hit t' k' j Hwf' Hj) by (now rewrite Hsl).
    rewrite Hslot by assumption.
    destruct (decide (j = i)) as [->|_]; [|reflexivity]. reflexivity.
  - rewrite (oa_get_miss t k' Hws Hmiss).
    apply oa_get_miss; [assumption|].
    intros j Hj. rewrite Hsl by assumption. now apply Hmiss.
Qed.


Lemma oa_init_lookups (hf : ptr → Z) (ef : ptr → ptr → Z) (k : ptr) :
  let t := mk_hashmap 10 0 (replicate 10 zero_entry) hf ef in
  hashmap_get t k = Ret NULL ∧ hashmap_contains t k = Ret 0 ∧
  hashmap_remove t k = Ret (t, NULL).
Proof.
  intros t. apply oa_absent.
  - split; [unfold INT_MAX; simpl; lia|reflexivity].
  - intros (i & Hi & Hm). unfold t in Hm.
    rewrite (oa_slot_replicate _ 10) in Hm by reflexivity. discriminate.
Qed.

Lemma oa_loaded_wf : wf OpenAddrRuns.loaded_table.
Proof.
  split; [split; [unfold INT_MAX; simpl; lia|reflexivity]|].
  split; [now apply oa_default_good_keys|].
  split; [apply oa_no_duplicate_check; vm_compute; reflexivity|].
  apply oa_reachable_check; vm_compute; reflexivity.
Qed.

(** Keys that [equals] identifies are looked up alike. *)
Lemma oa_get_equal_keys (t : hashmap) (k k' : ptr) :
  wf t → truthy (equals t k k') = true →
  hashmap_get t k' = hashmap_get t k.
Proof.
  intros Hwf Hkk. pose proof Hwf as (Hws & Hg & _).
  pose proof Hg as (_ & Hsym & Htrans & _).
  destruct (oa_present_dec t k) as [(i & Hi & Hm)|Hmiss].
  - rewrite (oa_get_hit t k i Hwf Hi Hm). apply oa_get_hit; [assumption..|].
    apply oa_matches_active in Hm as [Ha Hk]. unfold matches.
    rewrite Ha. simpl. now apply (Htrans _ k).
  - rewrite (oa_get_miss t k Hws Hmiss). apply oa_get_miss; [assumption|].
    intros i Hi. destruct (matches t k' (slot t i)) eqn:E; [|reflexivity].
    apply oa_matches_active in E as [Ha Hk].
    specialize (Hmiss i Hi). unfold matches in Hmiss. rewrite Ha in Hmiss.
    simpl in Hmiss. rewrite (Htrans _ _ _ Hk (Hsym _ _ Hkk)) in Hmiss.
    discriminate.
Qed.

(** Insertion followed by removal of the same new key. *)
Lemma oa_add_remove (t : hashmap) (k v : ptr) :
  wf t → nentries t = live_count t → size t * 2 ≤ INT_MAX →
  ¬ present t k →
  ∃ t1 t2, hashmap_add t k v true = Ret (t1, 1) ∧
    hashmap_remove t1 k = Ret (t2, v) ∧
    nentries t2 = nentries t ∧ nentries t2 = live_count t2 ∧ wf t2 ∧
    ∀ k', hashmap_get t2 k' = hashmap_get t k'.
Proof.
  intros Hwf Hcnt Hdbl Hab. pose proof Hwf as (Hws & Hg & _).
  destruct (oa_add_absent t k v Hwf Hcnt Hdbl Hab)
    as (t1 & Hadd & Hn1 & Hc1 & Hs1 & He1 & Hh1 & Hwf1 & (p & Hp & Hsp) & Hgk & Hoth).
  assert (Hm : matches t1 k (slot t1 p) = true).
  { rewrite Hsp. unfold matches. simpl. rewrite He1.
    destruct Hg as (Hr & _). apply Hr. }
  destruct (oa_remove_present t1 k p Hwf1 Hc1 Hp Hm)
    as (t2 & Hrem & Hs2 & He2 & Hh2 & Hn2 & Hc2 & Hwf2 & _ & _ & Hgone & _ & Hoth2).
  rewrite Hsp in Hrem. simpl in Hrem.
  exists t1, t2. split; [assumption|]. split; [assumption|].
  split; [lia|]. split; [assumption|]. split; [assumption|].
  intros k'. destruct (truthy (equals t k k')) eqn:E.
  - rewrite (oa_get_equal_keys t2 k k' Hwf2) by (now rewrite He2, He1).
    rewrite (oa_get_equal_keys t k k' Hwf E).
    rewrite Hgone. symmetry. now apply oa_absent.
  - rewrite Hoth2 by (now rewrite He1). now apply Hoth.
Qed.

(** Insertions of keys that are new and pairwise different. *)
Lemma oa_adds_spec (kvs : list (ptr * ptr)) (t : hashmap) (c : Z) :
  wf t → nentries t = live_count t →
  nentries t ≤ c → size t ≤ Z.max 10 (3 * c) →
  6 * (c + Z.of_nat (length kvs)) ≤ INT_MAX →
  (∀ i j p q, i ≠ j → kvs !! i = Some p → kvs !! j = Some q →
     truthy (equals t p.1 q.1) = false) →
  (∀ p, p ∈ kvs → ¬ present t p.1) →
  ∃ t', run (map (λ p, Add p.1 p.2) kvs) t = Ret t' ∧ wf t' ∧
    nentries t' = live_count t' ∧ equals t' = equals t ∧
    nentries t' = nentries t + Z.of_nat (length kvs) ∧
    (∀ p, p ∈ kvs → hashmap_get t' p.1 = Ret p.2) ∧
    (∀ k, (∀ p, p ∈ kvs → truthy (equals t p.1 k) = false) →
          hashmap_get t' k = hashmap_get t k ∧ (present t' k → present t k)).
Proof.
  revert t c. induction kvs as [|[k v] kvs IH];
    intros t c Hwf Hcnt Hn Hs Hb Hd Hab.
  - exists t. simpl. split; [reflexivity|]. split; [assumption|].
    split; [assumption|]. split; [reflexivity|]. split; [lia|].
    split; [intros p Hp; inversion Hp|]. intros k _. now split.
  - rewrite length_cons, Nat2Z.inj_succ in *.
    pose proof (oa_live_count_bound t (proj1 Hwf)) as Hlb.
    destruct (oa_add_absent t k v Hwf Hcnt)
      as (t1 & Hadd & Hn1 & Hc1 & Hs1 & He1 & Hh1 & Hwf1 & _ & Hgk & Hoth).
    { unfold INT_MAX in *. lia. }
    { apply (Hab (k, v)). now left. }
    assert (Hhead : ∀ q, q ∈ kvs → truthy (equals t k q.1) = false).
    { intros q Hq. apply list_elem_of_lookup in Hq as [j Hj].
      apply (Hd 0%nat (S j) (k, v) q); [lia|reflexivity|assumption]. }
    assert (Hhead' : ∀ q, q ∈ kvs → truthy (equals t q.1 k) = false).
    { intros q Hq. apply list_elem_of_lookup in Hq as [j Hj].
      apply (Hd (S j) 0%nat q (k, v)); [lia|assumption|reflexivity]. }
    destruct (IH t1 (c + 1) Hwf1 Hc1)
      as (t' & Hrun & Hwf' & Hc' & He' & Hn' & Hin & Hout).
    + lia.
    + destruct (load_exceeded (nentries t) (size t)) eqn:Hl; [|lia].
      unfold load_exceeded in Hl. apply Z.leb_le in Hl. lia.
    + lia.
    + intros i j p q Hne Hi Hj. rewrite He1.
      apply (Hd (S i) (S j)); [lia|assumption..].
    + intros q Hq Hpr. apply (Hab q); [now right|].
      apply (Hoth q.1); [now apply Hhead|assumption].
    + exists t'. simpl. rewrite Hadd, bind_Ret.
      split; [assumption|]. split; [assumption|]. split; [assumption|].
      split; [congruence|]. split; [lia|]. split.
      * intros p Hp. apply elem_of_cons in Hp as [->|Hp]; [|now apply Hin].
        simpl. destruct (Hout k) as [-> _]; [|assumption].
        intros q Hq. rewrite He1. now apply Hhead'.
      * intros k0 Hk0.
        destruct (Hout k0) as [Hg0 Hp0].
        { intros q Hq. rewrite He1. apply Hk0. now right. }
        destruct (Hoth k0) as [Hg1 Hp1].
        { apply (Hk0 (k, v)). now left. }
        split; [now rewrite Hg0|]. intros Hpr. now apply Hp1, Hp0.
Qed.


Lemma oa_absent_check (t : hashmap) (k : ptr) :
  forallb (λ e, negb (matches t k e)) (backing t) = true → ¬ present t k.
Proof.
  intros Hall (i & Hi & Hm). rewrite forallb_forall in Hall.
  unfold slot in Hm. destruct (backing t !! Z.to_nat i) as [e|] eqn:E.
  - simpl in Hm. apply list_elem_of_lookup_2, list_elem_of_In in E.
    specialize (Hall e E). rewrite Hm in Hall. discriminate.
  - simpl in Hm. unfold matches in Hm. discriminate.
Qed.

Lemma oa_tombstone_wf : wf OpenAddrRuns.tombstone_table.
Proof.
  split; [split; [unfold INT_MAX; simpl; lia|reflexivity]|].
  split; [now apply oa_default_good_keys|].
  split; [apply oa_no_duplicate_check; vm_compute; reflexivity|].
  apply oa_reachable_check; vm_compute; reflexivity.
Qed.


Lemma oa_ref_eq_good_keys (t : hashmap) : equals t = ref_eq → good_keys t.
Proof.
  intros He. unfold good_keys. rewrite He.
  split; [intros a; now apply ref_eq_truthy|].
  split; [intros a b Hab; apply ref_eq_truthy in Hab; now apply ref_eq_truthy|].
  split.
  - intros a b c Hab Hbc. apply ref_eq_truthy in Hab, Hbc.
    apply ref_eq_truthy. congruence.
  - intros a b Hab. apply ref_eq_truthy in Hab. now subst.
Qed.

Lemma oa_init_wf (hf : ptr → Z) (ef : ptr → ptr → Z) :
  good_keys (mk_hashmap 10 0 (replicate 10 zero_entry) hf ef) →
  wf (mk_hashmap 10 0 (replicate 10 zero_entry) hf ef).
Proof.
  intros Hg. split; [split; [unfold INT_MAX; simpl; lia|reflexivity]|].
  split; [assumption|]. split.
  - intros i j e1 e2 _ [Hi Ha] _.
    change (replicate 10 zero_entry !! i = Some e1) in Hi.
    apply lookup_replicate in Hi as [-> _]. discriminate.
  - intros h n _ _ Ha. rewrite (oa_slot_replicate _ 10) in Ha by reflexivity.
    discriminate.
Qed.

Lemma oa_init_absent (hf : ptr → Z) (ef : ptr → ptr → Z) (k : ptr) :
  ¬ present (mk_hashmap 10 0 (replicate 10 zero_entry) hf ef) k.
Proof.
  intros (i & _ & Hm).
  rewrite (oa_slot_replicate _ 10) in Hm by reflexivity. discriminate.
Qed.

Lemma map_fmap {A B} (f : A → B) (l : list A) : map f l = f <$> l.
Proof. induction l as [|a l IH]; [reflexivity|]. simpl. now rewrite IH. Qed.

Lemma lookup_map_seqZ {A} (f : Z → A) (n : Z) (i : nat) (x : A) :
  map f (seqZ 0 n) !! i = Some x → x = f (Z.of_nat i) ∧ Z.of_nat i < n.
Proof.
  rewrite map_fmap, list_lookup_fmap. destruct (seqZ 0 n !! i) as [y|] eqn:E;
    [|discriminate].
  apply lookup_seqZ in E as [-> Hi]. intros [= <-]. split; [f_equal; lia|lia].
Qed.

(** Consecutive integer keys, each mapped to itself, in a new table that
    compares keys by address. *)
Lemma oa_consecutive_keys (hf : ptr → Z) (n : Z) :
  0 ≤ n → 6 * n ≤ INT_MAX →
  ∃ t', run (map (λ i, Add i i) (seqZ 0 n))
          (mk_hashmap 10 0 (replicate 10 zero_entry) hf ref_eq) = Ret t' ∧
    wf t' ∧ hashmap_size t' = n ∧
    ∀ i, 0 ≤ i < n → hashmap_get t' i = Ret i.
Proof.
  intros Hn Hb.
  set (t0 := mk_hashmap 10 0 (replicate 10 zero_entry) hf ref_eq).
  set (kvs := map (λ i, (i, i)) (seqZ 0 n)).
  destruct (oa_adds_spec kvs t0 0)
    as (t' & Hrun & Hwf' & _ & _ & Hn' & Hin & _).
  - apply oa_init_wf. now apply oa_ref_eq_good_keys.
  - reflexivity.
  - simpl. lia.
  - simpl. lia.
  - unfold kvs. rewrite length_map, length_seqZ. lia.
  - intros i j p q Hne Hi Hj.
    apply lookup_map_seqZ in Hi as [-> _], Hj as [-> _]. simpl.
    destruct (truthy (ref_eq (Z.of_nat i) (Z.of_nat j))) eqn:E; [|reflexivity].
    apply ref_eq_truthy in E. lia.
  - intros p _. apply oa_init_absent.
  - exists t'. unfold kvs in Hrun. rewrite map_map in Hrun. simpl in Hrun.
    split; [exact Hrun|]. split; [exact Hwf'|].
    split.
    { unfold hashmap_size. rewrite Hn'. unfold kvs.
      rewrite length_map, length_seqZ. simpl. lia. }
    intros i Hi. apply (Hin (i, i)).
    apply list_elem_of_In.
    apply (in_map (λ j, (j, j)) (seqZ 0 n) i).
    apply list_elem_of_In, elem_of_seqZ. lia.
Qed.


(** *** Safety of every sequence of calls

    The count [nentries] never falls below the number of [ACTIVE] slots,
    whatever the slots hold; this keeps the counter from wrapping and the
    array within the [int] indexes. *)

Lemma oa_add_entry_frame (t : hashmap) (e : hm_entry_t) :
  well_sized t →
  ∃ t' r, add_entry t e = Ret (t', r) ∧ (r = 0 ∨ r = 1) ∧
    size t' = size t ∧ nentries t' = nentries t ∧
    hashcode t' = hashcode t ∧ equals t' = equals t ∧ well_sized t' ∧
    live_count t' ≤ live_count t + r.
Proof.
  intros Hws. destruct (oa_add_entry_cases t e Hws) as [H|(n & _ & _ & _ & H)];
    rewrite H.
  - exists t, 0. split; [reflexivity|]. split; [now left|].
    repeat (split; [reflexivity|]). split; [assumption|lia].
  - eexists _, 1. split; [reflexivity|]. split; [now right|].
    repeat (split; [reflexivity|]).
    split; [apply oa_well_sized_set_backing; [assumption|apply length_insert]|].
    unfold live_count, live_entries. simpl backing.
    pose proof (filter_insert_length (λ x, is_active x = true) (backing t)
                  (Z.to_nat (probe t (home t (key e)) n)) e). lia.
Qed.

Lemma oa_rehash_loop_frame (old : list hm_entry_t) (n : nat) (i : nat)
    (t : hashmap) :
  well_sized t → (i + n ≤ length old)%nat →
  ∃ t', rehash_loop old n (Z.of_nat i) t = Ret t' ∧
    size t' = size t ∧ nentries t' = nentries t ∧
    hashcode t' = hashcode t ∧ equals t' = equals t ∧ well_sized t' ∧
    live_count t' ≤ live_count t +
      Z.of_nat (length (filter (λ x, is_active x = true) (take n (drop i old)))).
Proof.
  revert i t. induction n as [|n IH]; intros i t Hws Hin.
  - exists t. simpl. repeat (split; [reflexivity|]). split; [assumption|].
    lia.
  - destruct (lookup_lt_is_Some_2 old i) as [cur Hcur]; [lia|].
    assert (Hread : read old (Z.of_nat i) = Ret cur).
    { apply read_ret. rewrite Nat2Z.id. split; [lia|assumption]. }
    rewrite (drop_S old cur i Hcur). rewrite firstn_cons, filter_cons.
    simpl rehash_loop. rewrite Hread, bind_Ret.
    replace (Z.of_nat i + 1) with (Z.of_nat (S i)) by lia.
    destruct (is_active cur) eqn:Ha.
    + destruct (oa_add_entry_frame t cur Hws)
        as (t1 & r & Hadd & Hr & Hs & Hn & Hh & He & Hws1 & Hl).
      rewrite Hadd, ?bind_Ret. cbv beta iota. rewrite ?bind_Ret.
      destruct (IH (S i) t1 Hws1) as (t' & Hlo & Hs' & Hn' & Hh' & He' & Hws' & Hl');
        [lia|].
      exists t'. split; [exact Hlo|].
      split; [congruence|]. split; [congruence|]. split; [congruence|].
      split; [congruence|]. split; [exact Hws'|].
      destruct (decide (true = true)); [|congruence]. simpl length. lia.
    + rewrite ?bind_Ret.
      destruct (IH (S i) t Hws) as (t' & Hlo & Hs' & Hn' & Hh' & He' & Hws' & Hl');
        [lia|].
      exists t'. split; [exact Hlo|].
      split; [exact Hs'|]. split; [exact Hn'|]. split; [exact Hh'|].
      split; [exact He'|]. split; [exact Hws'|].
      destruct (decide (false = true)); [discriminate|]. lia.
Qed.

Lemma oa_resize_frame (t : hashmap) (new_size : Z) :
  well_sized t → 0 < new_size ≤ INT_MAX →
  ∃ t', resize t new_size true = Ret (t', 1) ∧
    size t' = new_size ∧ nentries t' = nentries t ∧
    hashcode t' = hashcode t ∧ equals t' = equals t ∧ well_sized t' ∧
    live_count t' ≤ live_count t.
Proof.
  intros Hws Hns. unfold resize. cbv zeta.
  set (t1 := mk_hashmap new_size (nentries t)
               (replicate (Z.to_nat new_size) zero_entry) (hashcode t) (equals t)).
  assert (Hws1 : well_sized t1).
  { unfold well_sized, t1. simpl. rewrite length_replicate. lia. }
  destruct Hws as [_ Hlen].
  destruct (oa_rehash_loop_frame (backing t) (Z.to_nat (size t)) 0 t1 Hws1)
    as (t' & Hlo & Hs & Hn & Hh & He & Hws' & Hl); [lia|].
  change (Z.of_nat 0) with 0 in Hlo. rewrite Hlo, bind_Ret.
  exists t'. split; [reflexivity|].
  split; [exact Hs|]. split; [exact Hn|]. split; [exact Hh|].
  split; [exact He|]. split; [exact Hws'|].
  rewrite drop_0, take_ge in Hl by lia.
  assert (H0 : live_count t1 = 0).
  { unfold live_count, live_entries, t1. simpl backing.
    now rewrite oa_filter_replicate_zero. }
  unfold live_count at 2. unfold live_entries. lia.
Qed.

Lemma oa_add_frame (t : hashmap) (k v : ptr) (c : Z) :
  well_sized t → live_count t ≤ nentries t → nentries t ≤ c →
  size t ≤ Z.max 10 (3 * c) → 6 * (c + 1) ≤ INT_MAX →
  ∃ t' r, hashmap_add t k v true = Ret (t', r) ∧ well_sized t' ∧
    live_count t' ≤ nentries t' ∧ nentries t' ≤ c + 1 ∧
    size t' ≤ Z.max 10 (3 * (c + 1)) ∧
    hashcode t' = hashcode t ∧ equals t' = equals t.
Proof.
  intros Hws Hlive Hn Hs Hb.
  pose proof (oa_live_count_bound t Hws) as Hlb.
  pose proof pow_31_64 as H64.
  assert (Hpair : ∀ t1, well_sized t1 → live_count t1 ≤ nentries t1 →
            nentries t1 ≤ c →
            ∃ t' r, add_pair t1 k v = Ret (t', r) ∧ well_sized t' ∧
              live_count t' ≤ nentries t' ∧ nentries t' ≤ c + 1 ∧
              size t' = size t1 ∧
              hashcode t' = hashcode t1 ∧ equals t' = equals t1).
  { intros t1 Hws1 Hl1 Hn1.
    pose proof (oa_live_count_bound t1 Hws1) as Hlb1.
    destruct (oa_add_entry_frame t1 (mk_entry k v ACTIVE) Hws1)
      as (t2 & r & Hadd & Hr & Hs2 & Hn2 & Hh2 & He2 & Hws2 & Hl2).
    unfold add_pair. rewrite Hadd, bind_Ret. cbv beta iota.
    destruct Hr as [-> | ->].
    - change (0 =? 0) with true. cbv iota. exists t2, 0.
      split; [reflexivity|]. split; [assumption|]. split; [lia|].
      split; [lia|]. now repeat split.
    - change (1 =? 0) with false. cbv iota. eexists _, 1.
      split; [reflexivity|]. split; [exact Hws2|].
      change (live_count (set_nentries t2 (cast_size_t (nentries t2 + 1))))
        with (live_count t2).
      simpl nentries. rewrite cast_size_t_small by (unfold INT_MAX in Hb; lia).
      split; [lia|]. split; [lia|]. now repeat split. }
  unfold hashmap_add.
  assert (Hcast : cast_size_t (size t * 2) = size t * 2).
  { apply cast_size_t_small. destruct Hws as [[? ?] _].
    unfold INT_MAX in *. lia. }
  rewrite Hcast.
  destruct (load_exceeded (nentries t) (size t)) eqn:Hl.
  - unfold load_exceeded in Hl. apply Z.leb_le in Hl.
    destruct (oa_resize_frame t (size t * 2) Hws)
      as (t1 & Hre & Hs1 & Hn1 & Hh1 & He1 & Hws1 & Hl1).
    { destruct Hws as [[? ?] _]. lia. }
    rewrite Hre, bind_Ret. cbv beta iota. change (1 =? 0) with false. cbv iota.
    destruct (Hpair t1 Hws1) as (t' & r & Hap & Hws' & Hl' & Hn' & Hs' & Hh' & He');
      [lia|lia|].
    exists t', r. split; [exact Hap|]. split; [exact Hws'|].
    split; [exact Hl'|]. split; [exact Hn'|]. split; [lia|].
    split; congruence.
  - destruct (Hpair t Hws Hlive Hn)
      as (t' & r & Hap & Hws' & Hl' & Hn' & Hs' & Hh' & He').
    exists t', r. split; [exact Hap|]. split; [exact Hws'|].
    split; [exact Hl'|]. split; [exact Hn'|]. split; [lia|].
    split; assumption.
Qed.

Lemma oa_remove_frame (t : hashmap) (k : ptr) :
  well_sized t → live_count t ≤ nentries t → nentries t < 2 ^ 64 →
  ∃ t' w, hashmap_remove t k = Ret (t', w) ∧ well_sized t' ∧
    size t' = size t ∧ live_count t' ≤ nentries t' ∧
    nentries t' ≤ nentries t ∧
    hashcode t' = hashcode t ∧ equals t' = equals t.
Proof.
  intros Hws Hlive Hcnt. pose proof Hws as [[Hpos _] Hlen].
  pose proof (oa_live_count_bound t Hws) as Hlb.
  destruct (oa_find_entry_total t k Hws) as [[i|] Hf].
  - destruct (oa_find_entry_some t k i Hws Hf) as (n & Hn & Hi & Hm & _).
    assert (Hr : 0 ≤ i < size t) by (subst i; now apply oa_probe_range).
    apply oa_matches_active in Hm as [Ha _].
    unfold hashmap_remove.
    rewrite Hf, bind_Ret, (oa_read_slot t i Hws Hr), bind_Ret.
    rewrite (oa_active_not_empty _ Ha).
    rewrite write_in_range by lia. rewrite bind_Ret.
    eexists _, _. split; [reflexivity|].
    split; [split; [apply Hws|simpl; now rewrite length_insert]|].
    split; [reflexivity|].
    assert (Hl : live_count
              (set_backing t
                 (<[Z.to_nat i := mk_entry (key (slot t i)) (value (slot t i))
                                    DELETED]> (backing t))) + 1
            = live_count t).
    { unfold live_count, live_entries. simpl backing.
      rewrite <- (filter_insert_loss (λ x, is_active x = true) (backing t)
                    (Z.to_nat i) (slot t i)
                    (mk_entry (key (slot t i)) (value (slot t i)) DELETED));
        [lia|now apply oa_slot_lookup|assumption|discriminate]. }
    assert (Hl0 : 0 ≤ live_count
              (set_backing t
                 (<[Z.to_nat i := mk_entry (key (slot t i)) (value (slot t i))
                                    DELETED]> (backing t))))
      by (unfold live_count; lia).
    change (live_count (set_nentries ?a ?b)) with (live_count a).
    simpl nentries. rewrite cast_size_t_small by lia.
    split; [lia|]. split; [lia|]. now split.
  - exists t, NULL. unfold hashmap_remove. rewrite Hf, bind_Ret.
    split; [reflexivity|]. split; [assumption|]. split; [reflexivity|].
    split; [assumption|]. split; [lia|]. now split.
Qed.

(** Every sequence of calls on a table whose count is not below the number
    of [ACTIVE] slots runs to its end. *)
Lemma oa_run_total (ops : list op) (t : hashmap) (c : Z) :
  well_sized t → live_count t ≤ nentries t → nentries t ≤ c →
  size t ≤ Z.max 10 (3 * c) →
  6 * (c + Z.of_nat (length ops)) ≤ INT_MAX →
  ∃ t', run ops t = Ret t' ∧ well_sized t' ∧
    live_count t' ≤ nentries t' ∧
    nentries t' ≤ c + Z.of_nat (length ops) ∧
    size t' ≤ Z.max 10 (3 * (c + Z.of_nat (length ops))) ∧
    hashcode t' = hashcode t ∧ equals t' = equals t.
Proof.
  revert t c. induction ops as [|o ops IH]; intros t c Hws Hl Hn Hs Hb.
  - exists t. simpl. rewrite Z.add_0_r. split; [reflexivity|].
    split; [assumption|]. split; [assumption|]. split; [assumption|].
    split; [assumption|]. now split.
  - rewrite length_cons, Nat2Z.inj_succ in *.
    pose proof (oa_live_count_bound t Hws) as Hlb.
    pose proof pow_31_64 as H64.
    assert (Hstep : ∃ t1, step t o = Ret t1 ∧ well_sized t1 ∧
              live_count t1 ≤ nentries t1 ∧ nentries t1 ≤ c + 1 ∧
              size t1 ≤ Z.max 10 (3 * (c + 1)) ∧
              hashcode t1 = hashcode t ∧ equals t1 = equals t).
    { destruct o as [k v|k|]; simpl.
      - destruct (oa_add_frame t k v c Hws Hl Hn Hs)
          as (t1 & r & Hadd & H); [lia|].
        rewrite Hadd, bind_Ret. exists t1. split; [reflexivity|exact H].
      - destruct (oa_remove_frame t k Hws Hl)
          as (t1 & w & Hrem & Hws1 & Hs1 & Hl1 & Hn1 & Hh1 & He1).
        { unfold INT_MAX in Hb. lia. }
        rewrite Hrem, bind_Ret. exists t1. split; [reflexivity|].
        split; [assumption|]. split; [assumption|]. split; [lia|].
        split; [lia|]. now split.
      - exists (hashmap_clear t true). split; [reflexivity|].
        split; [split; [simpl; unfold INT_MAX, HASHMAP_INIT_SIZE; lia
                       |reflexivity]|].
        split.
        { unfold live_count, live_entries.
          change (backing (hashmap_clear t true))
            with (replicate 10 zero_entry).
          rewrite oa_filter_replicate_zero. simpl. lia. }
        simpl. unfold HASHMAP_INIT_SIZE. split; [lia|]. split; [lia|].
        now split. }
    destruct Hstep as (t1 & Hst & Hws1 & Hl1 & Hn1 & Hs1 & Hh1 & He1).
    destruct (IH t1 (c + 1) Hws1 Hl1 Hn1 Hs1)
      as (t' & Hrun & Hws' & Hl' & Hn' & Hs' & Hh' & He'); [lia|].
    exists t'. simpl. rewrite Hst, bind_Ret.
    replace (c + Z.succ (Z.of_nat (length ops)))
      with (c + 1 + Z.of_nat (length ops)) by lia.
    split; [assumption|]. split; [assumption|]. split; [assumption|].
    split; [assumption|]. split; [assumption|]. split; congruence.
Qed.

Lemma oa_parity_good_keys (t : hashmap) :
  hashcode t = parity_hash → equals t = parity_eq → good_keys t.
Proof.
  intros Hh He. unfold good_keys, hash_of. rewrite Hh, He.
  split; [intros a; now apply parity_eq_truthy|].
  split; [intros a b Hab; apply parity_eq_truthy in Hab;
          now apply parity_eq_truthy|].
  split.
  - intros a b c Hab Hbc. apply parity_eq_truthy in Hab, Hbc.
    apply parity_eq_truthy. congruence.
  - intros a b Hab. apply parity_eq_truthy in Hab. unfold parity_hash.
    now rewrite Hab.
Qed.

Lemma oa_parity_wf : wf OpenAddrRuns.parity_table.
Proof.
  split; [split; [unfold INT_MAX; simpl; lia|reflexivity]|].
  split; [now apply oa_parity_good_keys|].
  split; [apply oa_no_duplicate_check; vm_compute; reflexivity|].
  apply oa_reachable_check; vm_compute; reflexivity.
Qed.

End OpenAddrMore.

(** ** The string utilities *)

Lemma int_result_ok (x : Z) :
  INT_MIN ≤ x ≤ INT_MAX → int_result x = Ret x.
Proof.
  intros [Hlo Hhi]. unfold int_result.
  apply Z.leb_le in Hlo, Hhi. now rewrite Hlo, Hhi.
Qed.

Lemma int_result_cases (x : Z) : int_result x = Ret x ∨ int_result x = Undef.
Proof. unfold int_result. destruct (_ && _); auto. Qed.

Lemma int_shl_overflow (e : Z) :
  INT_MAX < e * 2 ^ 5 → int_shl e 5 = Undef.
Proof.
  intros Hov. unfold int_shl, int_result. destruct (e <? 0); [reflexivity|].
  apply Z.leb_gt in Hov. now rewrite Hov, andb_false_r.
Qed.

Lemma uchar_inj (x y : Z) :
  CHAR_MIN ≤ x ≤ CHAR_MAX → CHAR_MIN ≤ y ≤ CHAR_MAX →
  uchar x = uchar y → x = y.
Proof.
  unfold uchar, CHAR_MIN, CHAR_MAX. intros Hx Hy He.
  pose proof (Z.div_mod x 256 ltac:(lia)).
  pose proof (Z.div_mod y 256 ltac:(lia)).
  pose proof (Z.mod_pos_bound x 256 ltac:(lia)).
  lia.
Qed.

Lemma uchar_nonzero (x : Z) : is_char x → uchar x ≠ 0.
Proof.
  intros [Hx Hn] H0. apply Hn. apply (uchar_inj x 0); try assumption.
  unfold CHAR_MIN, CHAR_MAX. lia.
Qed.

(** [strcmp] answers 0 exactly for equal strings. *)
Lemma strcmp_zero (a b : list Z) :
  Forall is_char a → Forall is_char b → strcmp a b = 0 ↔ a = b.
Proof.
  intros Ha. revert b. induction Ha as [|x a Hx Ha IH]; intros b Hb.
  - destruct Hb as [|y b Hy Hb]; simpl; [tauto|].
    pose proof (uchar_nonzero y Hy). split; [lia|discriminate].
  - destruct Hb as [|y b Hy Hb]; simpl.
    + pose proof (uchar_nonzero x Hx). split; [lia|discriminate].
    + destruct (Z.eqb_spec x y) as [->|Hne].
      * rewrite (IH b Hb). split; congruence.
      * split; [|congruence]. intros H0. exfalso. apply Hne.
        apply uchar_inj; [apply Hx|apply Hy|lia].
Qed.

Lemma str_hash_step (c : Z) (s : list Z) (h e : Z) :
  0 ≤ e → 32 * e ≤ INT_MAX →
  INT_MIN ≤ c * e ≤ INT_MAX → INT_MIN ≤ h + c * e ≤ INT_MAX →
  str_hash_loop (c :: s) h e = str_hash_loop s (h + c * e) (31 * e).
Proof.
  intros He Hsh Hm Ha. simpl. unfold int_mul, int_add, int_shl, int_sub.
  rewrite (int_result_ok (c * e)) by assumption. rewrite bind_Ret.
  rewrite (int_result_ok (h + c * e)) by assumption. rewrite bind_Ret.
  destruct (Z.ltb_spec e 0); [lia|].
  change (2 ^ 5) with 32.
  rewrite (int_result_ok (e * 32)) by (unfold INT_MIN, INT_MAX in *; lia).
  rewrite bind_Ret.
  rewrite (int_result_ok (e * 32 - e)) by (unfold INT_MIN, INT_MAX in *; lia).
  rewrite bind_Ret. f_equal. lia.
Qed.

(** Up to five characters: nothing overflows and the loop adds
    [exp * (c_0 + 31 c_1 + ...)] to [hash]. *)
Lemma str_hash_loop_short (s : list Z) (h e : Z) :
  Forall is_char s → 1 ≤ e → Z.abs h ≤ 128 * e →
  e * 31 ^ Z.of_nat (length s) ≤ 31 ^ 5 →
  str_hash_loop s h e = Ret (h + e * poly31 s).
Proof.
  intros Hs. revert h e. induction Hs as [|c s Hc Hs IH]; intros h e He Hh Hb.
  - simpl. f_equal. lia.
  - rewrite length_cons, Nat2Z.inj_succ, Z.pow_succ_r in Hb by lia.
    assert (Hp : 1 ≤ 31 ^ Z.of_nat (length s)).
    { pose proof (Z.pow_pos_nonneg 31 (Z.of_nat (length s))). lia. }
    assert (He4 : 31 * e ≤ 31 ^ 5) by nia.
    change (31 ^ 5) with 28629151 in *.
    destruct Hc as [[Hlo Hhi] _]. unfold CHAR_MIN, CHAR_MAX in *.
    assert (Hce : Z.abs (c * e) ≤ 128 * e) by (rewrite Z.abs_mul; nia).
    rewrite str_hash_step; unfold INT_MIN, INT_MAX; try lia.
    rewrite IH; [simpl poly31; f_equal; lia|lia|lia|nia].
Qed.

(** From seven characters on, [exp << 5] overflows. *)
Lemma str_hash_loop_long (s : list Z) (h e : Z) :
  s ≠ [] → 1 ≤ e →
  INT_MAX < 32 * e * 31 ^ (Z.of_nat (length s) - 1) →
  str_hash_loop s h e = Undef.
Proof.
  revert h e. induction s as [|c s IH]; intros h e Hne He Hov; [congruence|].
  rewrite length_cons, Nat2Z.inj_succ in Hov.
  replace (Z.succ (Z.of_nat (length s)) - 1) with (Z.of_nat (length s)) in Hov by lia.
  simpl. unfold int_mul, int_add.
  destruct (int_result_cases (c * e)) as [-> | ->]; [|reflexivity].
  rewrite bind_Ret.
  destruct (int_result_cases (h + c * e)) as [-> | ->]; [|reflexivity].
  rewrite bind_Ret.
  destruct (Z.le_gt_cases (e * 2 ^ 5) INT_MAX) as [Hfit|Hbig].
  - change (2 ^ 5) with 32 in Hfit.
    unfold int_shl, int_sub. destruct (Z.ltb_spec e 0); [lia|].
    change (2 ^ 5) with 32.
    rewrite (int_result_ok (e * 32)) by (unfold INT_MIN, INT_MAX in *; lia).
    rewrite bind_Ret.
    rewrite (int_result_ok (e * 32 - e)) by (unfold INT_MIN, INT_MAX in *; lia).
    rewrite bind_Ret.
    destruct s as [|c' s].
    + simpl in Hov. lia.
    + apply IH; [discriminate|lia|].
      rewrite length_cons, Nat2Z.inj_succ in *.
      replace (Z.succ (Z.of_nat (length s)) - 1) with (Z.of_nat (length s)) by lia.
      rewrite Z.pow_succ_r in Hov by lia. nia.
  - now rewrite int_shl_overflow.
Qed.

Lemma read_string_ok (m : memory) (p : ptr) (s : list Z) :
  p ≠ NULL → m p = Some s → read_string m p = Ret s.
Proof.
  intros Hp Hm. unfold read_string.
  destruct (Z.eqb_spec p NULL); [contradiction|]. now rewrite Hm.
Qed.

Lemma oa_str_eq_strings (m : memory) (p q : ptr) (a b : list Z) :
  valid_memory m → p ≠ NULL → q ≠ NULL → m p = Some a → m q = Some b →
  OpenAddr.hashmap_str_eq m p q = Ret (if bool_decide (a = b) then 1 else 0).
Proof.
  intros Hm Hp Hq Ha Hb. unfold OpenAddr.hashmap_str_eq.
  destruct (Z.eqb_spec p q) as [->|Hne].
  - assert (a = b) as -> by congruence. now rewrite bool_decide_eq_true_2.
  - destruct (Z.eqb_spec p NULL); [contradiction|].
    destruct (Z.eqb_spec q NULL); [contradiction|]. simpl orb. cbv iota.
    rewrite (read_string_ok m p a), bind_Ret by assumption.
    rewrite (read_string_ok m q b), bind_Ret by assumption.
    f_equal. pose proof (strcmp_zero a b (Hm p a Ha) (Hm q b Hb)) as Hz.
    destruct (Z.eqb_spec (strcmp a b) 0) as [E|E].
    + now rewrite bool_decide_eq_true_2 by tauto.
    + now rewrite bool_decide_eq_false_2 by tauto.
Qed.

Lemma ch_str_eq_strings (m : memory) (p q : ptr) (a b : list Z) :
  valid_memory m → p ≠ NULL → q ≠ NULL → m p = Some a → m q = Some b →
  Chained.hashmap_str_eq m p q = Ret (if bool_decide (a = b) then 1 else 0).
Proof.
  intros Hm Hp Hq Ha Hb. unfold Chained.hashmap_str_eq.
  rewrite (read_string_ok m p a), bind_Ret by assumption.
  rewrite (read_string_ok m q b), bind_Ret by assumption.
  f_equal. pose proof (strcmp_zero a b (Hm p a Ha) (Hm q b Hb)) as Hz.
  destruct (Z.eqb_spec (strcmp a b) 0) as [E|E].
  - now rewrite bool_decide_eq_true_2 by tauto.
  - now rewrite bool_decide_eq_false_2 by tauto.
Qed.

(** What [hashmap_str_eq] of the open-addressing listing answers on keys
    that are [NULL] or point to a string. *)
Lemma oa_str_eq_one (m : memory) (p q : ptr) :
  valid_memory m →
  (p = NULL ∨ is_Some (m p)) → (q = NULL ∨ is_Some (m q)) →
  ∃ r, OpenAddr.hashmap_str_eq m p q = Ret r ∧ (r = 0 ∨ r = 1) ∧
       (r = 1 ↔ p = q ∨ (p ≠ NULL ∧ q ≠ NULL ∧ m p = m q)).
Proof.
  intros Hm Hp Hq.
  destruct (Z.eq_dec p q) as [->|Hne].
  { exists 1. unfold OpenAddr.hashmap_str_eq. rewrite Z.eqb_refl. tauto. }
  destruct (Z.eq_dec p NULL) as [->|Hpn].
  { exists 0. unfold OpenAddr.hashmap_str_eq.
    destruct (Z.eqb_spec NULL q); [contradiction|]. simpl.
    split; [reflexivity|]. split; [tauto|]. split; [discriminate|].
    intros [?|(? & _)]; congruence. }
  destruct (Z.eq_dec q NULL) as [->|Hqn].
  { exists 0. unfold OpenAddr.hashmap_str_eq.
    destruct (Z.eqb_spec p NULL); [contradiction|]. simpl.
    split; [reflexivity|]. split; [tauto|]. split; [discriminate|].
    intros [?|(_ & ? & _)]; congruence. }
  destruct Hp as [?|[a Ha]]; [contradiction|].
  destruct Hq as [?|[b Hb]]; [contradiction|].
  rewrite (oa_str_eq_strings m p q a b) by assumption.
  rewrite Ha, Hb. destruct (bool_decide_reflect (a = b)) as [->|Hab].
  - exists 1. split; [reflexivity|]. tauto.
  - exists 0. split; [reflexivity|]. split; [tauto|]. split; [discriminate|].
    intros [?|(_ & _ & ?)]; congruence.
Qed.

Lemma sample_memory_valid : valid_memory StringRuns.sample_memory.
Proof.
  intros p s. unfold StringRuns.sample_memory.
  repeat (destruct (_ =? _); [intros [= <-];
    repeat constructor; unfold CHAR_MIN, CHAR_MAX; lia|]).
  discriminate.
Qed.

Lemma str_hash_short (s : list Z) :
  Forall is_char s → (length s ≤ 5)%nat →
  str_hash_loop s 0 1 = Ret (poly31 s).
Proof.
  intros Hs Hlen. rewrite (str_hash_loop_short s 0 1 Hs); [f_equal; lia|lia|lia|].
  rewrite Z.mul_1_l. apply Z.pow_le_mono_r; lia.
Qed.

Lemma str_hash_long (s : list Z) :
  (7 ≤ length s)%nat → str_hash_loop s 0 1 = Undef.
Proof.
  intros Hlen. apply str_hash_loop_long.
  - destruct s; [simpl in Hlen; lia|discriminate].
  - lia.
  - assert (31 ^ 6 ≤ 31 ^ (Z.of_nat (length s) - 1))
      by (apply Z.pow_le_mono_r; lia).
    change (31 ^ 6) with 887503681 in *. unfold INT_MAX. lia.
Qed.

(** * Further properties of the code *)

(** ** The chaining table *)

(** X1: [hashmap_new] of the chaining table returns [NULL] only when
    [malloc] fails.  When both allocations succeed the table has ten
    buckets and no entry, uses the callbacks given ([addr_hash] and [ref_eq]
    for a [NULL] callback), and every key is absent: [hashmap_get] returns
    [NULL], [hashmap_contains] answers 0 and [hashmap_remove] returns [NULL]
    and leaves the table alone.  When only [calloc] fails the block comes
    back as [malloc] left it. *)
Theorem chained_new_table_empty (hash_func : option (ptr → Z))
    (equals_func : option (ptr → ptr → Z)) (fresh : Chained.hashmap) :
  (∃ t, Chained.hashmap_new hash_func equals_func fresh true true = Some t ∧
     Chained.hashmap_size t = 0 ∧ Chained.size t = HASHMAP_INIT_SIZE ∧
     Chained.hashcode t = default addr_hash hash_func ∧
     Chained.equals t = default ref_eq equals_func ∧
     ∀ k, Chained.hashmap_get t k = Ret NULL ∧
          Chained.hashmap_contains t k = Ret 0 ∧
          Chained.hashmap_remove t k = Ret (t, NULL)) ∧
  (∀ calloc_ok,
     Chained.hashmap_new hash_func equals_func fresh false calloc_ok = None) ∧
  Chained.hashmap_new hash_func equals_func fresh true false = Some fresh.
Proof.
  split; [|split; reflexivity].
  eexists. split; [reflexivity|]. split; [reflexivity|].
  split; [reflexivity|]. split; [reflexivity|]. split; [reflexivity|].
  intros k. apply ChainedMore.ch_init_lookups.
Qed.

(** X2: in a chaining table whose array has [size] cells, a key that no
    node matches is reported absent: [hashmap_get] returns [NULL],
    [hashmap_contains] answers 0, and [hashmap_remove] returns [NULL] and
    leaves the table unchanged. *)
Theorem chained_absent_key (t : Chained.hashmap) (k : ptr) :
  Chained.well_sized t → ¬ Chained.present t k →
  Chained.hashmap_get t k = Ret NULL ∧
  Chained.hashmap_contains t k = Ret 0 ∧
  Chained.hashmap_remove t k = Ret (t, NULL).
Proof. apply ChainedMore.ch_absent. Qed.

Lemma chained_absent_key_witness :
  Chained.hashmap_get ChainedRuns.loaded_table 8 = Ret NULL ∧
  Chained.hashmap_contains ChainedRuns.loaded_table 8 = Ret 0 ∧
  Chained.hashmap_remove ChainedRuns.loaded_table 8
    = Ret (ChainedRuns.loaded_table, NULL).
Proof.
  apply (chained_absent_key ChainedRuns.loaded_table 8).
  - split; [simpl; lia|reflexivity].
  - apply ChainedMore.ch_absent_check. vm_compute. reflexivity.
Defined.

(** X3: [hashmap_remove] of a key that matches a stored node, in a
    well-formed chaining table, returns the value of that node, unlinks
    exactly that node and lowers [hashmap_size] by one; the table stays well
    formed, the key is absent afterwards, and the lookup of every key that
    [equals] tells apart from the removed one is unchanged. *)
Theorem chained_remove_present_key (t : Chained.hashmap) (k : ptr)
    (e : Chained.hm_entry_t) :
  Chained.wf t → Chained.nentries t < 2 ^ 64 →
  e ∈ Chained.nodes t → truthy (Chained.equals t (Chained.key e) k) = true →
  ∃ t', Chained.hashmap_remove t k = Ret (t', Chained.value e) ∧
    Chained.hashmap_size t' = Chained.hashmap_size t - 1 ∧
    Chained.size t' = Chained.size t ∧
    Chained.nodes t ≡ₚ e :: Chained.nodes t' ∧ Chained.wf t' ∧
    Chained.hashmap_get t' k = Ret NULL ∧
    Chained.hashmap_contains t' k = Ret 0 ∧
    ∀ k', truthy (Chained.equals t k k') = false →
          Chained.hashmap_get t' k' = Chained.hashmap_get t k'.
Proof. apply ChainedMore.ch_remove_entry. Qed.

Lemma chained_remove_present_key_witness :
  ∃ t', Chained.hashmap_remove ChainedRuns.loaded_table 3 = Ret (t', 3) ∧
        Chained.hashmap_size t' = 6 ∧
        Chained.hashmap_get t' 3 = Ret NULL.
Proof.
  destruct (chained_remove_present_key ChainedRuns.loaded_table 3
              (Chained.mk_entry 3 3))
    as (t' & Hrem & Hn & _ & _ & _ & Hg & _).
  - apply ChainedMore.ch_loaded_wf.
  - simpl. lia.
  - apply list_elem_of_In. simpl. tauto.
  - reflexivity.
  - exists t'. split; [exact Hrem|]. split; [exact Hn|exact Hg].
Defined.

(** X4: [hashmap_add] of a key that no node matches, in a well-formed
    chaining table and with both allocations succeeding, answers 1, links
    one node with the key and the value, raises [hashmap_size] by one and
    doubles the array exactly when the load test asks for it; the table
    stays well formed, [hashmap_get] of the key returns the value, and the
    lookup of every key that [equals] tells apart from it is unchanged. *)
Theorem chained_add_new_key (t : Chained.hashmap) (k v : ptr) :
  Chained.wf t → Chained.size t * 2 ≤ 2 ^ 31 →
  Chained.nentries t + 1 < 2 ^ 64 → ¬ Chained.present t k →
  ∃ t', Chained.hashmap_add t k v true true = Ret (t', 1) ∧
    Chained.hashmap_size t' = Chained.hashmap_size t + 1 ∧
    Chained.size t' =
      (if load_exceeded (Chained.nentries t) (Chained.size t)
       then Chained.size t * 2 else Chained.size t) ∧
    Chained.nodes t' ≡ₚ Chained.mk_entry k v :: Chained.nodes t ∧
    Chained.wf t' ∧
    Chained.hashmap_get t' k = Ret v ∧
    ∀ k', truthy (Chained.equals t k k') = false →
          Chained.hashmap_get t' k' = Chained.hashmap_get t k'.
Proof.
  intros Hwf Hdbl Hcnt Hab.
  destruct (ChainedMore.ch_add_absent t k v Hwf Hdbl Hcnt Hab)
    as (t' & Hadd & Hn & Hs & _ & _ & Hp & Hwf' & Hg & Hoth).
  exists t'. split; [exact Hadd|]. split; [exact Hn|]. split; [exact Hs|].
  split; [exact Hp|]. split; [exact Hwf'|]. split; [exact Hg|exact Hoth].
Qed.

Lemma chained_add_new_key_witness :
  ∃ t', Chained.hashmap_add ChainedRuns.loaded_table 8 9 true true
          = Ret (t', 1) ∧
        Chained.hashmap_size t' = 8 ∧ Chained.size t' = 20 ∧
        Chained.hashmap_get t' 8 = Ret 9.
Proof.
  destruct (chained_add_new_key ChainedRuns.loaded_table 8 9)
    as (t' & Hadd & Hn & Hs & _ & _ & Hg & _).
  - apply ChainedMore.ch_loaded_wf.
  - simpl. lia.
  - simpl. lia.
  - apply ChainedMore.ch_absent_check. vm_compute. reflexivity.
  - exists t'. split; [exact Hadd|]. split; [exact Hn|].
    split; [exact Hs|exact Hg].
Defined.

(** X5: when [malloc] returns no node, or when the array is due for
    resizing and [calloc] returns no memory, [hashmap_add] of the chaining
    table answers 0 and no binding changes: [hashmap_size] and every
    [hashmap_get] are as before (after a failed [malloc] the array may have
    been doubled; after a failed [calloc] the table is untouched). *)
Theorem chained_add_allocation_failure (t : Chained.hashmap) (k v : ptr)
    (calloc_ok malloc_ok : bool) :
  Chained.wf t → Chained.size t * 2 ≤ 2 ^ 31 →
  malloc_ok = false ∨
    (calloc_ok = false ∧
     load_exceeded (Chained.nentries t) (Chained.size t) = true) →
  ∃ t', Chained.hashmap_add t k v calloc_ok malloc_ok = Ret (t', 0) ∧
    Chained.hashmap_size t' = Chained.hashmap_size t ∧ Chained.wf t' ∧
    (calloc_ok = false → t' = t) ∧
    ∀ k', Chained.hashmap_get t' k' = Chained.hashmap_get t k'.
Proof. apply ChainedMore.ch_add_alloc_fails. Qed.

Lemma chained_add_allocation_failure_witness :
  ∃ t', Chained.hashmap_add ChainedRuns.loaded_table 8 9 true false
          = Ret (t', 0) ∧
        Chained.hashmap_size t' = 7 ∧
        Chained.hashmap_get t' 8 = Chained.hashmap_get ChainedRuns.loaded_table 8.
Proof.
  destruct (chained_add_allocation_failure ChainedRuns.loaded_table 8 9
              true false)
    as (t' & Hadd & Hn & _ & _ & Hg).
  - apply ChainedMore.ch_loaded_wf.
  - simpl. lia.
  - left. reflexivity.
  - exists t'. split; [exact Hadd|]. split; [exact Hn|apply Hg].
Defined.

(** X6: in a well-formed chaining table, [hashmap_add] of a new key
    followed by [hashmap_remove] of that key gives back the value added and
    restores [hashmap_size], the stored nodes and every lookup (the loop of
    [test_add_immediate_remove]). *)
Theorem chained_add_then_remove (t : Chained.hashmap) (k v : ptr) :
  Chained.wf t → Chained.size t * 2 ≤ 2 ^ 31 →
  Chained.nentries t + 1 < 2 ^ 64 → ¬ Chained.present t k →
  ∃ t1 t2, Chained.hashmap_add t k v true true = Ret (t1, 1) ∧
    Chained.hashmap_remove t1 k = Ret (t2, v) ∧
    Chained.hashmap_size t2 = Chained.hashmap_size t ∧
    Chained.nodes t2 ≡ₚ Chained.nodes t ∧ Chained.wf t2 ∧
    ∀ k', Chained.hashmap_get t2 k' = Chained.hashmap_get t k'.
Proof. apply ChainedMore.ch_add_remove. Qed.

Lemma chained_add_then_remove_witness :
  ∃ t1 t2, Chained.hashmap_add ChainedRuns.default_table 5 7 true true
             = Ret (t1, 1) ∧
    Chained.hashmap_remove t1 5 = Ret (t2, 7) ∧
    Chained.hashmap_size t2 = 0.
Proof.
  destruct (chained_add_then_remove ChainedRuns.default_table 5 7)
    as (t1 & t2 & Hadd & Hrem & Hn & _).
  - apply ChainedFacts.ch_default_wf.
  - simpl. lia.
  - simpl. lia.
  - apply ChainedMore.ch_absent_check. vm_compute. reflexivity.
  - exists t1, t2. split; [exact Hadd|]. split; [exact Hrem|exact Hn].
Defined.

(** X7: insertions into a well-formed chaining table of keys that are new
    and pairwise different all succeed, whatever resizing they trigger:
    afterwards [hashmap_size] has grown by their number, [hashmap_get] of
    each inserted key returns its value, and the lookup of every other key
    is unchanged.  ([c] bounds the number of entries and a third of the
    array size, so that the array stays within the [int] indexes.) *)
Theorem chained_distinct_inserts (es : list Chained.hm_entry_t)
    (t : Chained.hashmap) (c : Z) :
  Chained.wf t → Chained.nentries t ≤ c →
  Chained.size t ≤ Z.max 10 (3 * c) →
  6 * (c + Z.of_nat (length es)) ≤ 2 ^ 31 →
  Chained.distinct_keys t es →
  (∀ e, e ∈ es → ¬ Chained.present t (Chained.key e)) →
  ∃ t', Chained.run
          (map (λ e, Chained.Add (Chained.key e) (Chained.value e)) es) t
          = Ret t' ∧
    Chained.wf t' ∧
    Chained.hashmap_size t' = Chained.hashmap_size t + Z.of_nat (length es) ∧
    Chained.nodes t' ≡ₚ es ++ Chained.nodes t ∧
    (∀ e, e ∈ es →
       Chained.hashmap_get t' (Chained.key e) = Ret (Chained.value e)) ∧
    (∀ k, (∀ e, e ∈ es →
             truthy (Chained.equals t (Chained.key e) k) = false) →
          Chained.hashmap_get t' k = Chained.hashmap_get t k).
Proof. apply ChainedMore.ch_adds_lookup. Qed.

Lemma chained_distinct_inserts_witness :
  ∃ t', Chained.run [Chained.Add 10 1; Chained.Add 20 2; Chained.Add 30 3]
          ChainedRuns.default_table = Ret t' ∧
    Chained.hashmap_size t' = 3 ∧
    Chained.hashmap_get t' 20 = Ret 2.
Proof.
  destruct (chained_distinct_inserts
              [Chained.mk_entry 10 1; Chained.mk_entry 20 2;
               Chained.mk_entry 30 3]
              ChainedRuns.default_table 0)
    as (t' & Hrun & _ & Hn & _ & Hin & _).
  - apply ChainedFacts.ch_default_wf.
  - simpl. lia.
  - simpl. lia.
  - simpl. lia.
  - apply ChainedFacts.ch_distinct_check. vm_compute. reflexivity.
  - intros e He. apply ChainedMore.ch_absent_check. reflexivity.
  - exists t'. split; [exact Hrun|]. split; [exact Hn|].
    apply (Hin (Chained.mk_entry 20 2)).
    apply list_elem_of_In. simpl. tauto.
Defined.

(** X8: every sequence of [hashmap_add], [hashmap_remove] and
    [hashmap_clear] calls on a well-formed chaining table runs to its end
    without undefined behaviour and leaves a well-formed table: the nodes
    sit in the buckets of their keys, no two nodes have matching keys and
    [hashmap_size] is the number of nodes.  ([c] bounds the number of
    entries and a third of the array size at the start; the sequence must be
    short enough for the array to stay within the [int] indexes.) *)
Theorem chained_calls_keep_well_formed (ops : list Chained.op)
    (t : Chained.hashmap) (c : Z) :
  Chained.wf t → 0 ≤ c → Chained.nentries t ≤ c →
  Chained.size t ≤ Z.max 10 (3 * c) →
  6 * (c + Z.of_nat (length ops)) ≤ 2 ^ 31 →
  ∃ t', Chained.run ops t = Ret t' ∧ Chained.wf t' ∧
    Chained.hashmap_size t' ≤ c + Z.of_nat (length ops) ∧
    Chained.size t' ≤ Z.max 10 (3 * (c + Z.of_nat (length ops))).
Proof.
  intros Hwf Hc Hn Hs Hb.
  destruct (ChainedMore.ch_run_total ops t c Hwf Hc Hn Hs Hb)
    as (t' & Hrun & Hwf' & Hn' & Hs' & _).
  exists t'. split; [exact Hrun|]. split; [exact Hwf'|].
  split; [exact Hn'|exact Hs'].
Qed.

Lemma chained_calls_keep_well_formed_witness :
  ∃ t', Chained.run ChainedRuns.test_add_int_ops ChainedRuns.default_table
          = Ret t' ∧ Chained.wf t'.
Proof.
  destruct (chained_calls_keep_well_formed ChainedRuns.test_add_int_ops
              ChainedRuns.default_table 0)
    as (t' & Hrun & Hwf' & _).
  - apply ChainedFacts.ch_default_wf.
  - lia.
  - simpl. lia.
  - simpl. lia.
  - simpl. lia.
  - exists t'. split; [exact Hrun|exact Hwf'].
Defined.

(** X9: [hashmap_clear] of the chaining table, when [calloc] succeeds,
    leaves a table of ten buckets and no entry with the callbacks it had:
    every key is absent.  When [calloc] fails the table keeps its counters
    and the array that was just freed, so that every [hashmap_get],
    [hashmap_contains] and [hashmap_remove] is undefined. *)
Theorem chained_clear (t : Chained.hashmap) (k : ptr) :
  (Chained.hashmap_size (Chained.hashmap_clear t true) = 0 ∧
   Chained.size (Chained.hashmap_clear t true) = HASHMAP_INIT_SIZE ∧
   Chained.hashcode (Chained.hashmap_clear t true) = Chained.hashcode t ∧
   Chained.equals (Chained.hashmap_clear t true) = Chained.equals t ∧
   Chained.hashmap_get (Chained.hashmap_clear t true) k = Ret NULL ∧
   Chained.hashmap_contains (Chained.hashmap_clear t true) k = Ret 0) ∧
  (Chained.hashmap_size (Chained.hashmap_clear t false)
     = Chained.hashmap_size t ∧
   Chained.hashmap_get (Chained.hashmap_clear t false) k = Undef ∧
   Chained.hashmap_contains (Chained.hashmap_clear t false) k = Undef ∧
   Chained.hashmap_remove (Chained.hashmap_clear t false) k = Undef).
Proof.
  split.
  - split; [reflexivity|]. split; [reflexivity|]. split; [reflexivity|].
    split; [reflexivity|].
    destruct (ChainedMore.ch_init_lookups (Chained.hashcode t)
                (Chained.equals t) k) as (Hg & Hc & _).
    split; [exact Hg|exact Hc].
  - split; [reflexivity|].
    assert (Hg : Chained.hashmap_get (Chained.hashmap_clear t false) k = Undef).
    { unfold Chained.hashmap_get, Chained.hashmap_clear, Chained.compress,
        c_compress. simpl.
      destruct (Chained.size t =? 0); [reflexivity|]. rewrite bind_Ret.
      unfold read. destruct (_ <? 0); [reflexivity|].
      now rewrite lookup_nil. }
    split; [exact Hg|]. split.
    + unfold Chained.hashmap_contains. now rewrite Hg.
    + unfold Chained.hashmap_remove, Chained.hashmap_clear, Chained.compress,
        c_compress. simpl.
      destruct (Chained.size t =? 0); [reflexivity|]. rewrite bind_Ret.
      unfold read. destruct (_ <? 0); [reflexivity|].
      now rewrite lookup_nil.
Qed.

(** X10: [resize] of a well-formed chaining table to any positive size
    within the [int] indexes, larger or smaller than the old one, moves
    every node to the bucket of its key in the new array: the table stays
    well formed, holds the same nodes and answers every [hashmap_get] as
    before.  When [calloc] fails it returns 0 and leaves the table as it
    is. *)
Theorem chained_resize_keeps_bindings (t : Chained.hashmap) (new_size : Z) :
  Chained.wf t → 0 < new_size ≤ 2 ^ 31 →
  (∃ t', Chained.resize t new_size true = Ret (t', 1) ∧
     Chained.size t' = new_size ∧
     Chained.hashmap_size t' = Chained.hashmap_size t ∧
     Chained.nodes t' ≡ₚ Chained.nodes t ∧ Chained.wf t' ∧
     ∀ k, Chained.hashmap_get t' k = Chained.hashmap_get t k) ∧
  Chained.resize t new_size false = Ret (t, 0).
Proof.
  intros Hwf Hns. split; [|reflexivity].
  destruct (ChainedFacts.ch_resize_wf t new_size Hwf Hns)
    as (t' & Hre & Hs & Hn & _ & He & Hwf' & Hp).
  exists t'. split; [exact Hre|]. split; [exact Hs|]. split; [exact Hn|].
  split; [exact Hp|]. split; [exact Hwf'|].
  intros k. now apply ChainedFacts.ch_get_perm.
Qed.

Lemma chained_resize_keeps_bindings_witness :
  ∃ t', Chained.resize ChainedRuns.loaded_table 3 true = Ret (t', 1) ∧
        Chained.size t' = 3 ∧
        Chained.hashmap_get t' 5 = Chained.hashmap_get ChainedRuns.loaded_table 5.
Proof.
  destruct (chained_resize_keeps_bindings ChainedRuns.loaded_table 3)
    as [(t' & Hre & Hs & _ & _ & _ & Hg) _].
  - apply ChainedMore.ch_loaded_wf.
  - lia.
  - exists t'. split; [exact Hre|]. split; [exact Hs|apply Hg].
Defined.

(** ** The open-addressing table *)

(** X11: [hashmap_new] of the open-addressing table returns [NULL] only
    when [malloc] fails.  When both allocations succeed the table has ten
    [EMPTY] slots and no entry, uses the callbacks given ([addr_hash] and
    [ref_eq] for a [NULL] callback), and every key is absent.  When only
    [calloc] fails the block comes back as [malloc] left it. *)
Theorem open_addr_new_table_empty (hash_func : option (ptr → Z))
    (equals_func : option (ptr → ptr → Z)) (fresh : OpenAddr.hashmap) :
  (∃ t, OpenAddr.hashmap_new hash_func equals_func fresh true true = Some t ∧
     OpenAddr.hashmap_size t = 0 ∧ OpenAddr.size t = HASHMAP_INIT_SIZE ∧
     OpenAddr.hashcode t = default addr_hash hash_func ∧
     OpenAddr.equals t = default ref_eq equals_func ∧
     ∀ k, OpenAddr.hashmap_get t k = Ret NULL ∧
          OpenAddr.hashmap_contains t k = Ret 0 ∧
          OpenAddr.hashmap_remove t k = Ret (t, NULL)) ∧
  (∀ calloc_ok,
     OpenAddr.hashmap_new hash_func equals_func fresh false calloc_ok = None) ∧
  OpenAddr.hashmap_new hash_func equals_func fresh true false = Some fresh.
Proof.
  split; [|split; reflexivity].
  eexists. split; [reflexivity|]. split; [reflexivity|].
  split; [reflexivity|]. split; [reflexivity|]. split; [reflexivity|].
  intros k. apply OpenAddrMore.oa_init_lookups.
Qed.

(** X12: in an open-addressing table whose array has [size] cells, a key
    that no [ACTIVE] slot matches is reported absent, tombstones or not:
    [find_entry] returns [NULL], [hashmap_get] returns [NULL],
    [hashmap_contains] answers 0, and [hashmap_remove] returns [NULL] and
    leaves the table unchanged. *)
Theorem open_addr_absent_key (t : OpenAddr.hashmap) (k : ptr) :
  OpenAddr.well_sized t → ¬ OpenAddr.present t k →
  OpenAddr.find_entry t k = Ret None ∧
  OpenAddr.hashmap_get t k = Ret NULL ∧
  OpenAddr.hashmap_contains t k = Ret 0 ∧
  OpenAddr.hashmap_remove t k = Ret (t, NULL).
Proof. apply OpenAddrMore.oa_absent. Qed.

Lemma open_addr_absent_key_witness :
  OpenAddr.find_entry OpenAddrRuns.tombstone_table 10 = Ret None ∧
  OpenAddr.hashmap_get OpenAddrRuns.tombstone_table 10 = Ret NULL ∧
  OpenAddr.hashmap_contains OpenAddrRuns.tombstone_table 10 = Ret 0 ∧
  OpenAddr.hashmap_remove OpenAddrRuns.tombstone_table 10
    = Ret (OpenAddrRuns.tombstone_table, NULL).
Proof.
  apply (open_addr_absent_key OpenAddrRuns.tombstone_table 10).
  - split; [unfold INT_MAX; simpl; lia|reflexivity].
  - apply OpenAddrMore.oa_absent_check. vm_compute. reflexivity.
Defined.

(** X13: on every open-addressing table whose array has [size] cells,
    whatever the slots hold and whatever the callbacks answer, the probe
    loops end within one turn around the array and read only inside it:
    [hashmap_get], [hashmap_contains], [hashmap_remove] and [add_entry]
    return, and the table they leave has the same size and callbacks. *)
Theorem open_addr_calls_return (t : OpenAddr.hashmap) (k : ptr)
    (e : OpenAddr.hm_entry_t) :
  OpenAddr.well_sized t →
  (∃ v, OpenAddr.hashmap_get t k = Ret v ∧
        OpenAddr.hashmap_contains t k = Ret (if v =? NULL then 0 else 1)) ∧
  (∃ t' w, OpenAddr.hashmap_remove t k = Ret (t', w) ∧
     OpenAddr.well_sized t' ∧ OpenAddr.size t' = OpenAddr.size t ∧
     OpenAddr.equals t' = OpenAddr.equals t ∧
     OpenAddr.hashcode t' = OpenAddr.hashcode t) ∧
  (∃ t' r, OpenAddr.add_entry t e = Ret (t', r) ∧
     OpenAddr.well_sized t' ∧ OpenAddr.size t' = OpenAddr.size t ∧
     OpenAddr.equals t' = OpenAddr.equals t ∧
     OpenAddr.hashcode t' = OpenAddr.hashcode t).
Proof.
  intros Hws.
  destruct (OpenAddrMore.oa_lookups_total t k Hws)
    as (v & t' & w & Hg & Hc & Hr & Hws' & Hs & He & Hh).
  split; [exists v; split; [exact Hg|exact Hc]|]. split.
  - exists t', w. split; [exact Hr|]. split; [exact Hws'|].
    split; [exact Hs|]. split; [exact He|exact Hh].
  - destruct (OpenAddrFacts.oa_add_entry_total t e Hws)
      as (t2 & r & Ha & Hs2 & _ & Hh2 & He2 & Hws2).
    exists t2, r. split; [exact Ha|]. split; [exact Hws2|].
    split; [exact Hs2|]. split; [exact He2|exact Hh2].
Qed.

Lemma open_addr_calls_return_witness :
  ∃ t' r, OpenAddr.add_entry OpenAddrRuns.full_table
            (OpenAddr.mk_entry 7 7 OpenAddr.ACTIVE) = Ret (t', r).
Proof.
  destruct (open_addr_calls_return OpenAddrRuns.full_table 7
              (OpenAddr.mk_entry 7 7 OpenAddr.ACTIVE))
    as (_ & _ & t' & r & Ha & _).
  - split; [unfold INT_MAX; simpl; lia|reflexivity].
  - exists t', r. exact Ha.
Defined.

(** X14: [hashmap_remove] of a key that matches the [ACTIVE] slot [i], in
    a well-formed open-addressing table that counts its live entries,
    returns the value of that slot, turns exactly that slot into a tombstone
    and lowers [hashmap_size] by one; the table stays well formed, the key
    is absent afterwards, and the lookup of every key that [equals] tells
    apart from the removed one is unchanged. *)
Theorem open_addr_remove_present_key (t : OpenAddr.hashmap) (k : ptr) (i : Z) :
  OpenAddr.wf t → OpenAddr.nentries t = OpenAddr.live_count t →
  0 ≤ i < OpenAddr.size t →
  OpenAddr.matches t k (OpenAddr.slot t i) = true →
  ∃ t', OpenAddr.hashmap_remove t k
          = Ret (t', OpenAddr.value (OpenAddr.slot t i)) ∧
    OpenAddr.hashmap_size t' = OpenAddr.hashmap_size t - 1 ∧
    OpenAddr.nentries t' = OpenAddr.live_count t' ∧
    OpenAddr.size t' = OpenAddr.size t ∧ OpenAddr.wf t' ∧
    OpenAddr.state (OpenAddr.slot t' i) = OpenAddr.DELETED ∧
    (∀ j, 0 ≤ j < OpenAddr.size t → j ≠ i →
          OpenAddr.slot t' j = OpenAddr.slot t j) ∧
    OpenAddr.hashmap_get t' k = Ret NULL ∧
    OpenAddr.hashmap_contains t' k = Ret 0 ∧
    ∀ k', truthy (OpenAddr.equals t k k') = false →
          OpenAddr.hashmap_get t' k' = OpenAddr.hashmap_get t k'.
Proof.
  intros Hwf Hcnt Hi Hm.
  destruct (OpenAddrMore.oa_remove_present t k i Hwf Hcnt Hi Hm)
    as (t' & Hrem & Hs & _ & _ & Hn & Hc & Hwf' & Hst & Hsl & Hg & Hco & Hoth).
  exists t'. split; [exact Hrem|]. split; [exact Hn|]. split; [exact Hc|].
  split; [exact Hs|]. split; [exact Hwf'|]. split; [exact Hst|].
  split; [exact Hsl|]. split; [exact Hg|]. split; [exact Hco|exact Hoth].
Qed.

Lemma open_addr_remove_present_key_witness :
  ∃ t', OpenAddr.hashmap_remove OpenAddrRuns.tombstone_table 20
          = Ret (t', 2) ∧
        OpenAddr.hashmap_size t' = 0 ∧
        OpenAddr.hashmap_get t' 20 = Ret NULL.
Proof.
  destruct (open_addr_remove_present_key OpenAddrRuns.tombstone_table 20 1)
    as (t' & Hrem & Hn & _ & _ & _ & _ & _ & Hg & _).
  - apply OpenAddrMore.oa_tombstone_wf.
  - reflexivity.
  - simpl. lia.
  - reflexivity.
  - exists t'. split; [exact Hrem|]. split; [exact Hn|exact Hg].
Defined.

(** X15: [hashmap_add] of a key that no [ACTIVE] slot matches, in a
    well-formed open-addressing table that counts its live entries and with
    [calloc] succeeding, answers 1, raises [hashmap_size] by one and doubles
    the array exactly when the load test asks for it; the table stays well
    formed and keeps counting its live entries, [hashmap_get] of the key
    returns the value, and the lookup of every key that [equals] tells
    apart from it is unchanged. *)
Theorem open_addr_add_new_key (t : OpenAddr.hashmap) (k v : ptr) :
  OpenAddr.wf t → OpenAddr.nentries t = OpenAddr.live_count t →
  OpenAddr.size t * 2 ≤ INT_MAX → ¬ OpenAddr.present t k →
  ∃ t', OpenAddr.hashmap_add t k v true = Ret (t', 1) ∧
    OpenAddr.hashmap_size t' = OpenAddr.hashmap_size t + 1 ∧
    OpenAddr.nentries t' = OpenAddr.live_count t' ∧
    OpenAddr.size t' =
      (if load_exceeded (OpenAddr.nentries t) (OpenAddr.size t)
       then OpenAddr.size t * 2 else OpenAddr.size t) ∧
    OpenAddr.wf t' ∧
    (∃ p, 0 ≤ p < OpenAddr.size t' ∧
          OpenAddr.slot t' p = OpenAddr.mk_entry k v OpenAddr.ACTIVE) ∧
    OpenAddr.hashmap_get t' k = Ret v ∧
    ∀ k', truthy (OpenAddr.equals t k k') = false →
          OpenAddr.hashmap_get t' k' = OpenAddr.hashmap_get t k'.
Proof.
  intros Hwf Hcnt Hdbl Hab.
  destruct (OpenAddrMore.oa_add_absent t k v Hwf Hcnt Hdbl Hab)
    as (t' & Hadd & Hn & Hc & Hs & _ & _ & Hwf' & Hp & Hg & Hoth).
  exists t'. split; [exact Hadd|]. split; [exact Hn|]. split; [exact Hc|].
  split; [exact Hs|]. split; [exact Hwf'|]. split; [exact Hp|].
  split; [exact Hg|]. intros k' Hne. apply (Hoth k' Hne).
Qed.

Lemma open_addr_add_new_key_witness :
  ∃ t', OpenAddr.hashmap_add OpenAddrRuns.loaded_table 8 9 true
          = Ret (t', 1) ∧
        OpenAddr.hashmap_size t' = 8 ∧ OpenAddr.size t' = 20 ∧
        OpenAddr.hashmap_get t' 8 = Ret 9.
Proof.
  destruct (open_addr_add_new_key OpenAddrRuns.loaded_table 8 9)
    as (t' & Hadd & Hn & _ & Hs & _ & _ & Hg & _).
  - apply OpenAddrMore.oa_loaded_wf.
  - reflexivity.
  - unfold INT_MAX. simpl. lia.
  - apply OpenAddrMore.oa_absent_check. vm_compute. reflexivity.
  - exists t'. split; [exact Hadd|]. split; [exact Hn|].
    split; [exact Hs|exact Hg].
Defined.

(** X16: in a well-formed open-addressing table that counts its live
    entries, [hashmap_add] of a new key followed by [hashmap_remove] of that
    key gives back the value added and restores [hashmap_size] and every
    lookup (the loop of [test_add_immediate_remove]); the slot used is left
    as a tombstone. *)
Theorem open_addr_add_then_remove (t : OpenAddr.hashmap) (k v : ptr) :
  OpenAddr.wf t → OpenAddr.nentries t = OpenAddr.live_count t →
  OpenAddr.size t * 2 ≤ INT_MAX → ¬ OpenAddr.present t k →
  ∃ t1 t2, OpenAddr.hashmap_add t k v true = Ret (t1, 1) ∧
    OpenAddr.hashmap_remove t1 k = Ret (t2, v) ∧
    OpenAddr.hashmap_size t2 = OpenAddr.hashmap_size t ∧
    OpenAddr.nentries t2 = OpenAddr.live_count t2 ∧ OpenAddr.wf t2 ∧
    ∀ k', OpenAddr.hashmap_get t2 k' = OpenAddr.hashmap_get t k'.
Proof. apply OpenAddrMore.oa_add_remove. Qed.

Lemma open_addr_add_then_remove_witness :
  ∃ t1 t2, OpenAddr.hashmap_add OpenAddrRuns.default_table 5 7 true
             = Ret (t1, 1) ∧
    OpenAddr.hashmap_remove t1 5 = Ret (t2, 7) ∧
    OpenAddr.hashmap_size t2 = 0.
Proof.
  destruct (open_addr_add_then_remove OpenAddrRuns.default_table 5 7)
    as (t1 & t2 & Hadd & Hrem & Hn & _).
  - apply OpenAddrFacts.oa_default_wf.
  - reflexivity.
  - unfold INT_MAX. simpl. lia.
  - apply OpenAddrMore.oa_absent_check. vm_compute. reflexivity.
  - exists t1, t2. split; [exact Hadd|]. split; [exact Hrem|exact Hn].
Defined.

(** X17: insertions into a well-formed open-addressing table that counts
    its live entries, of keys that are new and pairwise different, all
    succeed, whatever collisions and resizing they meet: afterwards
    [hashmap_size] has grown by their number, [hashmap_get] of each inserted
    key returns its value, and the lookup of every other key is unchanged.
    ([c] bounds the number of entries and a third of the array size.) *)
Theorem open_addr_distinct_inserts (kvs : list (ptr * ptr))
    (t : OpenAddr.hashmap) (c : Z) :
  OpenAddr.wf t → OpenAddr.nentries t = OpenAddr.live_count t →
  OpenAddr.nentries t ≤ c → OpenAddr.size t ≤ Z.max 10 (3 * c) →
  6 * (c + Z.of_nat (length kvs)) ≤ INT_MAX →
  (∀ i j p q, i ≠ j → kvs !! i = Some p → kvs !! j = Some q →
     truthy (OpenAddr.equals t p.1 q.1) = false) →
  (∀ p, p ∈ kvs → ¬ OpenAddr.present t p.1) →
  ∃ t', OpenAddr.run (map (λ p, OpenAddr.Add p.1 p.2) kvs) t = Ret t' ∧
    OpenAddr.wf t' ∧ OpenAddr.nentries t' = OpenAddr.live_count t' ∧
    OpenAddr.hashmap_size t'
      = OpenAddr.hashmap_size t + Z.of_nat (length kvs) ∧
    (∀ p, p ∈ kvs → OpenAddr.hashmap_get t' p.1 = Ret p.2) ∧
    (∀ k, (∀ p, p ∈ kvs → truthy (OpenAddr.equals t p.1 k) = false) →
          OpenAddr.hashmap_get t' k = OpenAddr.hashmap_get t k).
Proof.
  intros Hwf Hcnt Hn Hs Hb Hd Hab.
  destruct (OpenAddrMore.oa_adds_spec kvs t c Hwf Hcnt Hn Hs Hb Hd Hab)
    as (t' & Hrun & Hwf' & Hc' & _ & Hn' & Hin & Hout).
  exists t'. split; [exact Hrun|]. split; [exact Hwf'|]. split; [exact Hc'|].
  split; [exact Hn'|]. split; [exact Hin|].
  intros k Hk. apply (Hout k Hk).
Qed.

Lemma open_addr_distinct_inserts_witness :
  ∃ t', OpenAddr.run [OpenAddr.Add 10 1; OpenAddr.Add 20 2; OpenAddr.Add 30 3]
          OpenAddrRuns.default_table = Ret t' ∧
    OpenAddr.hashmap_size t' = 3 ∧
    OpenAddr.hashmap_get t' 20 = Ret 2.
Proof.
  destruct (open_addr_distinct_inserts [(10, 1); (20, 2); (30, 3)]
              OpenAddrRuns.default_table 0)
    as (t' & Hrun & _ & _ & Hn & Hin & _).
  - apply OpenAddrFacts.oa_default_wf.
  - reflexivity.
  - simpl. lia.
  - simpl. lia.
  - unfold INT_MAX. simpl. lia.
  - intros i j p q Hne Hi Hj.
    destruct i as [|[|[|i]]]; simpl in Hi; try discriminate;
      destruct j as [|[|[|j]]]; simpl in Hj; try discriminate;
      try (exfalso; apply Hne; reflexivity);
      injection Hi as <-; injection Hj as <-; reflexivity.
  - intros p Hp. apply OpenAddrMore.oa_absent_check. reflexivity.
  - exists t'. split; [exact Hrun|]. split; [exact Hn|].
    apply (Hin (20, 2)). apply list_elem_of_In. simpl. tauto.
Defined.

(** X18: when every slot of an open-addressing table is [ACTIVE],
    [add_entry] walks once around the array, stops at the slot it started
    from and answers 0 without changing the table. *)
Theorem open_addr_full_table_rejects (t : OpenAddr.hashmap)
    (e : OpenAddr.hm_entry_t) :
  OpenAddr.well_sized t →
  (∀ i, 0 ≤ i < OpenAddr.size t →
        OpenAddr.is_active (OpenAddr.slot t i) = true) →
  OpenAddr.add_entry t e = Ret (t, 0).
Proof. apply OpenAddrMore.oa_add_entry_full. Qed.

Lemma open_addr_full_table_rejects_witness :
  OpenAddr.add_entry OpenAddrRuns.full_table
    (OpenAddr.mk_entry 7 7 OpenAddr.ACTIVE)
  = Ret (OpenAddrRuns.full_table, 0).
Proof.
  apply (open_addr_full_table_rejects OpenAddrRuns.full_table).
  - split; [unfold INT_MAX; simpl; lia|reflexivity].
  - intros i Hi. simpl in Hi.
    assert (i = 0 ∨ i = 1) as [-> | ->] by lia; reflexivity.
Defined.

(** X19: [resize] of a well-formed open-addressing table to a larger
    array re-inserts the live entries and drops the tombstones: the new
    table is well formed, has no tombstone and as many live entries as the
    old one, and answers every [hashmap_get] as before.  When [calloc]
    fails it returns 0 and leaves the table as it is. *)
Theorem open_addr_resize_keeps_bindings (t : OpenAddr.hashmap) (new_size : Z) :
  OpenAddr.wf t → OpenAddr.size t < new_size ≤ INT_MAX →
  (∃ t', OpenAddr.resize t new_size true = Ret (t', 1) ∧
     OpenAddr.size t' = new_size ∧
     OpenAddr.hashmap_size t' = OpenAddr.hashmap_size t ∧
     OpenAddr.wf t' ∧ OpenAddr.tombstone_free t' ∧
     OpenAddr.live_count t' = OpenAddr.live_count t ∧
     ∀ k, OpenAddr.hashmap_get t' k = OpenAddr.hashmap_get t k) ∧
  OpenAddr.resize t new_size false = Ret (t, 0).
Proof.
  intros Hwf Hns. split; [|reflexivity].
  destruct (OpenAddrMore.oa_resize_grow t new_size Hwf Hns)
    as (t' & Hre & Hs & Hn & _ & _ & Hwf' & Htf & Hlc & Hg & _).
  exists t'. split; [exact Hre|]. split; [exact Hs|]. split; [exact Hn|].
  split; [exact Hwf'|]. split; [exact Htf|]. split; [exact Hlc|exact Hg].
Qed.

Lemma open_addr_resize_keeps_bindings_witness :
  ∃ t', OpenAddr.resize OpenAddrRuns.tombstone_table 11 true = Ret (t', 1) ∧
        OpenAddr.tombstone_free t' ∧
        OpenAddr.hashmap_get t' 20
          = OpenAddr.hashmap_get OpenAddrRuns.tombstone_table 20.
Proof.
  destruct (open_addr_resize_keeps_bindings OpenAddrRuns.tombstone_table 11)
    as [(t' & Hre & _ & _ & _ & Htf & _ & Hg) _].
  - apply OpenAddrMore.oa_tombstone_wf.
  - unfold INT_MAX. simpl. lia.
  - exists t'. split; [exact Hre|]. split; [exact Htf|apply Hg].
Defined.

(** X20: [hashmap_clear] of the open-addressing table, when [calloc]
    succeeds, leaves a table of ten [EMPTY] slots and no entry with the
    callbacks it had: every key is absent.  When [calloc] fails the table
    keeps its counters and the array that was just freed, so that every
    [hashmap_get], [hashmap_contains] and [hashmap_remove] is undefined. *)
Theorem open_addr_clear (t : OpenAddr.hashmap) (k : ptr) :
  (OpenAddr.hashmap_size (OpenAddr.hashmap_clear t true) = 0 ∧
   OpenAddr.size (OpenAddr.hashmap_clear t true) = HASHMAP_INIT_SIZE ∧
   OpenAddr.hashcode (OpenAddr.hashmap_clear t true) = OpenAddr.hashcode t ∧
   OpenAddr.equals (OpenAddr.hashmap_clear t true) = OpenAddr.equals t ∧
   OpenAddr.hashmap_get (OpenAddr.hashmap_clear t true) k = Ret NULL ∧
   OpenAddr.hashmap_contains (OpenAddr.hashmap_clear t true) k = Ret 0) ∧
  (OpenAddr.hashmap_size (OpenAddr.hashmap_clear t false)
     = OpenAddr.hashmap_size t ∧
   OpenAddr.hashmap_get (OpenAddr.hashmap_clear t false) k = Undef ∧
   OpenAddr.hashmap_contains (OpenAddr.hashmap_clear t false) k = Undef ∧
   OpenAddr.hashmap_remove (OpenAddr.hashmap_clear t false) k = Undef).
Proof.
  split.
  - split; [reflexivity|]. split; [reflexivity|]. split; [reflexivity|].
    split; [reflexivity|].
    destruct (OpenAddrMore.oa_init_lookups (OpenAddr.hashcode t)
                (OpenAddr.equals t) k) as (Hg & Hc & _).
    split; [exact Hg|exact Hc].
  - split; [reflexivity|].
    assert (Hf : OpenAddr.find_entry (OpenAddr.hashmap_clear t false) k = Undef).
    { unfold OpenAddr.find_entry, OpenAddr.hashmap_clear, OpenAddr.compress,
        c_compress. simpl.
      destruct (OpenAddr.size t =? 0); [reflexivity|]. rewrite bind_Ret.
      unfold read. destruct (_ <? 0); [reflexivity|].
      now rewrite lookup_nil. }
    assert (Hg : OpenAddr.hashmap_get (OpenAddr.hashmap_clear t false) k = Undef)
      by (unfold OpenAddr.hashmap_get; now rewrite Hf).
    split; [exact Hg|]. split.
    + unfold OpenAddr.hashmap_contains. now rewrite Hg.
    + unfold OpenAddr.hashmap_remove. now rewrite Hf.
Qed.

(** ** The string utilities and the draft *)

(** X21: [hashmap_str_eq] of the chaining listing, given two pointers
    other than [NULL] to strings in memory, answers 1 when the strings have
    the same characters and 0 otherwise. *)
Theorem chained_str_eq_compares_contents (m : memory) (p q : ptr)
    (a b : list Z) :
  valid_memory m → p ≠ NULL → q ≠ NULL → m p = Some a → m q = Some b →
  Chained.hashmap_str_eq m p q = Ret (if bool_decide (a = b) then 1 else 0).
Proof. apply ch_str_eq_strings. Qed.

Lemma chained_str_eq_compares_contents_witness :
  Chained.hashmap_str_eq StringRuns.sample_memory 16 32 = Ret 1 ∧
  Chained.hashmap_str_eq StringRuns.sample_memory 16 48 = Ret 0.
Proof.
  split.
  - apply (chained_str_eq_compares_contents StringRuns.sample_memory 16 32
             StringRuns.key_chars StringRuns.key_chars);
      [apply sample_memory_valid|discriminate|discriminate
      |reflexivity|reflexivity].
  - apply (chained_str_eq_compares_contents StringRuns.sample_memory 16 48
             StringRuns.key_chars StringRuns.keys_chars);
      [apply sample_memory_valid|discriminate|discriminate
      |reflexivity|reflexivity].
Defined.

(** X22: [hashmap_str_eq] of the open-addressing listing, on keys that
    are [NULL] or point to a string, answers 0 or 1, the same in both
    argument orders; it answers 1 exactly when the pointers are equal or
    both point to strings with the same characters; and keys it identifies
    get the same result from [hashmap_str_hash]. *)
Theorem open_addr_str_eq_agrees_with_hash (m : memory) (p q : ptr) :
  valid_memory m →
  (p = NULL ∨ is_Some (m p)) → (q = NULL ∨ is_Some (m q)) →
  ∃ r, OpenAddr.hashmap_str_eq m p q = Ret r ∧
       OpenAddr.hashmap_str_eq m q p = Ret r ∧
       (r = 0 ∨ r = 1) ∧
       (r = 1 ↔ p = q ∨ (p ≠ NULL ∧ q ≠ NULL ∧ m p = m q)) ∧
       (r = 1 →
        OpenAddr.hashmap_str_hash m p = OpenAddr.hashmap_str_hash m q).
Proof.
  intros Hm Hp Hq.
  destruct (oa_str_eq_one m p q Hm Hp Hq) as (r & Hr & H01 & Hiff).
  destruct (oa_str_eq_one m q p Hm Hq Hp) as (r' & Hr' & H01' & Hiff').
  assert (r' = r) as ->.
  { destruct H01 as [-> | ->], H01' as [-> | ->]; try reflexivity; exfalso.
    - assert (H0 : 0 = 1); [|discriminate]. apply Hiff.
      destruct (proj1 Hiff' eq_refl) as [->|(? & ? & ?)]; [now left|right].
      now repeat split.
    - assert (H0 : 0 = 1); [|discriminate]. apply Hiff'.
      destruct (proj1 Hiff eq_refl) as [->|(? & ? & ?)]; [now left|right].
      now repeat split. }
  exists r. split; [exact Hr|]. split; [exact Hr'|]. split; [exact H01|].
  split; [exact Hiff|].
  intros H1. destruct (proj1 Hiff H1) as [->|(Hpn & Hqn & Hmm)]; [reflexivity|].
  unfold OpenAddr.hashmap_str_hash, read_string.
  destruct (Z.eqb_spec p NULL); [contradiction|].
  destruct (Z.eqb_spec q NULL); [contradiction|]. now rewrite Hmm.
Qed.

Lemma open_addr_str_eq_agrees_with_hash_witness :
  ∃ r, OpenAddr.hashmap_str_eq StringRuns.sample_memory 16 32 = Ret r ∧
       (r = 1 →
        OpenAddr.hashmap_str_hash StringRuns.sample_memory 16
        = OpenAddr.hashmap_str_hash StringRuns.sample_memory 32).
Proof.
  destruct (open_addr_str_eq_agrees_with_hash StringRuns.sample_memory 16 32)
    as (r & Hr & _ & _ & _ & Hh).
  - apply sample_memory_valid.
  - right. eexists. reflexivity.
  - right. eexists. reflexivity.
  - exists r. split; [exact Hr|exact Hh].
Defined.

(** X23: for a string of at most five characters no [int] operation of
    [hashmap_str_hash] overflows, and the result is the sum of the
    characters weighted by the powers of 31, first character first, in both
    listings. *)
Theorem str_hash_short_strings (m : memory) (key : ptr) (s : list Z) :
  valid_memory m → key ≠ NULL → m key = Some s → (length s ≤ 5)%nat →
  OpenAddr.hashmap_str_hash m key = Ret (poly31 s) ∧
  Chained.hashmap_str_hash m key = Ret (poly31 s).
Proof.
  intros Hm Hk Hs Hlen.
  pose proof (str_hash_short s (Hm key s Hs) Hlen) as Hh.
  unfold OpenAddr.hashmap_str_hash, Chained.hashmap_str_hash.
  rewrite (read_string_ok m key s Hk Hs), bind_Ret.
  destruct (Z.eqb_spec key NULL); [contradiction|]. now split.
Qed.

Lemma str_hash_short_strings_witness :
  OpenAddr.hashmap_str_hash StringRuns.sample_memory 48 = Ret 3545484 ∧
  Chained.hashmap_str_hash StringRuns.sample_memory 48 = Ret 3545484.
Proof.
  apply (str_hash_short_strings StringRuns.sample_memory 48
           StringRuns.keys_chars).
  - apply sample_memory_valid.
  - discriminate.
  - reflexivity.
  - simpl. lia.
Defined.

(** X24: for every string of seven or more characters [hashmap_str_hash]
    runs into undefined behaviour, in both listings: at the seventh
    character at the latest [exp] is [31^6] and [exp << 5] does not fit an
    [int]. *)
Theorem str_hash_long_strings_overflow (m : memory) (key : ptr) (s : list Z) :
  key ≠ NULL → m key = Some s → (7 ≤ length s)%nat →
  OpenAddr.hashmap_str_hash m key = Undef ∧
  Chained.hashmap_str_hash m key = Undef.
Proof.
  intros Hk Hs Hlen. pose proof (str_hash_long s Hlen) as Hh.
  unfold OpenAddr.hashmap_str_hash, Chained.hashmap_str_hash.
  rewrite (read_string_ok m key s Hk Hs), bind_Ret.
  destruct (Z.eqb_spec key NULL); [contradiction|]. now split.
Qed.

Lemma str_hash_long_strings_overflow_witness :
  OpenAddr.hashmap_str_hash StringRuns.sample_memory 64 = Undef ∧
  Chained.hashmap_str_hash StringRuns.sample_memory 64 = Undef.
Proof.
  apply (str_hash_long_strings_overflow StringRuns.sample_memory 64
           StringRuns.hashmaps_chars).
  - discriminate.
  - reflexivity.
  - simpl. lia.
Defined.

(** X25: the string utilities on [NULL] keys.  In the open-addressing
    listing [hashmap_str_hash] of [NULL] is 0 and [hashmap_str_eq] compares
    [NULL] with any pointer without reading memory: 1 for [NULL] itself, 0
    for another pointer.  In the chaining listing both functions
    dereference the pointer: a [NULL] argument is undefined behaviour. *)
Theorem string_utilities_null_keys (m : memory) (p : ptr) :
  (OpenAddr.hashmap_str_hash m NULL = Ret 0 ∧
   OpenAddr.hashmap_str_eq m NULL NULL = Ret 1 ∧
   (p ≠ NULL → OpenAddr.hashmap_str_eq m NULL p = Ret 0 ∧
               OpenAddr.hashmap_str_eq m p NULL = Ret 0)) ∧
  (Chained.hashmap_str_hash m NULL = Undef ∧
   Chained.hashmap_str_eq m NULL p = Undef ∧
   Chained.hashmap_str_eq m p NULL = Undef).
Proof.
  split.
  - split; [reflexivity|]. split; [reflexivity|].
    intros Hp. unfold OpenAddr.hashmap_str_eq.
    destruct (Z.eqb_spec NULL p); [congruence|].
    destruct (Z.eqb_spec p NULL); [congruence|]. now split.
  - split; [reflexivity|]. split; [reflexivity|].
    unfold Chained.hashmap_str_eq, read_string.
    destruct (p =? NULL); [reflexivity|]. now destruct (m p).
Qed.

(** X26: [hashmap_add] of the draft of the chaining table answers 0 and
    changes nothing for a [NULL] key, a [NULL] value or a failed [malloc].
    Otherwise it always answers 1: it never looks for the key and never
    grows the array, and the node it links and counts holds what [malloc]
    left in it, not the key and the value. *)
Theorem draft_add_links_unset_node (t : Chained.hashmap) (k v : ptr)
    (fresh : Chained.hm_entry_t) :
  Chained.well_sized t →
  (k = NULL ∨ v = NULL →
   ∀ malloc_ok, ChainedDraft.hashmap_add t k v malloc_ok fresh = Ret (t, 0)) ∧
  (k ≠ NULL → v ≠ NULL →
   ChainedDraft.hashmap_add t k v false fresh = Ret (t, 0) ∧
   ∃ t', ChainedDraft.hashmap_add t k v true fresh = Ret (t', 1) ∧
     Chained.size t' = Chained.size t ∧
     Chained.nentries t' = cast_size_t (Chained.nentries t + 1) ∧
     Chained.nodes t' ≡ₚ fresh :: Chained.nodes t).
Proof.
  intros Hws. split.
  - intros Hnull malloc_ok. unfold ChainedDraft.hashmap_add.
    destruct Hnull as [-> | ->]; [reflexivity|].
    now rewrite Z.eqb_refl, orb_true_r.
  - intros Hk Hv.
    destruct (ChainedFacts.ch_compress_home t k Hws) as [Hc Hr].
    destruct (read_in_range (Chained.backing t) (Chained.home t k)) as [b Hb].
    { destruct Hws as [_ ->]. exact Hr. }
    unfold ChainedDraft.hashmap_add.
    destruct (Z.eqb_spec k NULL); [contradiction|].
    destruct (Z.eqb_spec v NULL); [contradiction|].
    simpl orb. cbv iota. rewrite Hc, !bind_Ret. split; [reflexivity|].
    rewrite Hb, bind_Ret.
    rewrite write_in_range by (destruct Hws as [_ ->]; exact Hr).
    rewrite bind_Ret. eexists. split; [reflexivity|].
    split; [reflexivity|]. split; [reflexivity|].
    unfold Chained.nodes. simpl. apply concat_insert_cons.
    apply read_ret in Hb. tauto.
Qed.

Lemma draft_add_links_unset_node_witness :
  ∃ t', ChainedDraft.hashmap_add ChainedRuns.default_table 10 1 true
          (Chained.mk_entry 77 88) = Ret (t', 1) ∧
        Chained.nodes t' ≡ₚ
          Chained.mk_entry 77 88 :: Chained.nodes ChainedRuns.default_table.
Proof.
  destruct (draft_add_links_unset_node ChainedRuns.default_table 10 1
              (Chained.mk_entry 77 88)) as [_ Hadd].
  - split; [simpl; lia|reflexivity].
  - destruct Hadd as (_ & t' & Ha & _ & _ & Hp); [discriminate|discriminate|].
    exists t'. split; [exact Ha|exact Hp].
Defined.

(** ** Both tables *)

(** X27: in a well-formed table of either kind, two keys that [equals]
    identifies get the same answer from [hashmap_get] and from
    [hashmap_contains]. *)
Theorem lookups_respect_equals :
  (∀ (t : Chained.hashmap) (k k' : ptr),
      Chained.wf t → truthy (Chained.equals t k k') = true →
      Chained.hashmap_get t k' = Chained.hashmap_get t k ∧
      Chained.hashmap_contains t k' = Chained.hashmap_contains t k) ∧
  (∀ (t : OpenAddr.hashmap) (k k' : ptr),
      OpenAddr.wf t → truthy (OpenAddr.equals t k k') = true →
      OpenAddr.hashmap_get t k' = OpenAddr.hashmap_get t k ∧
      OpenAddr.hashmap_contains t k' = OpenAddr.hashmap_contains t k).
Proof.
  split; intros t k k' Hwf Hkk.
  - pose proof (ChainedMore.ch_get_equal_keys t k k' Hwf Hkk) as Hg.
    split; [exact Hg|]. unfold Chained.hashmap_contains. now rewrite Hg.
  - pose proof (OpenAddrMore.oa_get_equal_keys t k k' Hwf Hkk) as Hg.
    split; [exact Hg|]. unfold OpenAddr.hashmap_contains. now rewrite Hg.
Qed.

Lemma lookups_respect_equals_witness :
  (Chained.hashmap_get ChainedRuns.parity_table 5
     = Chained.hashmap_get ChainedRuns.parity_table 3 ∧
   Chained.hashmap_contains ChainedRuns.parity_table 5
     = Chained.hashmap_contains ChainedRuns.parity_table 3 ∧
   Chained.hashmap_get ChainedRuns.parity_table 3 = Ret 7) ∧
  (OpenAddr.hashmap_get OpenAddrRuns.parity_table 5
     = OpenAddr.hashmap_get OpenAddrRuns.parity_table 3 ∧
   OpenAddr.hashmap_contains OpenAddrRuns.parity_table 5
     = OpenAddr.hashmap_contains OpenAddrRuns.parity_table 3 ∧
   OpenAddr.hashmap_get OpenAddrRuns.parity_table 3 = Ret 7).
Proof.
  split.
  - destruct (proj1 lookups_respect_equals ChainedRuns.parity_table 3 5)
      as [Hg Hc].
    + apply ChainedMore.ch_parity_wf.
    + reflexivity.
    + split; [exact Hg|]. split; [exact Hc|]. vm_compute. reflexivity.
  - destruct (proj2 lookups_respect_equals OpenAddrRuns.parity_table 3 5)
      as [Hg Hc].
    + apply OpenAddrMore.oa_parity_wf.
    + reflexivity.
    + split; [exact Hg|]. split; [exact Hc|]. vm_compute. reflexivity.
Defined.

(** X28: the loops of [test_resize] and [test_collision], for any number
    [n] of items that keeps the array within the [int] indexes: in a new
    table of either kind that compares keys by address, whatever its hash
    function (the constant [collision_hash] too), inserting the keys
    [0 .. n - 1], each with itself as value, leaves [hashmap_size] at [n]
    and makes [hashmap_get] return [i] for every key [i] below [n]. *)
Theorem consecutive_keys_all_found (hash_func : option (ptr → Z)) (n : Z) :
  0 ≤ n → 6 * n ≤ INT_MAX →
  (∀ fresh, ∃ t0 t',
     Chained.hashmap_new hash_func None fresh true true = Some t0 ∧
     Chained.run (map (λ i, Chained.Add i i) (seqZ 0 n)) t0 = Ret t' ∧
     Chained.hashmap_size t' = n ∧
     ∀ i, 0 ≤ i < n → Chained.hashmap_get t' i = Ret i) ∧
  (∀ fresh, ∃ t0 t',
     OpenAddr.hashmap_new hash_func None fresh true true = Some t0 ∧
     OpenAddr.run (map (λ i, OpenAddr.Add i i) (seqZ 0 n)) t0 = Ret t' ∧
     OpenAddr.hashmap_size t' = n ∧
     ∀ i, 0 ≤ i < n → OpenAddr.hashmap_get t' i = Ret i).
Proof.
  intros Hn Hb. split; intros fresh.
  - destruct (ChainedMore.ch_consecutive_keys (default addr_hash hash_func) n Hn)
      as (t' & Hrun & _ & Hs & Hg); [unfold INT_MAX in Hb; lia|].
    eexists _, t'. split; [reflexivity|]. split; [exact Hrun|].
    split; [exact Hs|exact Hg].
  - destruct (OpenAddrMore.oa_consecutive_keys (default addr_hash hash_func) n
                Hn Hb) as (t' & Hrun & _ & Hs & Hg).
    eexists _, t'. split; [reflexivity|]. split; [exact Hrun|].
    split; [exact Hs|exact Hg].
Qed.

Lemma consecutive_keys_all_found_witness :
  (∀ fresh, ∃ t0 t',
     Chained.hashmap_new (Some (λ _, 1)) None fresh true true = Some t0 ∧
     Chained.run (map (λ i, Chained.Add i i) (seqZ 0 1024)) t0 = Ret t' ∧
     Chained.hashmap_size t' = 1024 ∧
     ∀ i, 0 ≤ i < 1024 → Chained.hashmap_get t' i = Ret i) ∧
  (∀ fresh, ∃ t0 t',
     OpenAddr.hashmap_new (Some (λ _, 1)) None fresh true true = Some t0 ∧
     OpenAddr.run (map (λ i, OpenAddr.Add i i) (seqZ 0 1024)) t0 = Ret t' ∧
     OpenAddr.hashmap_size t' = 1024 ∧
     ∀ i, 0 ≤ i < 1024 → OpenAddr.hashmap_get t' i = Ret i).
Proof.
  apply (consecutive_keys_all_found (Some (λ _, 1)) 1024).
  - lia.
  - unfold INT_MAX. lia.
Defined.

(** ** Safety of the open-addressing table *)

(** X29: every sequence of [hashmap_add], [hashmap_remove] and
    [hashmap_clear] calls on an open-addressing table whose count is not
    below the number of [ACTIVE] slots runs to its end without undefined
    behaviour, whatever the callbacks answer and whatever tombstones and
    duplicate keys arise on the way: the probes stay inside the array, the
    count never wraps and stays at or above the number of [ACTIVE] slots.
    ([c] bounds the count and a third of the array size at the start; the
    sequence must be short enough for the array to stay within the [int]
    indexes.) *)
Theorem open_addr_calls_always_return (ops : list OpenAddr.op)
    (t : OpenAddr.hashmap) (c : Z) :
  OpenAddr.well_sized t →
  OpenAddr.live_count t ≤ OpenAddr.nentries t → OpenAddr.nentries t ≤ c →
  OpenAddr.size t ≤ Z.max 10 (3 * c) →
  6 * (c + Z.of_nat (length ops)) ≤ INT_MAX →
  ∃ t', OpenAddr.run ops t = Ret t' ∧ OpenAddr.well_sized t' ∧
    OpenAddr.live_count t' ≤ OpenAddr.hashmap_size t' ∧
    OpenAddr.hashmap_size t' ≤ c + Z.of_nat (length ops) ∧
    OpenAddr.size t' ≤ Z.max 10 (3 * (c + Z.of_nat (length ops))).
Proof.
  intros Hws Hl Hn Hs Hb.
  destruct (OpenAddrMore.oa_run_total ops t c Hws Hl Hn Hs Hb)
    as (t' & Hrun & Hws' & Hl' & Hn' & Hs' & _).
  exists t'. split; [exact Hrun|]. split; [exact Hws'|].
  split; [exact Hl'|]. split; [exact Hn'|exact Hs'].
Qed.

Lemma open_addr_calls_always_return_witness :
  ∃ t', OpenAddr.run OpenAddrRuns.reinsert_ops OpenAddrRuns.default_table
          = Ret t' ∧
        OpenAddr.live_count t' ≤ OpenAddr.hashmap_size t'.
Proof.
  destruct (open_addr_calls_always_return OpenAddrRuns.reinsert_ops
              OpenAddrRuns.default_table 0)
    as (t' & Hrun & _ & Hl & _).
  - split; [unfold INT_MAX; simpl; lia|reflexivity].
  - vm_compute. discriminate.
  - simpl. lia.
  - simpl. lia.
  - unfold INT_MAX. simpl. lia.
  - exists t'. split; [exact Hrun|exact Hl].
Defined.
